(* ===== verification/_CoqProject ===== *)
-Q . S2P
Prelude.v
Canvas.v
Names.v
Engine.v
Spec.v
Results.v
Wheel.v
Drawing.v
WheelCanvas.v
Controller.v
Run.v
Animation.v
Audio.v
Confetti.v
Chrome.v
Views.v
Page.v
Display.v
