(* ===== verification/Prelude.v ===== *)
(** * Gift-exchange wheel game: a verification development

    This library models [src/gift-game.js], a browser party game in which
    each participant spins a wheel to learn whose gift they receive; the
    owner of that gift spins next, and a "swap mode" resolves the
    last-player deadlock.  The program keeps its state in module-level
    variables and the DOM, and drives it from event handlers, timers and
    animation frames.  The development translates that state into records
    and every handler that changes it into a Rocq function, composes the
    handlers into a step relation of the page, and proves the game's
    properties about them.  Everything is executable: the fixtures of the
    files are concrete games evaluated by [vm_compute].

    ** Files, in dependency order, and the code they model

    - [Prelude.v] (this file): JavaScript array helpers ([includes], the
      guarded [push] of [if (!a.includes(x)) a.push(x)]), their lemmas on
      duplicate-free lists, sums over arrays updated in place, the hint
      database [gift] and the tactic [js_cases].
    - [Canvas.v], [Module Canvas]: the browser's 2D canvas context, the
      library [drawWheel] and [drawConfetti] call, modelled after the
      HTML canvas specification (not code of this repository): the
      drawing state [save]/[restore] push and pop, the path, the
      transform as the list of [translate]/[rotate] calls, and [exec]
      running one call into the paints it produces.  [block_ok] is the
      contract of a block of calls (it paints given paints and restores
      the transform and the stack), closed under sequencing and loops.
    - [Names.v], [Module Names]: the roster input, [updateParticipants]
      lines 103-107 ([split('\n')], [trim()], the empty-line filter) and
      [loadParticipants] lines 93-97.  Strings are UTF-8 bytes; [trim]
      removes the ECMAScript white space and line terminators.  [trim]
      recurses with fuel [length s], enough because every step removes a
      non-empty prefix.
    - [Engine.v], [Module Engine]: the game arrays of lines 6-11 as the
      record [state]; [populatePlayerSelection], [selectPlayer], the wheel
      lists of [startSpin] and [handleSpinComplete], the swap (with the
      in-place update of the array entry [find] returns), the next-player
      choice of [showWinnerModal], the completion test of [closeModal] and
      the counters of [updateCountDisplay].
      [wf] is the engine invariant (a chain invariant relating the played
      and claimed arrays to the current player).
    - [Spec.v], [Module Spec]: the engine of section 4.1 of the
      specification, written from the specification, with the abstraction
      [abs] of an engine state and the lemma that [handleSpinComplete]
      performs the specification's [resolveSpin].
    - [Results.v], [Module Results]: [addResultToList],
      [updateResultInList] (its [innerHTML] text search) and
      [showSummary]'s rows.
    - [Wheel.v], [Module Wheel]: the winner index of [handleSpinComplete]
      lines 531-542, in exact rationals measured in turns ([2π] is [1]),
      with JavaScript's [%] on numbers.
    - [Drawing.v], [Module Drawing]: [drawWheel]'s list of names, its
      slices (arcs, colours, edge shade, font size) and [adjustColor] with
      [parseInt(_, 16)], [toString(16)] and [substr(-2)] on ASCII strings.
    - [WheelCanvas.v], [Module WheelCanvas]: [drawWheel] lines 252-377
      as its sequence of canvas calls (the slice loop body, the hub) and
      the [resize] listener, lines 1067-1069.
    - [Controller.v], [Module Controller]: the page.  [ui] extends the
      engine state with [isSpinning], [rotation], the target rotation, the
      spin button, the start button, the three modals, the pending
      [setTimeout] callbacks and the results list.  Each handler is an
      [event]: an edit of the textarea, [resetDefaults], [startGame], a
      timer firing, a button of the selection modal, a click on the spin
      button (with its [Math.random] draws), the last animation frame with
      [handleSpinComplete], the winner modal's close button,
      [closeSummary] and the space key.  [enabled] says when the page
      delivers an event, [handle] runs it ([None] where the JavaScript
      would go on with [undefined]).  [dstep] is a step of a disciplined
      run: the roster is edited only before the game starts, and to
      distinct names, as the specification requires.  [inv] is the
      invariant of such runs, by phases of the page.
    - [Run.v], [Module Run]: runs of the page ([run], the disciplined
      [drun], [reachable] from the loaded page, the progress [measure],
      concrete games) and the properties of whole runs.
    - [Animation.v], [Module Animation]: [startSpin]'s animation
      parameters and the [animate] frames (easing, tick counting, the
      pointer's spring and clamps, the last frame).
    - [Audio.v], [Module Audio]: the [audioContext] and
      [isSoundEnabled] globals, [initAudio] (whether the constructor
      throws is a parameter), the tick of [playTickSound] and the note
      schedule of [playFanfare] with its delayed twinkle; a note is its
      frequency, waveform, start and stop times and volume.
    - [Confetti.v], [Module Confetti]: [launchConfetti]'s 150 pieces from
      their random draws, and [drawConfetti]: the [forEach] callback that
      draws, moves and splices a piece out of the array it walks, the
      frame, and the [requestAnimationFrame] loop with fuel.
    - [Chrome.v], [Module Chrome]: the controls panel and its buttons
      ([startGame], [toggleControls]), [toggleFullscreen],
      [editEventTitle] with the [prompt]'s answer, [updateLineNumbers]
      with the gutter's [innerHTML], the scroll listener of
      [setupLineNumberSync] and the counter text of [updateCountDisplay].
    - [Views.v], [Module Views]: what the modals show: the selection
      modal's titles and buttons ([populatePlayerSelection], with each
      button's [onclick]) and the texts [showWinnerModal] writes.
    - [Page.v], [Module Page]: the whole page.  [page] adds to the
      controller's [ui] the textarea's value, the chrome, the sound state
      with the notes scheduled so far and one confetti array per burst;
      [page_handle] runs a controller event with its calls to
      [updateLineNumbers], [initAudio], [launchConfetti] and
      [playFanfare], or one of the page's own events (the chrome's
      buttons, a scroll, a confetti frame); [pstep] is its step relation
      (Section variables: audio support, canvas size, confetti draws).
    - [Display.v], [Module Display]: the page with its wheel canvas.
      [wpage] adds the canvas context, the paints of the last
      [drawWheel] and the pending redraw timers; [wpage_handle] calls
      [drawWheel] where the code does (after roster updates, in the last
      animation frame before [handleSpinComplete], in [closeModal] when a
      next player is set, in [selectPlayer]'s 300 ms timeout, on resize).

    ** What the theorems show

    - Safety of the page (Run): every reachable page keeps [wf]; the
      selection modal offers exactly the unplayed participants; a running
      spin always resolves (the [undefined] paths are unreachable); the
      summary shows a derangement (every participant gives and receives
      exactly one gift, nobody their own); the page's counters agree.
    - Refinement: every disciplined event is a stutter or one step of the
      specification's engine ([Run.page_refines_spec]); the animation
      frames end exactly where [EvAnimationEnd] starts
      ([Animation.spin_animation_ends_at_target]); the results list shows
      the log as long as no swap happened.
    - Liveness and termination: every started game can be completed
      (by well-founded induction on [Controller.measure], five events per
      unplayed participant), and the number of spins equals the number of
      played participants, at most the roster.
    - What the players see is what is recorded: exactly one painted slice
      is under the pointer when the wheel stops, and it is the one the
      engine resolves ([Run.pointer_shows_winner]).
    - The engine's functional behaviour on normal and swap spins, what
      the parser makes of the textarea (clean names, none lost, joined
      names parsed back), the bounds of the animation, [adjustColor]'s
      channels.
    - The whole page (Page): every page run, with chrome, sound and
      confetti events interleaved, projects onto a disciplined controller
      run (the lemma [Page.pstep_ui]), so the theorems above hold of the
      full page; with Web Audio supported each assignment comes with
      exactly one fanfare and one confetti burst; the gutter and the
      roster always agree with the textarea; the controls panel's toggle
      is shown exactly once the game has started.
    - What is on the screen (WheelCanvas, Display): [drawWheel]'s canvas
      calls paint exactly the slices of [Drawing.draw_slices] and the
      hub and restore the transform and the [save] stack
      ([WheelCanvas.draw_wheel_paints], by composing [Canvas.block_ok]);
      on every page reached, whenever the spin button is enabled and no
      redraw timer is pending, the canvas shows the wheel of the current
      game at the current rotation ([Display.screen_shows_wheel]).
    - The effects on their own: the confetti loop ends (a measure in
      frames, bounded by [150 (floor H + 1) + 1] on a canvas of height
      [H]) and its pieces keep their sizes, speeds and palette colours
      (the type invariant of a piece); the fanfare's schedule; a failed
      [AudioContext] silences the page for good; the title stays trimmed
      and non-empty.  Lemmas beside them: [trim] removes a maximal run of
      white space at each end; each selection button selects the name it
      shows.
    - Findings, each proved for every run or input it concerns: a
      two-player game never swaps and ends in the exchange (the
      specification expects a swap); with a duplicated name the game never
      completes ([Engine.emove] runs); editing the roster while a winner
      is shown can open the summary with names that never played; after a
      swap the results list matches the log only when the victim's own row
      is the newest naming the victim; two neighbouring slices share a
      colour exactly when the number of names is 1 modulo 15; splicing
      inside [forEach] skips the confetti piece after a removed one for a
      frame; the fanfare's twinkle plays 1.5 s before the end the comment
      announces.

    ** Choices and what is not modelled

    Numbers are exact rationals: IEEE rounding, [Math.PI] and the
    floating-point [%] are not modelled (angles are measured in turns so
    that [2π] is exactly one).  [Math.random()] draws and frame times are
    parameters.  [setTimeout] delays are not timed: a pending callback may
    fire at any later event.  The intermediate animation frames only move
    the wheel and the pointer and are collapsed into [EvAnimationEnd], a
    step justified by [Animation.spin_animation_ends_at_target]; for
    the same reason [Page.v] does not record the tick sounds of those
    frames, nor the fanfare's twinkle timer (both are modelled in
    [Audio.v]).  The confetti loop runs with fuel: [Confetti.confetti_stops]
    shows that [150 (floor H + 1) + 1] frames are enough, since each
    frame moves or removes the first piece and a piece falls at least 2
    pixels per move.  The page's HTML is not part of the sources, so the
    initial chrome is a parameter, and the [onclick] wiring of the chrome
    buttons is assumed always available.  The canvas is modelled down to
    its paints (regions, styles, transforms, text with its font); the
    rasterisation of paints into pixels, the CSS transforms of the
    pointer and the modals, the Web Audio node graph and [console.log]
    are not modelled, because they only produce pixels, sound or console
    text the program never reads; the gutter's [scrollTop] is copied as
    written, without the browser's clamping.
    [confirm], [alert] and [prompt] dialogs are modelled by their outcome
    (a cancelled [resetDefaults] is no event). *)

From stdpp Require Import base list strings decidable sets relations.

Declare Scope js_scope.
Delimit Scope js_scope with js.

(** [arr.includes(x)] on an array of strings: JavaScript compares
    strings with [===], i.e. by value. *)
Definition includes (l : list string) (x : string) : bool := bool_decide (x ∈ l).

(** The idiom [if (!arr.includes(x)) arr.push(x);] used for
    [playedParticipants] and [claimedGifts]. *)
Definition push_new (l : list string) (x : string) : list string :=
  if includes l x then l else l ++ [x].

Notation "x ∈? l" := (includes l x) (at level 70, no associativity) : js_scope.

(** Two arrays with the same members (order and multiplicity aside). *)
Definition same_members (l k : list string) : Prop := ∀ x, x ∈ l ↔ x ∈ k.

Create HintDb gift discriminated.
Create Rewrite HintDb gift_rw.

(** [set_solver] support for [filter] on lists (the [Array.filter] of the
    code). *)
#[export] Instance set_unfold_list_filter {A} (P : A → Prop) `{∀ x, Decision (P x)}
    (l : list A) x Q :
  SetUnfoldElemOf x l Q → SetUnfoldElemOf x (filter P l) (P x ∧ Q).
Proof. intros [HQ]. constructor. rewrite list_elem_of_filter. naive_solver. Qed.

Lemma includes_true (l : list string) x : includes l x = true ↔ x ∈ l.
Proof. unfold includes. apply bool_decide_eq_true. Qed.

Lemma includes_false (l : list string) x : includes l x = false ↔ x ∉ l.
Proof. unfold includes. apply bool_decide_eq_false. Qed.

Lemma push_new_fresh (l : list string) x : x ∉ l → push_new l x = l ++ [x].
Proof. intros H. unfold push_new. by rewrite (proj2 (includes_false l x) H). Qed.

Lemma push_new_present (l : list string) x : x ∈ l → push_new l x = l.
Proof. intros H. unfold push_new. by rewrite (proj2 (includes_true l x) H). Qed.

Lemma elem_of_push_new (l : list string) x y : y ∈ push_new l x ↔ y = x ∨ y ∈ l.
Proof.
  unfold push_new, includes. case_bool_decide; set_solver.
Qed.

Lemma NoDup_push_new (l : list string) x : NoDup l → NoDup (push_new l x).
Proof.
  intros Hl. unfold push_new, includes. case_bool_decide; [done |].
  apply NoDup_app. repeat split; [done | set_solver | apply NoDup_singleton].
Qed.

#[export] Instance set_unfold_push_new (l : list string) x y Q :
  SetUnfoldElemOf y l Q → SetUnfoldElemOf y (push_new l x) (y = x ∨ Q).
Proof. intros [HQ]. constructor. rewrite elem_of_push_new. naive_solver. Qed.

(** Overwriting entry [i] of an array that held [g] with [c], and pushing
    [g], permutes the array with [c] pushed: the gift bookkeeping of a swap. *)
Lemma perm_insert_push {A} (l : list A) i (g c : A) :
  l !! i = Some g → <[i:=c]> l ++ [g] ≡ₚ l ++ [c].
Proof.
  intros Hi. destruct (list_elem_of_split_length l i g Hi) as (l1 & l2 & -> & ->).
  rewrite insert_app_r_alt by lia. rewrite Nat.sub_diag. simpl.
  rewrite <- !(assoc_L (++)). simpl.
  apply Permutation_app_head. solve_Permutation.
Qed.

(** Pigeonhole on duplicate-free arrays. *)
Lemma NoDup_subset_length (l k : list string) :
  NoDup l → (∀ x, x ∈ l → x ∈ k) → length l ≤ length k.
Proof. intros Hl Hsub. apply submseteq_length, NoDup_submseteq; auto. Qed.

Lemma NoDup_subset_strict (l k : list string) x :
  NoDup l → (∀ y, y ∈ l → y ∈ k) → x ∈ k → x ∉ l → length l < length k.
Proof.
  intros Hl Hsub Hx Hxl.
  change (length (x :: l) ≤ length k).
  apply NoDup_subset_length; [by constructor | set_solver].
Qed.

Lemma NoDup_subset_full (l k : list string) :
  NoDup l → (∀ x, x ∈ l → x ∈ k) → length k ≤ length l → same_members l k.
Proof.
  intros Hl Hsub Hlen x. split; [auto |].
  intros Hk. destruct (decide (x ∈ l)) as [|Hn]; [done |].
  pose proof (NoDup_subset_strict l k x Hl Hsub Hk Hn). lia.
Qed.

(** A duplicate-free array inside [k] and at least as long as [k] leaves
    no room for a duplicate in [k]. *)
Lemma NoDup_cover (l k : list string) :
  NoDup l → (∀ x, x ∈ l → x ∈ k) → length k ≤ length l → NoDup k.
Proof.
  intros Hl Hsub Hlen. apply NoDup_ListNoDup. apply NoDup_ListNoDup in Hl.
  eapply NoDup_incl_NoDup; [exact Hl | exact Hlen |].
  intros x. rewrite <- !list_elem_of_In. apply Hsub.
Qed.

Lemma same_members_perm (l k : list string) :
  NoDup l → NoDup k → same_members l k → l ≡ₚ k.
Proof. intros Hl Hk Hs. by apply NoDup_Permutation. Qed.

(** Removing the members of a duplicate-free sublist [P] from a
    duplicate-free [R] leaves [length R - length P] elements. *)
Lemma filter_not_in_length (R P : list string) :
  NoDup R → NoDup P → (∀ x, x ∈ P → x ∈ R) →
  length (filter (λ x, x ∉ P) R) + length P = length R.
Proof.
  intros HR HP Hsub.
  assert (filter (λ x, x ∈ P) R ≡ₚ P) as Hin.
  { apply same_members_perm; [by apply NoDup_filter | done |]. intros x.
    rewrite list_elem_of_filter. naive_solver. }
  pose proof (Permutation_length (filter_app_complement (λ x, x ∈ P) R)) as Hl.
  rewrite length_app, Hin in Hl. lia.
Qed.

Lemma NoDup_snoc (l : list string) x : NoDup l → x ∉ l → NoDup (l ++ [x]).
Proof. intros Hl Hx. apply NoDup_app. split_and!; [done | set_solver | apply NoDup_singleton]. Qed.

Lemma subset_snoc (l k : list string) x :
  (∀ y, y ∈ l → y ∈ k) → x ∈ k → ∀ y, y ∈ l ++ [x] → y ∈ k.
Proof. intros Hl Hx y. rewrite elem_of_app, list_elem_of_singleton. intros [Hy| ->]; auto. Qed.

(** Sums over an array updated in place ([arr[i] = v], [arr.splice(i, 1)]). *)
Lemma sum_list_with_insert {A} (f : A → nat) (l : list A) i a b :
  l !! i = Some a → sum_list_with f (<[i:=b]> l) + f a = sum_list_with f l + f b.
Proof.
  revert i. induction l as [|c l IH]; intros [|i] Hi; simplify_eq/=; [lia |].
  specialize (IH i Hi). lia.
Qed.

Lemma sum_list_with_delete {A} (f : A → nat) (l : list A) i a :
  l !! i = Some a → sum_list_with f (delete i l) + f a = sum_list_with f l.
Proof.
  revert i. induction l as [|c l IH]; intros [|i] Hi; simplify_eq/=; [lia |].
  specialize (IH i Hi). lia.
Qed.

Lemma sum_list_with_le_const {A} (f : A → nat) (l : list A) c :
  (∀ x, x ∈ l → f x ≤ c) → sum_list_with f l ≤ length l * c.
Proof.
  induction l as [|a l IH]; intros Hf; simpl; [lia |].
  pose proof (Hf a (list_elem_of_here a l)).
  assert (sum_list_with f l ≤ length l * c) by (apply IH; intros x Hx; apply Hf; by right). lia.
Qed.

(** A filter keeps every element exactly when every element passes. *)
Lemma length_filter_full {A} (P : A → Prop) `{∀ x, Decision (P x)} (l : list A) :
  length (filter P l) = length l ↔ Forall P l.
Proof.
  induction l as [|a l IH]; [split; [constructor | done] |].
  rewrite filter_cons, Forall_cons. pose proof (length_filter P l).
  case_decide; simpl.
  - split; [intros Hl; split; [done | apply IH; lia] | intros [_ Hl]; apply IH in Hl; lia].
  - split; [lia | by intros []].
Qed.

#[export] Hint Resolve NoDup_push_new NoDup_snoc subset_snoc : gift.
#[export] Hint Rewrite push_new_fresh push_new_present using (try done; set_solver) : gift_rw.

(** Case analysis on the [includes] tests of the code. *)
Ltac js_cases :=
  unfold push_new, includes in *; repeat case_bool_decide; simplify_eq/=.
