(* ===== verification/Canvas.v ===== *)
(** * The 2D canvas context as a command interpreter

    [drawWheel] and [drawConfetti] talk to a [CanvasRenderingContext2D]:
    they set its drawing state ([fillStyle], [lineWidth], [font], the
    shadow, the transform), build paths, and paint.  This file models the
    part of the context those functions use, after the HTML canvas
    specification (the browser's library, not code of this repository):

    - [gstate] is the drawing state that [save()] pushes and [restore()]
      pops ([restore()] on an empty stack does nothing); the current path
      is not part of it;
    - the transform is the list of [translate]/[rotate] calls in force,
      so no trigonometry is needed; path segments and text keep the
      transform they were made under;
    - a style is a colour, a radial gradient with its colour stops, or a
      value that is not a valid style ([undefined]), whose assignment the
      context ignores;
    - [exec] runs one call and returns the new context with what it
      painted; [exec_cmds] runs a sequence, threading the context the way
      a state monad's [foldl] does.

    Angles are in turns, as in [Wheel.v].  The theorems of the clients
    ([WheelCanvas.v], [Confetti.v]) are stated on the paints. *)

From Stdlib Require Import QArith.
From stdpp Require Import base list strings.
From S2P Require Import Prelude.

Module Canvas.

Inductive style :=
| SColor (c : string)
| SRadial (x0 y0 r0 x1 y1 r1 : Q) (stops : list (Q * string))
| SUndefined.

Inductive xform := XTranslate (x y : Q) | XRotate (angle : Q).

Inductive seg :=
| SegMove (t : list xform) (x y : Q)
| SegArc (t : list xform) (x y r a0 a1 : Q)
| SegClose.

Record gstate := mkG {
  fillStyle : style;
  strokeStyle : style;
  lineWidth : Q;
  font : string;
  textAlign : string;
  textBaseline : string;
  shadowColor : string;
  shadowBlur : Q;
  shadowOffsetX : Q;
  shadowOffsetY : Q;
  transform : list xform
}.

Record ctx := mkCtx {
  cur : gstate;
  stack : list gstate;
  path : list seg
}.

Inductive cmd :=
| ClearRect (x y w h : Q)
| BeginPath | MoveTo (x y : Q) | Arc (x y r a0 a1 : Q) | ClosePath
| SetFillStyle (s : style) | SetStrokeStyle (s : style) | SetLineWidth (q : Q)
| SetFont (f : string) | SetTextAlign (a : string) | SetTextBaseline (b : string)
| SetShadowColor (c : string) | SetShadowBlur (q : Q)
| SetShadowOffsetX (q : Q) | SetShadowOffsetY (q : Q)
| Fill | Stroke | Save | Restore
| Translate (x y : Q) | Rotate (angle : Q)
| FillText (text : string) (x y : Q)
| FillRect (x y w h : Q).

(** What reaches the pixels: the region, the style and the transform. *)
Inductive paint :=
| PClear (x y w h : Q)
| PFill (p : list seg) (s : style)
| PStroke (p : list seg) (s : style) (width : Q)
| PText (text : string) (x y : Q) (font align baseline : string) (s : style)
    (shadow : string * Q * Q * Q) (t : list xform)
| PRect (x y w h : Q) (s : style) (t : list xform).

Definition set_fill (g : gstate) (s : style) : gstate :=
  match s with
  | SUndefined => g
  | _ => mkG s (strokeStyle g) (lineWidth g) (font g) (textAlign g) (textBaseline g)
           (shadowColor g) (shadowBlur g) (shadowOffsetX g) (shadowOffsetY g) (transform g)
  end.

Definition set_stroke (g : gstate) (s : style) : gstate :=
  match s with
  | SUndefined => g
  | _ => mkG (fillStyle g) s (lineWidth g) (font g) (textAlign g) (textBaseline g)
           (shadowColor g) (shadowBlur g) (shadowOffsetX g) (shadowOffsetY g) (transform g)
  end.

(** The setters of the other fields of the drawing state. *)
Definition set_text (g : gstate) (lw : Q) (f a b sc : string) (sb sx sy : Q) (t : list xform) : gstate :=
  mkG (fillStyle g) (strokeStyle g) lw f a b sc sb sx sy t.

Definition upd (c : ctx) (g : gstate) : ctx := mkCtx g (stack c) (path c).

Definition exec (c : ctx) (k : cmd) : ctx * list paint :=
  let g := cur c in
  let same := set_text g (lineWidth g) (font g) (textAlign g) (textBaseline g) (shadowColor g)
                (shadowBlur g) (shadowOffsetX g) (shadowOffsetY g) in
  match k with
  | ClearRect x y w h => (c, [PClear x y w h])
  | BeginPath => (mkCtx g (stack c) [], [])
  | MoveTo x y => (mkCtx g (stack c) (path c ++ [SegMove (transform g) x y]), [])
  | Arc x y r a0 a1 => (mkCtx g (stack c) (path c ++ [SegArc (transform g) x y r a0 a1]), [])
  | ClosePath => (mkCtx g (stack c) (path c ++ [SegClose]), [])
  | SetFillStyle s => (upd c (set_fill g s), [])
  | SetStrokeStyle s => (upd c (set_stroke g s), [])
  | SetLineWidth q =>
      (upd c (set_text g q (font g) (textAlign g) (textBaseline g) (shadowColor g)
                (shadowBlur g) (shadowOffsetX g) (shadowOffsetY g) (transform g)), [])
  | SetFont f =>
      (upd c (set_text g (lineWidth g) f (textAlign g) (textBaseline g) (shadowColor g)
                (shadowBlur g) (shadowOffsetX g) (shadowOffsetY g) (transform g)), [])
  | SetTextAlign a =>
      (upd c (set_text g (lineWidth g) (font g) a (textBaseline g) (shadowColor g)
                (shadowBlur g) (shadowOffsetX g) (shadowOffsetY g) (transform g)), [])
  | SetTextBaseline b =>
      (upd c (set_text g (lineWidth g) (font g) (textAlign g) b (shadowColor g)
                (shadowBlur g) (shadowOffsetX g) (shadowOffsetY g) (transform g)), [])
  | SetShadowColor sc =>
      (upd c (set_text g (lineWidth g) (font g) (textAlign g) (textBaseline g) sc
                (shadowBlur g) (shadowOffsetX g) (shadowOffsetY g) (transform g)), [])
  | SetShadowBlur q =>
      (upd c (set_text g (lineWidth g) (font g) (textAlign g) (textBaseline g) (shadowColor g)
                q (shadowOffsetX g) (shadowOffsetY g) (transform g)), [])
  | SetShadowOffsetX q =>
      (upd c (set_text g (lineWidth g) (font g) (textAlign g) (textBaseline g) (shadowColor g)
                (shadowBlur g) q (shadowOffsetY g) (transform g)), [])
  | SetShadowOffsetY q =>
      (upd c (set_text g (lineWidth g) (font g) (textAlign g) (textBaseline g) (shadowColor g)
                (shadowBlur g) (shadowOffsetX g) q (transform g)), [])
  | Fill => (c, [PFill (path c) (fillStyle g)])
  | Stroke => (c, [PStroke (path c) (strokeStyle g) (lineWidth g)])
  | Save => (mkCtx g (g :: stack c) (path c), [])
  | Restore =>
      match stack c with
      | g' :: st => (mkCtx g' st (path c), [])
      | [] => (c, [])
      end
  | Translate x y => (upd c (same (transform g ++ [XTranslate x y])), [])
  | Rotate a => (upd c (same (transform g ++ [XRotate a])), [])
  | FillText text x y =>
      (c, [PText text x y (font g) (textAlign g) (textBaseline g) (fillStyle g)
             (shadowColor g, shadowBlur g, shadowOffsetX g, shadowOffsetY g) (transform g)])
  | FillRect x y w h => (c, [PRect x y w h (fillStyle g) (transform g)])
  end.

Fixpoint exec_cmds (c : ctx) (ks : list cmd) : ctx * list paint :=
  match ks with
  | [] => (c, [])
  | k :: ks' =>
      let '(c1, p1) := exec c k in
      let '(c2, p2) := exec_cmds c1 ks' in
      (c2, p1 ++ p2)
  end.

(** A fresh context, as the canvas specification gives it. *)
Definition initial_ctx : ctx :=
  mkCtx (mkG (SColor "#000000") (SColor "#000000") 1 "10px sans-serif" "start" "alphabetic"
           "rgba(0, 0, 0, 0)" 0 0 0 []) [] [].

(** A block of calls that paints [P] and restores the transform and the
    stack; the property of a block, as the loops of the clients need it. *)
Definition block_ok (ks : list cmd) (ps : list paint) : Prop :=
  ∀ c, transform (cur c) = [] →
    let '(c', out) := exec_cmds c ks in out = ps ∧ transform (cur c') = [] ∧ stack c' = stack c.

(** ** Lemmas *)

Lemma exec_cmds_app c ks ks' :
  exec_cmds c (ks ++ ks') =
    let '(c1, p1) := exec_cmds c ks in let '(c2, p2) := exec_cmds c1 ks' in (c2, p1 ++ p2).
Proof.
  revert c. induction ks as [|k ks IH]; intros c; simpl.
  - by destruct (exec_cmds c ks').
  - destruct (exec c k) as [c1 p1]. rewrite IH.
    destruct (exec_cmds c1 ks) as [c2 p2], (exec_cmds c2 ks') as [c3 p3]. by rewrite app_assoc.
Qed.

Lemma block_ok_app ks ps ks' ps' : block_ok ks ps → block_ok ks' ps' → block_ok (ks ++ ks') (ps ++ ps').
Proof.
  intros H H' c Hc. rewrite exec_cmds_app. specialize (H c Hc).
  destruct (exec_cmds c ks) as [c1 p1]. destruct H as (-> & Hc1 & Hs1).
  specialize (H' c1 Hc1). destruct (exec_cmds c1 ks') as [c2 p2]. destruct H' as (-> & ? & Hs2).
  split_and!; congruence.
Qed.

(** A loop whose every iteration is such a block is one. *)
Lemma block_ok_concat_imap {A} (F : nat → A → list cmd) (P : nat → A → list paint) l :
  (∀ i a, block_ok (F i a) (P i a)) → block_ok (concat (imap F l)) (concat (imap P l)).
Proof.
  revert F P. induction l as [|a l IH]; intros F P HF; [intros c Hc; done |].
  rewrite !imap_cons. cbn [concat]. apply block_ok_app; [apply HF | apply IH].
  intros i b. apply HF.
Qed.

End Canvas.
