(* ===== verification/Names.v ===== *)
(** * Roster input: [updateParticipants] and [loadParticipants]

    The textarea's value is split on ["\n"], each line is trimmed with
    [String.prototype.trim] and empty lines are dropped (lines 105-107);
    [loadParticipants] fills the textarea with the default names joined by
    ["\n"] (lines 93-97).  Strings are the UTF-8 bytes of the JavaScript
    string; [trim] removes the ECMAScript WhiteSpace and LineTerminator code
    points, matched by their UTF-8 encodings at either end.  The theorem
    shows that parsed names are non-empty, trimmed and newline-free, that
    no non-blank line is lost, and that joining such names and parsing
    them back is the identity; a lemma characterises [trim] (a maximal
    run of white space removed at each end). *)

From Stdlib Require Import Ascii.
From stdpp Require Import base list strings decidable sets.
From S2P Require Import Prelude.

Module Names.

Definition chars := list ascii.

Definition byte (n : nat) : ascii := ascii_of_nat n.

Definition newline : ascii := byte 10.

(** The code points removed by [trim]: TAB, LF, VT, FF, CR, SPACE, NBSP,
    OGHAM SPACE MARK, U+2000-U+200A, LINE and PARAGRAPH SEPARATOR, NARROW
    NBSP, MEDIUM MATHEMATICAL SPACE, IDEOGRAPHIC SPACE and ZWNBSP, in UTF-8. *)
Definition js_whitespace : list chars :=
  map (map byte)
    [[9]; [10]; [11]; [12]; [13]; [32]; [194; 160]; [225; 154; 128];
     [226; 128; 128]; [226; 128; 129]; [226; 128; 130]; [226; 128; 131];
     [226; 128; 132]; [226; 128; 133]; [226; 128; 134]; [226; 128; 135];
     [226; 128; 136]; [226; 128; 137]; [226; 128; 138]; [226; 128; 168];
     [226; 128; 169]; [226; 128; 175]; [226; 129; 159]; [227; 128; 128];
     [239; 187; 191]].

(** [s] with the prefix [p] removed, if [p] is a prefix. *)
Fixpoint strip_prefix (p s : chars) : option chars :=
  match p, s with
  | [], _ => Some s
  | a :: p', b :: s' => if decide (a = b) then strip_prefix p' s' else None
  | _ :: _, [] => None
  end.

(** Remove the first code point of [ws] that starts [s]. *)
Fixpoint strip_any (ws : list chars) (s : chars) : option chars :=
  match ws with
  | [] => None
  | w :: ws' => match strip_prefix w s with Some r => Some r | None => strip_any ws' s end
  end.

(** Remove leading code points of [ws] while there are any; [fuel] bounds
    the number of removals (the length of the string suffices). *)
Fixpoint drop_ws (ws : list chars) (fuel : nat) (s : chars) : chars :=
  match fuel with
  | 0 => s
  | S f => match strip_any ws s with Some r => drop_ws ws f r | None => s end
  end.

Definition trim_start (s : chars) : chars := drop_ws js_whitespace (length s) s.

Definition trim_end (s : chars) : chars :=
  reverse (drop_ws (reverse <$> js_whitespace) (length s) (reverse s)).

(** [String.prototype.trim]. *)
Definition js_trim (s : string) : string :=
  String.string_of_list_ascii (trim_end (trim_start (String.list_ascii_of_string s))).

(** [s.split(sep)] for a one-character separator: always at least one
    piece, empty pieces kept. *)
Fixpoint split_on (c : ascii) (s : chars) : list chars :=
  match s with
  | [] => [[]]
  | x :: s' =>
      if decide (x = c) then [] :: split_on c s'
      else match split_on c s' with
           | [] => [[x]]
           | y :: ys => (x :: y) :: ys
           end
  end.

Definition js_split (c : ascii) (s : string) : list string :=
  String.string_of_list_ascii <$> split_on c (String.list_ascii_of_string s).

(** [arr.join(sep)]. *)
Fixpoint join_with (c : ascii) (xs : list chars) : chars :=
  match xs with
  | [] => []
  | [x] => x
  | x :: xs' => x ++ c :: join_with c xs'
  end.

Definition js_join (c : ascii) (xs : list string) : string :=
  String.string_of_list_ascii (join_with c (String.list_ascii_of_string <$> xs)).

(** Lines 105-107:
    [nameInput.split('\n').map(name => name.trim()).filter(name => name.length > 0)]. *)
Definition parse_roster (input : string) : list string :=
  filter (λ name, 0 < String.length name) (js_trim <$> js_split newline input).

(** [defaultParticipants], lines 19-25. *)
Definition default_participants : list string :=
  ["1-คุณ A"; "2-คุณ B"; "3-คุณ C"; "4-คุณ D"; "5-คุณ E";
   "6-คุณ F"; "7-คุณ G"; "8-คุณ H"; "9-คุณ I"; "10-คุณ J";
   "11-คุณ K"; "12-คุณ L"; "13-คุณ M"; "14-คุณ N"; "15-คุณ O";
   "16-คุณ P"; "17-คุณ Q"; "18-คุณ R"; "19-คุณ S"; "20-คุณ T";
   "21-คุณ U"; "22-คุณ V"; "23-คุณ W"; "24-คุณ X"; "25-คุณ Y"; "26-คุณ Z"].

(** [loadParticipants], lines 93-97: the defaults joined by ["\n"] are
    parsed as the textarea's value. *)
Definition load_participants : list string :=
  parse_roster (js_join newline default_participants).

(** A name as the parser produces it: non-empty, trimmed, no newline. *)
Definition name_ok (x : string) : Prop :=
  0 < String.length x ∧ js_trim x = x ∧ newline ∉ String.list_ascii_of_string x.

(** ** Prefix stripping *)

Lemma strip_prefix_Some p s r : strip_prefix p s = Some r ↔ s = p ++ r.
Proof.
  revert s. induction p as [|a p IH]; intros [|b s]; simpl.
  - split; [intros [= ->] | intros ->]; done.
  - split; [intros [= ->] | intros ->]; done.
  - split; [done | intros Hc; discriminate Hc].
  - case_decide as Hab; [subst; rewrite IH; split; [intros -> | intros [= ->]]; done |].
    split; [done | intros [= -> _]; contradiction].
Qed.

Lemma strip_any_Some ws s r : strip_any ws s = Some r → ∃ w, w ∈ ws ∧ s = w ++ r.
Proof.
  induction ws as [|w ws IH]; simpl; [done |].
  destruct (strip_prefix w s) eqn:E.
  - intros [= <-]. apply strip_prefix_Some in E. exists w. split; [set_solver | done].
  - intros H. destruct (IH H) as (w' & ? & ?). exists w'. split; [set_solver | done].
Qed.

Lemma strip_any_None ws s w r : strip_any ws s = None → w ∈ ws → s ≠ w ++ r.
Proof.
  induction ws as [|w' ws IH]; simpl; [set_solver |].
  destruct (strip_prefix w' s) eqn:E; [done |]. intros Hn Hw ->.
  apply elem_of_cons in Hw as [<-|Hw].
  - assert (strip_prefix w (w ++ r) = Some r) by (by apply strip_prefix_Some). congruence.
  - by apply (IH Hn Hw).
Qed.

Lemma strip_any_None_intro ws s : (∀ w r, w ∈ ws → s ≠ w ++ r) → strip_any ws s = None.
Proof.
  destruct (strip_any ws s) as [r|] eqn:E; [| done].
  apply strip_any_Some in E as (w & Hw & ->). intros H. exfalso. by eapply H.
Qed.

(** A string with no whitespace code point at its start keeps that property
    on its prefixes. *)
Lemma strip_any_app_None ws t v : strip_any ws (t ++ v) = None → strip_any ws t = None.
Proof.
  intros H. apply strip_any_None_intro. intros w r Hw ->.
  apply (strip_any_None ws _ w (r ++ v) H Hw). by rewrite app_assoc.
Qed.

(** ** Dropping whitespace: what remains is a suffix, and the fuel suffices *)

Lemma drop_ws_suffix ws f s : ∃ u, s = u ++ drop_ws ws f s.
Proof.
  revert s. induction f as [|f IH]; intros s; simpl; [by exists [] |].
  destruct (strip_any ws s) as [r|] eqn:E; [| by exists []].
  apply strip_any_Some in E as (w & _ & ->). destruct (IH r) as [u Hu].
  exists (w ++ u). by rewrite <- app_assoc, <- Hu.
Qed.

Lemma drop_ws_id ws f s : strip_any ws s = None → drop_ws ws f s = s.
Proof. destruct f; simpl; [done |]. by intros ->. Qed.

(** With non-empty code points, [length s] removals leave no whitespace at
    the start: each removal shortens the string. *)
Lemma drop_ws_enough ws f s :
  (∀ w, w ∈ ws → w ≠ []) → length s ≤ f → strip_any ws (drop_ws ws f s) = None.
Proof.
  intros Hne. revert s. induction f as [|f IH]; intros s Hlen; simpl.
  - destruct s; [| simpl in Hlen; lia]. apply strip_any_None_intro.
    intros w r Hw Heq. symmetry in Heq. apply app_eq_nil in Heq as [-> _]. by apply (Hne [] Hw).
  - destruct (strip_any ws s) as [r|] eqn:E; [| done].
    apply IH. apply strip_any_Some in E as (w & Hw & ->). rewrite length_app in Hlen.
    destruct w; [by destruct (Hne [] Hw) | simpl in Hlen; lia].
Qed.

Lemma js_whitespace_nonempty w : w ∈ js_whitespace → w ≠ [].
Proof.
  assert (Forall (λ w : chars, w ≠ []) js_whitespace) as HF.
  { apply (bool_decide_eq_true_1 _). vm_compute. reflexivity. }
  rewrite Forall_forall in HF. apply HF.
Qed.

Lemma rev_whitespace_nonempty w : w ∈ reverse <$> js_whitespace → w ≠ [].
Proof.
  intros (w' & -> & Hw)%list_elem_of_fmap Hr. apply (js_whitespace_nonempty w' Hw).
  apply (f_equal reverse) in Hr. by rewrite reverse_involutive in Hr.
Qed.

(** ** Trimming *)

Lemma trim_start_clean s : strip_any js_whitespace (trim_start s) = None.
Proof. apply drop_ws_enough; [apply js_whitespace_nonempty | done]. Qed.

Lemma trim_end_prefix s : ∃ v, s = trim_end s ++ v.
Proof.
  unfold trim_end.
  destruct (drop_ws_suffix (reverse <$> js_whitespace) (length s) (reverse s)) as [u Hu].
  exists (reverse u). by rewrite <- reverse_app, <- Hu, reverse_involutive.
Qed.

Lemma trim_end_clean s : strip_any (reverse <$> js_whitespace) (reverse (trim_end s)) = None.
Proof.
  unfold trim_end. rewrite reverse_involutive.
  apply drop_ws_enough; [apply rev_whitespace_nonempty | by rewrite length_reverse].
Qed.

Lemma trim_chars_idem s : trim_end (trim_start (trim_end (trim_start s))) = trim_end (trim_start s).
Proof.
  assert (strip_any js_whitespace (trim_end (trim_start s)) = None) as H1.
  { destruct (trim_end_prefix (trim_start s)) as [v Hv].
    apply (strip_any_app_None _ _ v). rewrite <- Hv. apply trim_start_clean. }
  set (t := trim_end (trim_start s)) in *.
  unfold trim_start. rewrite (drop_ws_id _ _ _ H1).
  unfold trim_end at 1. rewrite (drop_ws_id _ _ _ (trim_end_clean (trim_start s))).
  apply reverse_involutive.
Qed.

(** The trimmed string is a substring of the input. *)
Lemma trim_infix s : ∃ a b, s = a ++ trim_end (trim_start s) ++ b.
Proof.
  destruct (drop_ws_suffix js_whitespace (length s) s) as [a Ha].
  destruct (trim_end_prefix (trim_start s)) as [b Hb].
  exists a, b. rewrite <- Hb. exact Ha.
Qed.

Lemma js_trim_idem s : js_trim (js_trim s) = js_trim s.
Proof. unfold js_trim. by rewrite String.list_ascii_of_string_of_list_ascii, trim_chars_idem. Qed.

(** ** Splitting and joining *)

Lemma split_on_no_sep c x : c ∉ x → split_on c x = [x].
Proof.
  induction x as [|y x IH]; simpl; [done |]. intros Hc.
  case_decide; [set_solver |]. rewrite IH by set_solver. done.
Qed.

Lemma split_on_app c x rest : c ∉ x → split_on c (x ++ c :: rest) = x :: split_on c rest.
Proof.
  induction x as [|y x IH]; simpl; intros Hc.
  - by rewrite decide_True.
  - case_decide; [set_solver |]. rewrite IH by set_solver. done.
Qed.

Lemma split_join c xs : xs ≠ [] → Forall (λ x, c ∉ x) xs → split_on c (join_with c xs) = xs.
Proof.
  induction xs as [|x xs IH]; [done |]. intros _ HF.
  inversion HF as [|?? Hx HF']; subst.
  destruct xs as [|y xs]; simpl; [by apply split_on_no_sep |].
  rewrite split_on_app by done. f_equal. by apply IH.
Qed.

Lemma split_on_sep_free c s : Forall (λ x, c ∉ x) (split_on c s).
Proof.
  induction s as [|y s IH]; simpl; [constructor; [set_solver | constructor] |].
  case_decide; [constructor; [set_solver | done] |].
  destruct (split_on c s) as [|z zs]; [constructor; [set_solver | constructor] |].
  inversion IH; subst. constructor; [set_solver | done].
Qed.

Lemma drop_ws_run ws f s :
  ∃ l, Forall (λ w, w ∈ ws) l ∧ s = concat l ++ drop_ws ws f s.
Proof.
  revert s. induction f as [|f IH]; intros s; simpl; [by exists [] |].
  destruct (strip_any ws s) as [r|] eqn:E; [| by exists []].
  apply strip_any_Some in E as (w & Hw & ->). destruct (IH r) as (l & Hl & Hr).
  exists (w :: l). split; [by constructor |]. simpl. by rewrite <- app_assoc, <- Hr.
Qed.

Lemma reverse_concat (l : list chars) : reverse (concat l) = concat (reverse (reverse <$> l)).
Proof.
  induction l as [|x l IH]; [done |].
  rewrite fmap_cons, reverse_cons, concat_app. simpl. by rewrite reverse_app, IH, app_nil_r.
Qed.

Lemma fmap_string_roundtrip (xs : list string) :
  String.string_of_list_ascii <$> (String.list_ascii_of_string <$> xs) = xs.
Proof.
  induction xs as [|x xs IH]; [done |].
  by rewrite !fmap_cons, String.string_of_list_ascii_of_string, IH.
Qed.

(** ** The parser *)

Lemma js_trim_sep_free c s :
  c ∉ String.list_ascii_of_string s → c ∉ String.list_ascii_of_string (js_trim s).
Proof.
  unfold js_trim. rewrite String.list_ascii_of_string_of_list_ascii. intros Hc Hin.
  destruct (trim_infix (String.list_ascii_of_string s)) as (a & b & Hs).
  apply Hc. rewrite Hs. set_solver.
Qed.

Lemma parse_roster_ok s : Forall name_ok (parse_roster s).
Proof.
  apply Forall_forall. intros x Hx. unfold parse_roster in Hx.
  apply list_elem_of_filter in Hx as [Hlen Hx].
  apply list_elem_of_fmap in Hx as (y & -> & Hy). unfold js_split in Hy.
  apply list_elem_of_fmap in Hy as (z & -> & Hz).
  split_and!; [done | |].
  - unfold js_trim. rewrite String.list_ascii_of_string_of_list_ascii. by rewrite trim_chars_idem.
  - apply js_trim_sep_free. rewrite String.list_ascii_of_string_of_list_ascii.
    pose proof (split_on_sep_free newline (String.list_ascii_of_string s)) as HF.
    rewrite Forall_forall in HF. by apply HF.
Qed.

Lemma ok_fmap_trim names :
  Forall name_ok names →
  js_trim <$> (String.string_of_list_ascii <$> (String.list_ascii_of_string <$> names)) = names.
Proof.
  induction 1 as [|x xs (_ & Hx & _) _ IH]; [done |].
  by rewrite !fmap_cons, String.string_of_list_ascii_of_string, Hx, IH.
Qed.

Lemma ok_filter names :
  Forall name_ok names → filter (λ name, 0 < String.length name) names = names.
Proof.
  induction 1 as [|x xs (Hx & _ & _) _ IH]; [done |].
  rewrite filter_cons_True by done. by rewrite IH.
Qed.

Lemma parse_join_id names : Forall name_ok names → parse_roster (js_join newline names) = names.
Proof.
  intros HF. unfold parse_roster, js_split, js_join.
  rewrite String.list_ascii_of_string_of_list_ascii.
  destruct names as [|n ns]; [reflexivity |].
  rewrite split_join; [| done |].
  - by rewrite ok_fmap_trim, ok_filter.
  - apply Forall_fmap. eapply Forall_impl; [exact HF |]. by intros x (_ & _ & Hx).
Qed.

(** ** Properties of the roster parser *)

(** [C26] What [updateParticipants] makes of the textarea: every name is
    non-empty, left unchanged by [trim] and free of newlines; every line
    that is not blank after [trim] gives its trimmed text; and names of
    that kind, joined with ["\n"] as [loadParticipants] and
    [resetDefaults] write them, parse back to themselves. *)
Theorem parse_roster_clean input :
  Forall name_ok (parse_roster input) ∧
  (∀ line, line ∈ js_split newline input → 0 < String.length (js_trim line) →
     js_trim line ∈ parse_roster input) ∧
  (∀ names, Forall name_ok names → parse_roster (js_join newline names) = names).
Proof.
  split_and!; [apply parse_roster_ok | | apply parse_join_id].
  intros line Hl Hlen. apply list_elem_of_filter. split; [done | by apply list_elem_of_fmap_2].
Qed.

(** [String.prototype.trim]: the result is the input with a run of
    whitespace code points removed at each end, and it neither starts nor
    ends with a whitespace code point (the removal is maximal). *)
Lemma js_trim_spec s :
  (∃ pre suf, Forall (λ w, w ∈ js_whitespace) pre ∧ Forall (λ w, w ∈ js_whitespace) suf ∧
     String.list_ascii_of_string s =
       concat pre ++ String.list_ascii_of_string (js_trim s) ++ concat suf) ∧
  (∀ w r, w ∈ js_whitespace →
     String.list_ascii_of_string (js_trim s) ≠ w ++ r ∧
     String.list_ascii_of_string (js_trim s) ≠ r ++ w).
Proof.
  unfold js_trim. rewrite String.list_ascii_of_string_of_list_ascii.
  set (S := String.list_ascii_of_string s). split.
  - destruct (drop_ws_run js_whitespace (length S) S) as (pre & Hpre & HS).
    destruct (drop_ws_run (reverse <$> js_whitespace) (length (trim_start S))
                (reverse (trim_start S))) as (l & Hl & HX).
    exists pre, (reverse (reverse <$> l)). split_and!; [done | |].
    + apply Forall_reverse, Forall_fmap. eapply Forall_impl; [exact Hl |].
      intros w (w' & -> & Hw')%list_elem_of_fmap. simpl. by rewrite reverse_involutive.
    + rewrite <- reverse_concat. unfold trim_end.
      rewrite <- reverse_app, <- HX, reverse_involutive. exact HS.
  - intros w r Hw. split; intros Heq.
    + assert (strip_any js_whitespace (trim_end (trim_start S)) = None) as H1.
      { destruct (trim_end_prefix (trim_start S)) as [v Hv].
        apply (strip_any_app_None _ _ v). rewrite <- Hv. apply trim_start_clean. }
      by apply (strip_any_None _ _ w r H1 Hw).
    + apply (strip_any_None _ _ (reverse w) (reverse r) (trim_end_clean (trim_start S))).
      * apply list_elem_of_fmap. by exists w.
      * by rewrite Heq, reverse_app.
Qed.

End Names.
