(* ===== verification/Engine.v ===== *)
(** * The exchange engine of [src/gift-game.js]

    The game state of lines 6-11 as a record, and the game logic of the
    handlers as functions over it: the candidates of the player-selection
    modal ([populatePlayerSelection]), [selectPlayer], the wheel of a spin
    in normal or swap mode ([startSpin], [handleSpinComplete]), and the
    resolution of a spin ([handleSpinComplete] with the next-player choice
    of [showWinnerModal]).  The spin result enters as the index the wheel
    geometry computed (see [Wheel.v]).  The invariant [wf] and the
    theorems about selection, resolution, the swap and completion follow
    the definitions; [emove] is a move of a running game (a selection
    from the modal or a resolved spin), over which a roster with a
    duplicated name is shown never to complete. *)

From stdpp Require Import base list strings decidable sets relations.
From S2P Require Import Prelude.

Module Engine.

(** An entry [{player: "A", gift: "B"}] of [giftAssignments] (line 11):
    [player] received the gift brought by [gift]. *)
Record assignment := mkAssignment { player : string; gift : string }.

(** The module-level variables of lines 6-11.  [currentPlayer] is [null]
    ([None]) or a name. *)
Record state := mkState {
  participants : list string;
  playedParticipants : list string;
  claimedGifts : list string;
  availableParticipants : list string;
  currentPlayer : option string;
  giftAssignments : list assignment
}.

(** What the winner modal shows: the spinner, whose gift they got, and the
    victim of a swap (the [specialMessage] of line 570). *)
Record outcome := mkOutcome {
  o_player : string;
  o_gift : string;
  o_swapped_with : option string
}.

(** Lines 6-11: every array empty, no current player. *)
Definition initial_state : state := mkState [] [] [] [] None [].

(** [participants.filter(p => !playedParticipants.includes(p))], lines 110
    and 613. *)
Definition available_of (roster played : list string) : list string :=
  filter (λ p, p ∉ played) roster.

(** The roster assignment of [updateParticipants] (lines 105-110): the new
    roster replaces [participants] and the available list is recomputed;
    the other arrays are left as they are. *)
Definition set_participants (st : state) (roster : list string) : state :=
  mkState roster (playedParticipants st) (claimedGifts st)
    (available_of roster (playedParticipants st)) (currentPlayer st) (giftAssignments st).

(** Lines 187-195: on the first selection every participant, afterwards
    those whose gift has not been claimed. *)
Definition selectable_participants (st : state) : list string :=
  match playedParticipants st with
  | [] => participants st
  | _ :: _ => filter (λ p, p ∉ claimedGifts st) (participants st)
  end.

(** [selectPlayer(name)], line 220: only [currentPlayer] changes. *)
Definition select_player (st : state) (name : string) : state :=
  mkState (participants st) (playedParticipants st) (claimedGifts st)
    (availableParticipants st) (Some name) (giftAssignments st).

(** [participants.filter(p => p !== currentPlayer && !claimedGifts.includes(p))],
    lines 399-401 and 518-520. *)
Definition normal_wheel (st : state) : list string :=
  filter (λ p, Some p ≠ currentPlayer st ∧ p ∉ claimedGifts st) (participants st).

(** [participants.filter(p => p !== currentPlayer)], lines 408 and 526. *)
Definition swap_wheel (st : state) : list string :=
  filter (λ p, Some p ≠ currentPlayer st) (participants st).

(** The names on the wheel and [isSwapMode], lines 518-528: swap mode when
    no unclaimed gift of another participant is left. *)
Definition spin_wheel (st : state) : list string * bool :=
  match normal_wheel st with
  | [] => (swap_wheel st, true)
  | names => (names, false)
  end.

(** The swap of lines 557-577.  [giftAssignments.find(a => a.player === victim)]
    returns the object stored in the array, so the assignment
    [victimAssignment.gift = playerWhoSpun] updates that entry in place:
    [list_find] yields its index.  Returns the new array, the gift owner
    for the spinner and the victim when one was found. *)
Definition swap_gifts (asg : list assignment) (playerWhoSpun victim : string)
    : list assignment * string * option string :=
  match list_find (λ a, player a = victim) asg with
  | Some (i, a) => (<[i := mkAssignment (player a) playerWhoSpun]> asg, gift a, Some victim)
  | None => (asg, victim, None)
  end.

(** The next [currentPlayer], lines 580-588 and 665-676: [null] when the
    winner's gift was already claimed or the winner already played (both
    forced [false] in swap mode), the gift owner otherwise. *)
Definition next_player (isSwapMode : bool) (claimed played : list string)
    (winner giftOwner : string) : option string :=
  let giftAlreadyClaimed := if isSwapMode then false else includes claimed winner in
  let winnerHasPlayed := if isSwapMode then false else includes played winner in
  if giftAlreadyClaimed || winnerHasPlayed then None else Some giftOwner.

(** [handleSpinComplete] (lines 509-622) once the winner index is known:
    the swap, the next player, the new assignment, the played and claimed
    arrays and the available list.  [None] when [currentPlayer] is [null]
    or the index reads past the wheel ([wheelNames[i]] is [undefined]);
    the controller never calls it so (see [Controller.v]). *)
Definition resolve_spin (st : state) (winnerIndex : nat) : option (state * outcome) :=
  let '(wheelNames, isSwapMode) := spin_wheel st in
  match currentPlayer st, wheelNames !! winnerIndex with
  | Some playerWhoSpun, Some winner =>
      let '(asg, giftOwner, victim) :=
        if isSwapMode then swap_gifts (giftAssignments st) playerWhoSpun winner
        else (giftAssignments st, winner, None) in
      let cur := next_player isSwapMode (claimedGifts st) (playedParticipants st)
                   winner giftOwner in
      let played := push_new (playedParticipants st) playerWhoSpun in
      let claimed := if isSwapMode then push_new (claimedGifts st) playerWhoSpun
                     else push_new (claimedGifts st) giftOwner in
      Some (mkState (participants st) played claimed
              (available_of (participants st) played) cur
              (asg ++ [mkAssignment playerWhoSpun giftOwner]),
            mkOutcome playerWhoSpun giftOwner victim)
  | _, _ => None
  end.

(** The completion test of [closeModal], line 695. *)
Definition game_complete (st : state) : bool :=
  length (participants st) <=? length (playedParticipants st).

(** [updateCountDisplay], lines 122-126: the roster size, the number of
    players who spun and the number still to spin. *)
Definition count_display (st : state) : nat * nat * nat :=
  (length (participants st), length (playedParticipants st), length (availableParticipants st)).

(** ** The invariant *)

(** While a chain runs, [c] spins.  Either [c] was just chosen by hand and
    every player's gift is claimed ([played] and [claimed] have the same
    members), or [c] is a gift owner reached through the chain, [s] started
    that chain and is the only player whose gift is unclaimed, and [c] is
    the only claimed participant that has not played. *)
Definition active_chain (R P C : list string) (c : string) : Prop :=
  c ∈ R ∧ (c ∉ P) ∧
  (((c ∉ C) ∧ same_members P C) ∨
   (c ∈ C ∧ ∃ s, s ∈ P ∧ (s ∉ C) ∧ (∀ x, x ∈ P → x ∈ C ∨ x = s) ∧
                 (∀ x, x ∈ C → x ∈ P ∨ x = c))).

(** With no current player, played and claimed agree; with one, either a
    chain runs or the game ended by a swap (everyone played, every gift
    claimed). *)
Definition chain_ok (R P C : list string) (cur : option string) : Prop :=
  match cur with
  | None => same_members P C
  | Some c => active_chain R P C c ∨ (same_members P R ∧ same_members C R)
  end.

Record wf (st : state) : Prop := {
  wf_roster_nodup : NoDup (participants st);
  wf_played_nodup : NoDup (playedParticipants st);
  wf_claimed_nodup : NoDup (claimedGifts st);
  wf_played_sub : ∀ x, x ∈ playedParticipants st → x ∈ participants st;
  wf_claimed_sub : ∀ x, x ∈ claimedGifts st → x ∈ participants st;
  wf_players : player <$> giftAssignments st = playedParticipants st;
  wf_gifts : gift <$> giftAssignments st ≡ₚ claimedGifts st;
  wf_no_self : Forall (λ a, player a ≠ gift a) (giftAssignments st);
  wf_available : availableParticipants st = available_of (participants st) (playedParticipants st);
  wf_chain : chain_ok (participants st) (playedParticipants st) (claimedGifts st) (currentPlayer st)
}.

(** A boolean check of [wf], for concrete states. *)
Definition subset_b (l k : list string) : bool := forallb (λ x, bool_decide (x ∈ k)) l.

Definition same_members_b (l k : list string) : bool := subset_b l k && subset_b k l.

Definition active_chain_b (R P C : list string) (c : string) : bool :=
  bool_decide (c ∈ R) && bool_decide (c ∉ P) &&
  ((bool_decide (c ∉ C) && same_members_b P C) ||
   (bool_decide (c ∈ C) &&
    existsb (λ s, bool_decide (s ∉ C) && subset_b P (s :: C) && subset_b C (c :: P)) P)).

Definition chain_ok_b (R P C : list string) (cur : option string) : bool :=
  match cur with
  | None => same_members_b P C
  | Some c => active_chain_b R P C c || (same_members_b P R && same_members_b C R)
  end.

Definition wf_b (st : state) : bool :=
  bool_decide (NoDup (participants st)) && bool_decide (NoDup (playedParticipants st)) &&
  bool_decide (NoDup (claimedGifts st)) &&
  subset_b (playedParticipants st) (participants st) &&
  subset_b (claimedGifts st) (participants st) &&
  bool_decide (player <$> giftAssignments st = playedParticipants st) &&
  bool_decide (gift <$> giftAssignments st ≡ₚ claimedGifts st) &&
  bool_decide (Forall (λ a, player a ≠ gift a) (giftAssignments st)) &&
  bool_decide (availableParticipants st = available_of (participants st) (playedParticipants st)) &&
  chain_ok_b (participants st) (playedParticipants st) (claimedGifts st) (currentPlayer st).

(** ** Concrete runs

    [run_spin] applies a resolved spin, keeping the state when the
    resolution is undefined; the fixtures are scenarios of the
    specification's section 8 and the duplicate-name roster of its
    section 9. *)
Definition run_spin (st : state) (i : nat) : state :=
  match resolve_spin st i with Some (st', _) => st' | None => st end.

Definition demo_start : state :=
  select_player (set_participants initial_state ["A"; "B"; "C"]) "A".

(** A draws B, B draws A, which closes the chain. *)
Definition demo_closed : state := run_spin (run_spin demo_start 0) 0.

(** C is then picked by hand and spins in swap mode. *)
Definition demo_swap_start : state := select_player demo_closed "C".

Definition demo_duplicates : state :=
  run_spin (run_spin (select_player (set_participants initial_state ["A"; "A"; "B"]) "A") 0) 0.

(** ** Runs of the engine

    Once the game runs, the page changes the engine in two ways: a name
    is chosen from the buttons of the selection modal ([selectPlayer],
    the buttons being [populatePlayerSelection]'s list), or a spin is
    resolved ([handleSpinComplete]). *)
Inductive emove : state → state → Prop :=
| emove_select st name : name ∈ selectable_participants st → emove st (select_player st name)
| emove_spin st i st' o : resolve_spin st i = Some (st', o) → emove st st'.

(** Played, current and received names are names of the roster, and
    nobody is recorded twice as played. *)
Definition roster_closed (st : state) : Prop :=
  NoDup (playedParticipants st) ∧ (∀ x, x ∈ playedParticipants st → x ∈ participants st) ∧
  (∀ c, currentPlayer st = Some c → c ∈ participants st) ∧
  (∀ a, a ∈ giftAssignments st → gift a ∈ participants st).

(** ** Membership in the candidate lists *)

Lemma elem_of_normal_wheel st x :
  x ∈ normal_wheel st ↔ x ∈ participants st ∧ Some x ≠ currentPlayer st ∧ x ∉ claimedGifts st.
Proof. unfold normal_wheel. set_solver. Qed.

Lemma elem_of_swap_wheel st x :
  x ∈ swap_wheel st ↔ x ∈ participants st ∧ Some x ≠ currentPlayer st.
Proof. unfold swap_wheel. set_solver. Qed.

Lemma spin_wheel_cases st :
  (normal_wheel st ≠ [] ∧ spin_wheel st = (normal_wheel st, false)) ∨
  (normal_wheel st = [] ∧ spin_wheel st = (swap_wheel st, true)).
Proof. unfold spin_wheel. destruct (normal_wheel st); [by right | by left]. Qed.

Lemma normal_wheel_nil st x :
  normal_wheel st = [] → x ∈ participants st → Some x ≠ currentPlayer st → x ∈ claimedGifts st.
Proof.
  intros Hnil HR Hc. destruct (decide (x ∈ claimedGifts st)) as [|HC]; [done |].
  assert (x ∈ normal_wheel st) as Hx by (apply elem_of_normal_wheel; auto).
  rewrite Hnil in Hx. set_solver.
Qed.

(** ** The swap on the assignment array *)

Lemma swap_gifts_found (asg : list assignment) pws v :
  v ∈ player <$> asg →
  ∃ i a, asg !! i = Some a ∧ player a = v ∧
         swap_gifts asg pws v = (<[i := mkAssignment v pws]> asg, gift a, Some v).
Proof.
  intros Hv. unfold swap_gifts.
  destruct (list_find (λ a, player a = v) asg) as [[i a]|] eqn:Hf.
  - apply list_find_Some in Hf as (Hi & Ha & _). exists i, a. by subst.
  - apply list_find_None in Hf. apply list_elem_of_fmap in Hv as (a & -> & Ha).
    rewrite Forall_forall in Hf. exfalso. by eapply Hf.
Qed.

Lemma swap_players (asg : list assignment) i a pws :
  asg !! i = Some a →
  player <$> <[i := mkAssignment (player a) pws]> asg = player <$> asg.
Proof.
  intros Hi. rewrite list_fmap_insert. simpl.
  apply list_insert_id. by rewrite list_lookup_fmap, Hi.
Qed.

Lemma swap_gifts_perm (asg : list assignment) i a pws :
  asg !! i = Some a →
  gift <$> (<[i := mkAssignment (player a) pws]> asg ++ [mkAssignment pws (gift a)])
    ≡ₚ (gift <$> asg) ++ [pws].
Proof.
  intros Hi. rewrite fmap_app, list_fmap_insert. simpl.
  apply perm_insert_push. by rewrite list_lookup_fmap, Hi.
Qed.

(** ** The chain invariant across one spin *)

(** A running chain excludes the terminal case: someone has not played. *)
Lemma wf_active st c :
  wf st → currentPlayer st = Some c →
  length (playedParticipants st) < length (participants st) →
  active_chain (participants st) (playedParticipants st) (claimedGifts st) c.
Proof.
  intros Hwf Hc Hlt. pose proof (wf_chain _ Hwf) as Hch. rewrite Hc in Hch.
  destruct Hch as [|[HP _]]; [done |]. exfalso.
  assert (length (participants st) ≤ length (playedParticipants st)); [|lia].
  apply NoDup_subset_length; [apply Hwf | intros x; apply HP].
Qed.

(** In a normal spin, [c] receives [w]'s gift: the chain either continues
    with [w] or closes when [w] started it. *)
Lemma chain_after_normal R P C c w :
  active_chain R P C c → w ∈ R → w ≠ c → w ∉ C →
  chain_ok R (P ++ [c]) (C ++ [w]) (next_player false C P w w).
Proof.
  intros (HcR & HcP & [[HcC Hs] | (HcC & s & HsP & HsC & HP & HC)]) HwR Hwc HwC;
    unfold next_player, same_members in *; js_cases.
  - exfalso. apply HwC, Hs. done.
  - left. split_and!; [done | set_solver |]. right. split; [set_solver |].
    exists c. split_and!; [set_solver | set_solver | |]; intros x; rewrite !elem_of_app, !list_elem_of_singleton;
      [specialize (Hs x) | ]; naive_solver.
  - intros x. rewrite !elem_of_app, !list_elem_of_singleton.
    destruct (HP w) as [| ->]; [done | done |]. specialize (HP x). specialize (HC x). naive_solver.
  - left. split_and!; [done | set_solver |]. right. split; [set_solver |].
    exists s. split_and!; [set_solver | set_solver | |]; intros x; rewrite !elem_of_app, !list_elem_of_singleton;
      [specialize (HP x) | specialize (HC x)]; naive_solver.
Qed.

(** Swap mode only happens to a hand-picked spinner once every other gift
    is claimed; then played and claimed agree. *)
Lemma active_chain_swap R P C c :
  (∀ x, x ∈ P → x ∈ R) → active_chain R P C c → (∀ x, x ∈ R → x ≠ c → x ∈ C) →
  (c ∉ C) ∧ same_members P C.
Proof.
  intros HPR (HcR & HcP & [[HcC Hs] | (HcC & s & HsP & HsC & HP & HC)]) Hall; [done |].
  exfalso. apply HsC, Hall; [auto | set_solver].
Qed.


(** What the invariant says when a spin runs in swap mode: the spinner's
    gift is unclaimed, played and claimed agree, every other participant's
    gift is claimed, and the chosen victim already holds an assignment. *)
Lemma swap_mode_facts st c w i :
  wf st → currentPlayer st = Some c →
  length (playedParticipants st) < length (participants st) →
  normal_wheel st = [] → swap_wheel st !! i = Some w →
  (c ∉ claimedGifts st) ∧ same_members (playedParticipants st) (claimedGifts st) ∧
  (∀ x, x ∈ participants st → x ≠ c → x ∈ claimedGifts st) ∧
  w ≠ c ∧ w ∈ player <$> giftAssignments st.
Proof.
  intros Hwf Hc Hlt Hnil Hw.
  pose proof (wf_active st c Hwf Hc Hlt) as Hact.
  assert (∀ x, x ∈ participants st → x ≠ c → x ∈ claimedGifts st) as Hall.
  { intros x Hx Hxc. apply (normal_wheel_nil st); [done | done | rewrite Hc; congruence]. }
  destruct (active_chain_swap _ _ _ c (wf_played_sub _ Hwf) Hact Hall) as [HcC HPC].
  apply list_elem_of_lookup_2, elem_of_swap_wheel in Hw as [HwR Hwc]. rewrite Hc in Hwc.
  split_and!; [done | done | done | congruence |].
  rewrite (wf_players _ Hwf). apply HPC, Hall; [done | congruence].
Qed.

(** ** Checking the invariant on concrete states *)

Lemma subset_b_spec l k : subset_b l k = true → ∀ x, x ∈ l → x ∈ k.
Proof.
  unfold subset_b. rewrite forallb_forall. intros H x Hx.
  specialize (H x (proj1 (list_elem_of_In _ _) Hx)). by apply bool_decide_eq_true in H.
Qed.

Lemma same_members_b_spec l k : same_members_b l k = true → same_members l k.
Proof.
  unfold same_members_b. rewrite andb_true_iff. intros [H1 H2] x.
  split; [apply (subset_b_spec _ _ H1) | apply (subset_b_spec _ _ H2)].
Qed.

Lemma chain_ok_b_spec R P C cur : chain_ok_b R P C cur = true → chain_ok R P C cur.
Proof.
  destruct cur as [c|]; simpl; [| apply same_members_b_spec].
  unfold active_chain_b. repeat rewrite ?orb_true_iff, ?andb_true_iff, ?bool_decide_eq_true.
  intros [[[HcR HcP] [[HcC HPC] | [HcC Hex]]] | [HPR HCR]].
  - left. split_and!; [done | done |]. left. by split; [| apply same_members_b_spec].
  - left. split_and!; [done | done |]. right. split; [done |].
    apply existsb_exists in Hex as (s & Hs%list_elem_of_In & Hb).
    rewrite !andb_true_iff, bool_decide_eq_true in Hb. destruct Hb as [[HsC HP] HC].
    exists s. split_and!; [done | done | |]; intros x Hx.
    + pose proof (subset_b_spec _ _ HP x Hx). set_solver.
    + pose proof (subset_b_spec _ _ HC x Hx). set_solver.
  - right. split; by apply same_members_b_spec.
Qed.

Lemma wf_b_sound st : wf_b st = true → wf st.
Proof.
  unfold wf_b. rewrite !andb_true_iff, !bool_decide_eq_true.
  intros (((((((((HR & HP) & HC) & HPR) & HCR) & Hpl) & Hgi) & Hns) & Hav) & Hch).
  constructor; eauto using subset_b_spec, chain_ok_b_spec.
Qed.

(** ** Spin resolution preserves the invariant *)

(** Resolving a spin while someone has yet to play keeps the game
    well formed: the played and claimed arrays stay duplicate-free subsets
    of the roster, the assignment log lists the players in order and its
    gifts are exactly the claimed ones, nobody holds their own gift, and
    the chain invariant holds for the next current player, in normal mode
    and in swap mode alike. *)
Lemma resolve_spin_wf st i st' o :
  wf st → length (playedParticipants st) < length (participants st) →
  resolve_spin st i = Some (st', o) → wf st'.
Proof.
  intros Hwf Hlt Hres. unfold resolve_spin in Hres.
  destruct (currentPlayer st) as [c|] eqn:Hc; [| by destruct (spin_wheel st)].
  pose proof (wf_active st c Hwf Hc Hlt) as Hact. pose proof Hact as (HcR & HcP & _).
  destruct Hwf as [HR HP HC HPR HCR Hpl Hgi Hns Hav Hch].
  destruct (spin_wheel_cases st) as [[_ Hsw]|[Hnil Hsw]]; rewrite Hsw in Hres; cbv beta iota in Hres;
    destruct (_ !! i) as [w|] eqn:Hw; try discriminate.
  - injection Hres as <- <-.
    apply list_elem_of_lookup_2, elem_of_normal_wheel in Hw as (HwR & Hwc & HwC).
    rewrite Hc in Hwc. assert (w ≠ c) by congruence.
    rewrite (push_new_fresh _ c HcP), (push_new_fresh _ w HwC).
    constructor; simpl; eauto with gift.
    + by rewrite fmap_app, Hpl.
    + rewrite fmap_app. by apply Permutation_app_tail.
    + apply Forall_app; split; [done |]. constructor; [simpl; congruence | done].
    + by apply chain_after_normal.
  - destruct (swap_mode_facts st c w i) as (HcC & HPC & Hall & Hwc & Hwp);
      [by constructor | done | done | done | done |].
    destruct (swap_gifts_found _ c w Hwp) as (j & a & Hj & Ha & Hsg). rewrite Hsg in Hres.
    injection Hres as <- <-. simpl.
    assert (gift a ∈ claimedGifts st) as HaC.
    { rewrite <- Hgi. apply list_elem_of_fmap_2. by eapply list_elem_of_lookup_2. }
    rewrite (push_new_fresh _ c HcP), (push_new_fresh _ c HcC).
    constructor; simpl; eauto with gift.
    + by rewrite fmap_app, <- Ha, swap_players, Hpl.
    + rewrite <- Ha, swap_gifts_perm by done. by apply Permutation_app_tail.
    + apply Forall_app; split.
      * apply Forall_insert; [done | simpl; congruence].
      * constructor; [simpl; intros ->; contradiction | done].
    + right. split; intros x; rewrite elem_of_app, list_elem_of_singleton;
        specialize (HPR x); specialize (HCR x); specialize (HPC x);
        destruct (decide (x = c)) as [->|Hxc]; [tauto | | tauto |];
        specialize (Hall x); tauto.
Qed.

Lemma swap_gifts_length (asg : list assignment) p v asg' g vic :
  swap_gifts asg p v = (asg', g, vic) → length asg' = length asg.
Proof.
  unfold swap_gifts. destruct (list_find _ asg) as [[j a]|]; intros [= <- _ _]; [|done].
  apply length_insert.
Qed.

(** In swap mode the roster holds at most one participant who has not
    played: the spinner. *)
Lemma swap_mode_roster_bound st c w i :
  wf st → currentPlayer st = Some c →
  length (playedParticipants st) < length (participants st) →
  normal_wheel st = [] → swap_wheel st !! i = Some w →
  length (participants st) ≤ S (length (playedParticipants st)).
Proof.
  intros Hwf Hc Hlt Hnil Hw.
  destruct (swap_mode_facts st c w i) as (_ & HPC & Hall & _); try done.
  change (S (length (playedParticipants st))) with (length (c :: playedParticipants st)).
  apply NoDup_subset_length; [apply Hwf |]. intros x Hx.
  destruct (decide (x = c)) as [->|Hxc]; [set_solver |].
  apply elem_of_cons. right. apply HPC, Hall; done.
Qed.

(** Before the first spin the roster may be replaced by any roster of
    distinct names. *)
Lemma set_participants_setup_wf st roster :
  wf st → playedParticipants st = [] → currentPlayer st = None → NoDup roster →
  wf (set_participants st roster).
Proof.
  intros Hwf HP Hc HR. pose proof (wf_chain _ Hwf) as Hch. rewrite Hc, HP in Hch.
  assert (claimedGifts st = []) as HC.
  { destruct (claimedGifts st) as [|x C]; [done |]. exfalso. specialize (Hch x). set_solver. }
  assert (giftAssignments st = []) as HA.
  { pose proof (wf_players _ Hwf) as Hp. rewrite HP in Hp. by apply fmap_nil_inv in Hp. }
  constructor; unfold set_participants; simpl; rewrite ?HP, ?HC, ?HA, ?Hc; try done.
  - apply NoDup_nil_2.
  - apply NoDup_nil_2.
  - set_solver.
  - set_solver.
Qed.

(** ** Completion *)

(** When every participant has played (the completion test of
    [closeModal]), the assignment log is a derangement of the roster: its
    players are a permutation of the participants, so is the list of gifts,
    and no entry gives a participant their own gift. *)
Lemma complete_assignment st :
  wf st → game_complete st = true →
  player <$> giftAssignments st ≡ₚ participants st ∧
  gift <$> giftAssignments st ≡ₚ participants st ∧
  Forall (λ a, player a ≠ gift a) (giftAssignments st).
Proof.
  intros Hwf Hc. apply Nat.leb_le in Hc.
  assert (same_members (playedParticipants st) (participants st)) as HPR.
  { apply NoDup_subset_full; [apply Hwf | apply Hwf | done]. }
  assert (same_members (claimedGifts st) (participants st)) as HCR.
  { pose proof (wf_chain _ Hwf) as Hch. destruct (currentPlayer st) as [c|].
    - destruct Hch as [(HcR & HcP & _) | [_ HCR]]; [| done].
      exfalso. apply HcP, HPR, HcR.
    - intros x. specialize (Hch x). specialize (HPR x). tauto. }
  split_and!.
  - rewrite (wf_players _ Hwf). apply same_members_perm; [apply Hwf | apply Hwf | done].
  - rewrite (wf_gifts _ Hwf). apply same_members_perm; [apply Hwf | apply Hwf | done].
  - apply Hwf.
Qed.

(** ** Player selection *)

(** Choosing a candidate offered by the selection modal while no one
    is current keeps the game well formed: the chosen player has neither
    played nor had their gift claimed. *)
Lemma select_player_wf st name :
  wf st → currentPlayer st = None → name ∈ selectable_participants st →
  wf (select_player st name).
Proof.
  intros Hwf Hc Hname. pose proof (wf_chain _ Hwf) as Hch. rewrite Hc in Hch.
  destruct Hwf. constructor; simpl; try done.
  left. unfold selectable_participants in Hname.
  destruct (playedParticipants st) as [|p P] eqn:HP.
  - split_and!; [done | set_solver |]. left. split; [| done].
    intros HC. apply Hch in HC. set_solver.
  - apply list_elem_of_filter in Hname as [HnC HnR].
    split_and!; [done | |]; [intros HnP; by apply HnC, Hch | by left].
Qed.

(** Before completion the selection modal is never empty, and it
    offers exactly the participants who have not played yet (the code
    filters on claimed gifts; the invariant makes the two agree). *)
Lemma selectable_participants_spec st :
  wf st → currentPlayer st = None →
  length (playedParticipants st) < length (participants st) →
  selectable_participants st ≠ [] ∧
  ∀ x, x ∈ selectable_participants st ↔ x ∈ participants st ∧ x ∉ playedParticipants st.
Proof.
  intros Hwf Hc Hlt. pose proof (wf_chain _ Hwf) as Hch. rewrite Hc in Hch.
  assert (∀ x, x ∈ selectable_participants st ↔ x ∈ participants st ∧ x ∉ playedParticipants st)
    as Hmem.
  { intros x. unfold selectable_participants.
    destruct (playedParticipants st) eqn:HP; [set_solver |].
    rewrite list_elem_of_filter. specialize (Hch x). naive_solver. }
  split; [| done]. intros Hnil.
  assert (length (participants st) ≤ length (playedParticipants st)); [| lia].
  apply NoDup_subset_length; [apply Hwf |]. intros x Hx.
  destruct (decide (x ∈ playedParticipants st)) as [|HxP]; [done |].
  assert (x ∈ selectable_participants st) as Hs by (apply Hmem; auto).
  rewrite Hnil in Hs. set_solver.
Qed.

(** ** Spins *)

(** The engine never deadlocks: with at least two distinct
    participants the wheel of a spin is never empty (the error branch of
    [startSpin], lines 411-416, is unreachable). *)
Lemma spin_wheel_nonempty st :
  NoDup (participants st) → 2 ≤ length (participants st) → (spin_wheel st).1 ≠ [].
Proof.
  intros HR H2. destruct (spin_wheel_cases st) as [[Hne ->]|[_ ->]]; [done |]. simpl.
  destruct (participants st) as [|x [|y R]] eqn:E; simpl in H2; try lia.
  assert (x ≠ y) by (apply NoDup_cons in HR; set_solver).
  assert (Some x ≠ currentPlayer st ∨ Some y ≠ currentPlayer st) as Hxy.
  { destruct (currentPlayer st); [| by left]. destruct (decide (x = s)); subst; [right | left]; congruence. }
  intros Hnil. destruct Hxy as [Hx|Hy].
  - assert (x ∈ swap_wheel st) as Hin by (apply elem_of_swap_wheel; rewrite E; set_solver).
    rewrite Hnil in Hin. set_solver.
  - assert (y ∈ swap_wheel st) as Hin by (apply elem_of_swap_wheel; rewrite E; set_solver).
    rewrite Hnil in Hin. set_solver.
Qed.

(** A spin resolves exactly when someone is current and the index
    falls on the wheel; otherwise the read of [wheelNames[winnerIndex]]
    is out of range (the spec's [IndexOutOfRange]). *)
Lemma resolve_spin_none st i :
  resolve_spin st i = None ↔ currentPlayer st = None ∨ length (spin_wheel st).1 ≤ i.
Proof.
  unfold resolve_spin. destruct (spin_wheel st) as [names swap]. simpl.
  destruct (currentPlayer st); [| naive_solver].
  destruct (names !! i) eqn:E.
  - split; [destruct swap; [destruct (swap_gifts _ _ _) as [[??]?] |]; discriminate |].
    intros [|Hle]; [discriminate |]. apply lookup_ge_None in Hle. congruence.
  - apply lookup_ge_None in E. split; auto.
Qed.

(** Every resolved spin before completion adds exactly one player and
    one assignment and leaves the roster alone: the number of spins of a
    game is bounded by the size of the roster. *)
Lemma resolve_spin_progress st i st' o :
  wf st → length (playedParticipants st) < length (participants st) →
  resolve_spin st i = Some (st', o) →
  participants st' = participants st ∧
  length (playedParticipants st') = S (length (playedParticipants st)) ∧
  length (giftAssignments st') = S (length (giftAssignments st)).
Proof.
  intros Hwf Hlt Hres. unfold resolve_spin in Hres.
  destruct (currentPlayer st) as [c|] eqn:Hc; [| by destruct (spin_wheel st)].
  pose proof (wf_active st c Hwf Hc Hlt) as (_ & HcP & _).
  destruct (spin_wheel st) as [names []]; destruct (names !! i); try discriminate.
  - destruct (swap_gifts _ _ _) as [[asg g] v] eqn:Hsg. injection Hres as <- <-. simpl.
    rewrite push_new_fresh, !length_app, (swap_gifts_length _ _ _ _ _ _ Hsg) by done.
    simpl. split_and!; [done | lia | lia].
  - injection Hres as <- <-. simpl. rewrite push_new_fresh, !length_app by done.
    simpl. split_and!; [done | lia | lia].
Qed.

(** Every resolved spin appends one assignment. *)
Lemma resolve_spin_log st i st' o :
  resolve_spin st i = Some (st', o) → length (giftAssignments st') = S (length (giftAssignments st)).
Proof.
  unfold resolve_spin. destruct (spin_wheel st) as [names []], (currentPlayer st), (names !! i);
    intros Hres; try discriminate.
  - destruct (swap_gifts _ _ _) as [[asg g] v] eqn:Hsg. injection Hres as <- <-. simpl.
    rewrite length_app, (swap_gifts_length _ _ _ _ _ _ Hsg). simpl. lia.
  - injection Hres as <- <-. simpl. rewrite length_app. simpl. lia.
Qed.

Lemma resolve_spin_roster st i st' o :
  resolve_spin st i = Some (st', o) → participants st' = participants st.
Proof. unfold resolve_spin. intros H. repeat (case_match; simplify_eq/=); done. Qed.

(** What the results list is told of a spin: the spinner was current, the
    gift shown is a participant's, and unless a swap happened the log just
    grew by that pair. *)
Lemma resolve_spin_outcome st i st' o :
  wf st → resolve_spin st i = Some (st', o) →
  currentPlayer st = Some (o_player o) ∧ o_gift o ∈ participants st ∧
  (o_swapped_with o = None →
   giftAssignments st' = giftAssignments st ++ [mkAssignment (o_player o) (o_gift o)]).
Proof.
  intros Hwf Hres. unfold resolve_spin in Hres.
  destruct (spin_wheel_cases st) as [[_ Hsw]|[_ Hsw]]; rewrite Hsw in Hres; cbv beta iota in Hres;
    destruct (currentPlayer st) as [c|] eqn:Hc; try discriminate;
    [destruct (normal_wheel st !! i) as [w|] eqn:Hw | destruct (swap_wheel st !! i) as [w|] eqn:Hw];
    try discriminate; apply list_elem_of_lookup_2 in Hw.
  - injection Hres as <- <-. simpl. apply elem_of_normal_wheel in Hw. naive_solver.
  - apply elem_of_swap_wheel in Hw as [HwR _].
    unfold swap_gifts in Hres. destruct (list_find _ _) as [[j a]|] eqn:Hf.
    + injection Hres as <- <-. simpl. split_and!; [done | | done].
      apply list_find_Some in Hf as (Hj & _). apply (wf_claimed_sub _ Hwf).
      rewrite <- (wf_gifts _ Hwf). apply list_elem_of_fmap_2. by eapply list_elem_of_lookup_2.
    + injection Hres as <- <-. simpl. naive_solver.
Qed.

(** What a swap does to the log, as the results list sees it. *)
Lemma resolve_spin_swapped st i st' o v :
  resolve_spin st i = Some (st', o) → o_swapped_with o = Some v →
  ∃ c j g, currentPlayer st = Some c ∧ v ≠ c ∧ giftAssignments st !! j = Some (mkAssignment v g) ∧
    giftAssignments st' = <[j := mkAssignment v c]> (giftAssignments st) ++ [mkAssignment c g] ∧
    o = mkOutcome c g (Some v).
Proof.
  unfold resolve_spin. intros Hres Hv.
  destruct (spin_wheel_cases st) as [[_ Hsw]|[_ Hsw]]; rewrite Hsw in Hres; cbv beta iota in Hres;
    destruct (currentPlayer st) as [c|] eqn:Hc; try discriminate;
    [destruct (normal_wheel st !! i) as [w|] eqn:Hw | destruct (swap_wheel st !! i) as [w|] eqn:Hw];
    try discriminate.
  - injection Hres as <- <-. discriminate.
  - apply list_elem_of_lookup_2, elem_of_swap_wheel in Hw as [_ Hwc]. rewrite Hc in Hwc.
    unfold swap_gifts in Hres. destruct (list_find _ _) as [[j a]|] eqn:Hf;
      injection Hres as <- <-; [| discriminate].
    simpl in Hv. injection Hv as <-. apply list_find_Some in Hf as (Hj & Ha & _).
    exists c, j, (gift a). destruct a as [pa ga]; simpl in *; subst. split_and!; try done. congruence.
Qed.

(** ** Two players *)

(** With two participants the only one who can have received the other's
    gift is the current player; as long as the current player has not
    played, the other's gift is unclaimed and the wheel is never in swap
    mode. *)
Lemma two_players_normal st c :
  wf st → length (participants st) = 2 → currentPlayer st = Some c → c ∈ participants st →
  c ∉ playedParticipants st → (spin_wheel st).2 = false.
Proof.
  intros Hwf Hlen Hc HcR HcP.
  destruct (spin_wheel_cases st) as [[_ ->]|[Hnil ->]]; [done | exfalso].
  pose proof (wf_roster_nodup _ Hwf) as Hnd.
  destruct (participants st) as [|a [|b [|]]] eqn:HR; simpl in Hlen; try lia.
  apply NoDup_cons in Hnd as [Hab _].
  assert (∃ x, x ∈ participants st ∧ x ≠ c ∧ ∀ y, y ∈ participants st → y = x ∨ y = c)
    as (x & HxR & Hxc & Hall).
  { rewrite HR. destruct (decide (c = a)) as [->|Hca]; [exists b | exists a]; set_solver. }
  assert (x ∈ gift <$> giftAssignments st) as (l & Hx & Hl)%list_elem_of_fmap.
  { rewrite (wf_gifts _ Hwf). apply (normal_wheel_nil st); [done | done | congruence]. }
  assert (player l ∈ participants st) as [Hpx | Hpc]%Hall.
  { apply (wf_played_sub _ Hwf). rewrite <- (wf_players _ Hwf). by apply list_elem_of_fmap_2. }
  - pose proof (wf_no_self _ Hwf) as Hns. rewrite Forall_forall in Hns. apply (Hns l Hl). congruence.
  - apply HcP. rewrite <- (wf_players _ Hwf), <- Hpc. by apply list_elem_of_fmap_2.
Qed.

(** A completed two-player game is the exchange of the two gifts. *)
Lemma two_players_complete st a b :
  wf st → participants st = [a; b] → game_complete st = true →
  giftAssignments st = [mkAssignment a b; mkAssignment b a] ∨
  giftAssignments st = [mkAssignment b a; mkAssignment a b].
Proof.
  intros Hwf HR Hc. destruct (complete_assignment st Hwf Hc) as (Hp & Hg & Hns). rewrite HR in Hp, Hg.
  pose proof (wf_roster_nodup _ Hwf) as Hnd. rewrite HR in Hnd. apply NoDup_cons in Hnd as [Hab _].
  destruct (giftAssignments st) as [|[p1 g1] [|[p2 g2] [|]]];
    try (apply Permutation_length in Hp; simpl in Hp; lia).
  apply Forall_cons in Hns as [H1 [H2 _]%Forall_cons]. simpl in *.
  apply Permutation_sym, Permutation_length_2_inv in Hp as [[= -> ->]|[= -> ->]];
    apply Permutation_sym, Permutation_length_2_inv in Hg as [[= -> ->]|[= -> ->]];
    first [by left | by right | set_solver].
Qed.

(** ** Duplicate names *)

Lemma selectable_in_roster st x : x ∈ selectable_participants st → x ∈ participants st.
Proof. unfold selectable_participants. case_match; set_solver. Qed.

(** The swap hands out a gift some entry held, and gives that entry the
    spinner. *)
Lemma swap_gifts_in_roster (R : list string) asg p w asg' g v :
  swap_gifts asg p w = (asg', g, v) → w ∈ R → p ∈ R → (∀ a, a ∈ asg → gift a ∈ R) →
  g ∈ R ∧ ∀ a, a ∈ asg' → gift a ∈ R.
Proof.
  unfold swap_gifts. intros Hs Hw Hp Ha.
  destruct (list_find _ asg) as [[i a]|] eqn:Hf; injection Hs as <- <- <-; [| done].
  apply list_find_Some in Hf as (Hi & _ & _). split; [by eapply Ha, list_elem_of_lookup_2 |].
  intros b (j & Hj)%list_elem_of_lookup. apply list_lookup_insert_Some in Hj as [(_ & <- & _) | (_ & Hj)].
  - done.
  - by eapply Ha, list_elem_of_lookup_2.
Qed.

Lemma emove_roster_closed st st' : emove st st' → roster_closed st → roster_closed st'.
Proof.
  intros [st0 name Hname | st0 i st1 o Hres] (HP & HPR & HcR & HaR).
  - split_and!; simpl; try done. intros c [= <-]. by apply selectable_in_roster.
  - unfold resolve_spin in Hres.
    destruct (spin_wheel_cases st0) as [[_ Hsw]|[_ Hsw]]; rewrite Hsw in Hres; cbv beta iota in Hres;
      destruct (currentPlayer st0) as [c|] eqn:Hc; try discriminate;
      [destruct (normal_wheel st0 !! i) as [w|] eqn:Hw | destruct (swap_wheel st0 !! i) as [w|] eqn:Hw];
      try discriminate; apply list_elem_of_lookup_2 in Hw; pose proof (HcR c eq_refl) as Hc'.
    + apply elem_of_normal_wheel in Hw as [HwR _]. injection Hres as <- <-.
      split_and!; simpl; [by apply NoDup_push_new | set_solver | |].
      * unfold next_player. case_match; intros ? [= <-]; done.
      * intros a [Ha | ->%list_elem_of_singleton]%elem_of_app; [by apply HaR | done].
    + apply elem_of_swap_wheel in Hw as [HwR _].
      destruct (swap_gifts _ _ _) as [[asg g] v] eqn:Hsg. injection Hres as <- <-.
      destruct (swap_gifts_in_roster _ _ _ _ _ _ _ Hsg HwR Hc' HaR) as [HgR HasgR].
      split_and!; simpl; [by apply NoDup_push_new | set_solver | |].
      * unfold next_player. simpl. intros ? [= <-]. done.
      * intros a [Ha | ->%list_elem_of_singleton]%elem_of_app; [by apply HasgR | done].
Qed.

(** [C4] Swap correctness (spec section 8): in swap mode the victim [v]
    already holds an assignment, say gift [g]; afterwards [v]'s entry holds
    the spinner's gift, the spinner receives [g], the spinner's gift was the
    last unclaimed one, and the game is complete. *)
Theorem resolve_spin_swap_correct st i st' o c :
  wf st → length (playedParticipants st) < length (participants st) →
  currentPlayer st = Some c → (spin_wheel st).2 = true →
  resolve_spin st i = Some (st', o) →
  ∃ v g j, o = mkOutcome c g (Some v) ∧ v ≠ c ∧ g ≠ c ∧
    giftAssignments st !! j = Some (mkAssignment v g) ∧
    giftAssignments st' = <[j := mkAssignment v c]> (giftAssignments st) ++ [mkAssignment c g] ∧
    currentPlayer st' = Some g ∧ game_complete st' = true.
Proof.
  intros Hwf Hlt Hc Hsw Hres.
  destruct (spin_wheel_cases st) as [[_ Hsw']|[Hnil Hsw']]; rewrite Hsw' in Hsw; [discriminate |].
  unfold resolve_spin in Hres. rewrite Hsw', Hc in Hres. cbv beta iota in Hres.
  destruct (swap_wheel st !! i) as [w|] eqn:Hw; [| discriminate].
  destruct (swap_mode_facts st c w i) as (HcC & HPC & Hall & Hwc & Hwp); try done.
  pose proof (swap_mode_roster_bound st c w i Hwf Hc Hlt Hnil Hw) as Hbound.
  pose proof (wf_active st c Hwf Hc Hlt) as (_ & HcP & _).
  destruct (swap_gifts_found _ c w Hwp) as (j & a & Hj & Ha & Hsg). rewrite Hsg in Hres.
  injection Hres as <- <-. exists w, (gift a), j. simpl.
  assert (gift a ∈ claimedGifts st).
  { rewrite <- (wf_gifts _ Hwf). apply list_elem_of_fmap_2. by eapply list_elem_of_lookup_2. }
  split_and!; try done.
  - intros Heq. subst c. contradiction.
  - by destruct a; simpl in *; subst.
  - apply Nat.leb_le. simpl. rewrite push_new_fresh, length_app by done. simpl. lia.
Qed.

(** [C10] A normal spin: the spinner receives the drawn owner's gift, the
    gift is newly claimed, and the owner spins next unless they already
    played, in which case a new player must be selected.  The
    "gift already claimed" test of line 580 never fires in normal mode. *)
Theorem resolve_spin_normal_spec st i st' o c :
  currentPlayer st = Some c → (spin_wheel st).2 = false →
  resolve_spin st i = Some (st', o) →
  ∃ w, (spin_wheel st).1 !! i = Some w ∧ w ≠ c ∧ o = mkOutcome c w None ∧
    giftAssignments st' = giftAssignments st ++ [mkAssignment c w] ∧
    claimedGifts st' = claimedGifts st ++ [w] ∧
    currentPlayer st' = (if decide (w ∈ playedParticipants st) then None else Some w).
Proof.
  intros Hc Hsw Hres.
  destruct (spin_wheel_cases st) as [[_ Hsw']|[_ Hsw']]; rewrite Hsw' in Hsw; [| discriminate].
  unfold resolve_spin in Hres. rewrite Hsw', Hc in Hres. cbv beta iota in Hres.
  rewrite Hsw'. simpl.
  destruct (normal_wheel st !! i) as [w|] eqn:Hw; [| discriminate].
  injection Hres as <- <-. exists w. simpl.
  apply list_elem_of_lookup_2, elem_of_normal_wheel in Hw as (_ & Hwc & HwC).
  rewrite Hc in Hwc. rewrite push_new_fresh by done.
  split_and!; try done; [congruence |].
  unfold next_player, includes. simpl. rewrite (bool_decide_eq_false_2 _ HwC). simpl.
  by case_bool_decide; case_decide.
Qed.

(** ** Scenarios *)

(** [C14] Duplicate names (spec section 9) are never resolved: when
    the roster [updateParticipants] set holds a name twice, no sequence of
    selections from the modal and resolved spins completes the game,
    because [playedParticipants] stays duplicate-free and inside the
    roster, hence shorter than it; [closeModal] never shows the summary. *)
Theorem duplicate_names_never_complete roster st :
  ¬ NoDup roster → rtc emove (set_participants initial_state roster) st →
  participants st = roster ∧ game_complete st = false.
Proof.
  intros Hdup Hrun. remember (set_participants initial_state roster) as st0 eqn:E.
  assert (participants st0 = roster ∧ roster_closed st0) as H0.
  { subst. split; [done |]. split_and!; simpl; [apply NoDup_nil_2 | set_solver | done | set_solver]. }
  clear E. induction Hrun as [x | x y z Hxy _ IH].
  - destruct H0 as [HR (HP & HPR & _)]. split; [done |].
    apply Nat.leb_gt. destruct (Nat.lt_ge_cases (length (playedParticipants x)) (length roster)) as [|Hle];
      [by rewrite HR |].
    exfalso. apply Hdup, (NoDup_cover (playedParticipants x)); [done | by rewrite <- HR | done].
  - apply IH. destruct H0 as [HR Hcl]. split; [| by eapply emove_roster_closed].
    destruct Hxy as [| ? ? ? ? Hres]; [done |]. by rewrite (resolve_spin_roster _ _ _ _ Hres).
Qed.

(** ** Witnesses *)

Lemma resolve_spin_swap_correct_witness :
  ∃ v g j, mkOutcome "C" "A" (Some "B") = mkOutcome "C" g (Some v) ∧ v ≠ "C" ∧ g ≠ "C" ∧
    giftAssignments demo_swap_start !! j = Some (mkAssignment v g) ∧
    giftAssignments (run_spin demo_swap_start 1) =
      <[j := mkAssignment v "C"]> (giftAssignments demo_swap_start) ++ [mkAssignment "C" g] ∧
    currentPlayer (run_spin demo_swap_start 1) = Some g ∧
    game_complete (run_spin demo_swap_start 1) = true.
Proof.
  apply (resolve_spin_swap_correct demo_swap_start 1).
  - apply wf_b_sound. vm_compute. reflexivity.
  - vm_compute. lia.
  - vm_compute. reflexivity.
  - vm_compute. reflexivity.
  - vm_compute. reflexivity.
Defined.

Lemma duplicate_names_never_complete_witness :
  ¬ NoDup ["A"; "A"; "B"] ∧
  rtc emove (set_participants initial_state ["A"; "A"; "B"]) demo_duplicates ∧
  participants demo_duplicates = ["A"; "A"; "B"] ∧ game_complete demo_duplicates = false.
Proof.
  assert (rtc emove (set_participants initial_state ["A"; "A"; "B"]) demo_duplicates) as Hrun.
  { eapply rtc_l; [apply emove_select; vm_compute; left |].
    eapply rtc_l; [eapply (emove_spin _ 0); vm_compute; reflexivity |].
    eapply rtc_l; [eapply (emove_spin _ 0); vm_compute; reflexivity |]. apply rtc_refl. }
  assert (¬ NoDup ["A"; "A"; "B"]) as Hdup.
  { intros Hn. apply NoDup_cons in Hn as [Hn _]. apply Hn. left. }
  split; [exact Hdup |]. split; [exact Hrun |]. exact (duplicate_names_never_complete _ _ Hdup Hrun).
Defined.

Lemma resolve_spin_normal_spec_witness :
  ∃ w, (spin_wheel demo_start).1 !! 0 = Some w ∧ w ≠ "A" ∧ mkOutcome "A" "B" None = mkOutcome "A" w None ∧
    giftAssignments (run_spin demo_start 0) = giftAssignments demo_start ++ [mkAssignment "A" w] ∧
    claimedGifts (run_spin demo_start 0) = claimedGifts demo_start ++ [w] ∧
    currentPlayer (run_spin demo_start 0) =
      (if decide (w ∈ playedParticipants demo_start) then None else Some w).
Proof.
  apply (resolve_spin_normal_spec demo_start 0).
  - vm_compute. reflexivity.
  - vm_compute. reflexivity.
  - vm_compute. reflexivity.
Defined.

End Engine.
