(* ===== verification/Spec.v ===== *)
(** * The Exchange Engine of the specification, and the code against it

    Section 4.1 of the specification describes the engine abstractly:
    a roster, the played and claimed sets, the current player and the
    chronological assignment log, with [setRoster], [selectPlayer] and
    [resolveSpin] (by mode NORMAL or SWAP).  [Spec] writes that machine
    down as the specification states it; [abs] forgets the code's
    bookkeeping ([availableParticipants]) and its next-player choice, and
    the refinement lemma shows that [Engine.resolve_spin] performs a
    specification [resolveSpin] on the roster, the sets and the log.

    The current player is left out of [abs] on purpose: after a swap the
    code makes the victim's old gift owner the next player where the
    specification says [null] (see [Engine.resolve_spin_swap_correct]);
    every other effect of a spin agrees. *)

From stdpp Require Import base list strings decidable sets.
From S2P Require Import Prelude Names Engine.

Module Spec.

Import Engine.

(** The engine state of the specification, section 4.1. *)
Record sstate := mkS {
  s_roster : list string;
  s_played : list string;
  s_claimed : list string;
  s_log : list (string * string)
}.

Inductive mode := NORMAL | SWAP.

(** [computeWheelCandidates] for the player [p]. *)
Definition candidates (σ : sstate) (p : string) : list string * mode :=
  match filter (λ x, x ≠ p ∧ x ∉ s_claimed σ) (s_roster σ) with
  | [] => (filter (λ x, x ≠ p) (s_roster σ), SWAP)
  | names => (names, NORMAL)
  end.

(** [resolveSpin(selectedIndex, wheelNames, mode)] for the spinner [p]:
    [None] for [IndexOutOfRange] and for a swap victim without an entry
    (the edge case section 9 leaves open). *)
Definition resolve (σ : sstate) (p : string) (idx : nat) : option sstate :=
  let '(names, m) := candidates σ p in
  match names !! idx with
  | None => None
  | Some w =>
      match m with
      | NORMAL =>
          Some (mkS (s_roster σ) (s_played σ ++ [p]) (s_claimed σ ++ [w]) (s_log σ ++ [(p, w)]))
      | SWAP =>
          match list_find (λ e, e.1 = w) (s_log σ) with
          | Some (j, (v, g)) =>
              Some (mkS (s_roster σ) (s_played σ ++ [p]) (s_claimed σ ++ [p])
                      (<[j := (v, p)]> (s_log σ) ++ [(p, g)]))
          | None => None
          end
      end
  end.

(** [setRoster(names)] before the game starts, with the normalised names
    (non-empty, trimmed, one per line): the sets and the log are left as
    they are. *)
Definition set_roster (σ : sstate) (names : list string) : sstate :=
  mkS names (s_played σ) (s_claimed σ) (s_log σ).

(** The abstraction of an engine state. *)
Definition abs (st : state) : sstate :=
  mkS (participants st) (playedParticipants st) (claimedGifts st)
    ((λ a, (player a, gift a)) <$> giftAssignments st).

(** One step of the specification's engine on the abstract state. *)
Inductive sstep : sstate → sstate → Prop :=
| sstep_set_roster σ names :
    s_played σ = [] → Forall Names.name_ok names → sstep σ (set_roster σ names)
| sstep_resolve σ p idx σ' : p ∈ s_roster σ → p ∉ s_played σ → resolve σ p idx = Some σ' → sstep σ σ'.

(** ** Lemmas *)

Lemma candidates_spin_wheel st c :
  currentPlayer st = Some c →
  candidates (abs st) c =
    ((spin_wheel st).1, if (spin_wheel st).2 then SWAP else NORMAL).
Proof.
  intros Hc. unfold candidates, spin_wheel, normal_wheel, swap_wheel. simpl. rewrite Hc.
  assert (filter (λ x, x ≠ c ∧ x ∉ claimedGifts st) (participants st) =
          filter (λ p, Some p ≠ Some c ∧ p ∉ claimedGifts st) (participants st)) as ->.
  { apply list_filter_iff. intros x. split; intros [H1 H2]; split; congruence. }
  assert (filter (λ x, x ≠ c) (participants st) = filter (λ p, Some p ≠ Some c) (participants st)) as ->.
  { apply list_filter_iff. intros x. split; intros H; congruence. }
  by destruct (filter _ _).
Qed.

Lemma list_find_abs (asg : list assignment) w :
  list_find (λ e, e.1 = w) ((λ a, (player a, gift a)) <$> asg) =
    prod_map id (λ a, (player a, gift a)) <$> list_find (λ a, player a = w) asg.
Proof. rewrite list_find_fmap. done. Qed.

(** [handleSpinComplete] performs the specification's [resolveSpin] for
    the current player: the same roster, played and claimed sets, and the
    same log (with the in-place swap), on every well-formed state where
    someone has yet to play. *)
Lemma resolve_spin_refines st i st' o c :
  wf st → length (playedParticipants st) < length (participants st) →
  currentPlayer st = Some c → resolve_spin st i = Some (st', o) →
  resolve (abs st) c i = Some (abs st').
Proof.
  intros Hwf Hlt Hc Hres. destruct (wf_active st c Hwf Hc Hlt) as (HcR & HcP & _).
  unfold resolve. rewrite (candidates_spin_wheel st c Hc). cbv beta iota.
  unfold resolve_spin in Hres. rewrite Hc in Hres.
  destruct (spin_wheel_cases st) as [[_ Hsw]|[Hnil Hsw]]; rewrite Hsw in Hres |- *; simpl in Hres |- *;
    destruct (_ !! i) as [w|] eqn:Hw; try discriminate.
  - injection Hres as <- _. pose proof Hw as (_ & _ & HwC)%list_elem_of_lookup_2%elem_of_normal_wheel.
    unfold abs. simpl. rewrite !push_new_fresh by done. by rewrite fmap_app.
  - destruct (swap_mode_facts st c w i Hwf Hc Hlt Hnil Hw) as (HcC & _ & _ & _ & Hwp).
    rewrite list_find_abs. unfold swap_gifts in Hres.
    destruct (list_find (λ a, player a = w) (giftAssignments st)) as [[j a]|] eqn:Hf.
    + injection Hres as <- _. destruct a as [v g]. simpl.
      unfold abs. simpl. rewrite !push_new_fresh by done.
      by rewrite fmap_app, list_fmap_insert.
    + exfalso. apply list_find_None in Hf. apply list_elem_of_fmap in Hwp as (a & -> & Ha).
      rewrite Forall_forall in Hf. by apply (Hf a).
Qed.

End Spec.
