(* ===== verification/Results.v ===== *)
(** * The results list and the summary table

    [addResultToList] (lines 821-857) puts one [li] per spin at the top of
    the results list; [updateResultInList] (lines 859-884) rewrites the gift
    of the first [li] whose [innerHTML] contains [>player<] and marks it
    "(โดนสลับ)" unless it already shows a red note; [showSummary] (lines
    890-913) renders the assignment log newest first.

    An [li] is modelled by its fields and its text nodes ([item_texts]):
    the labels, the player, the gift, the optional note and the swap mark.
    For names without ['<'], ['>'] or ['&'] the serialised [innerHTML]
    contains [>x<] exactly when [x] is one of these text nodes (the other
    text nodes are blank, and the parser's names are non-empty and
    trimmed), which is what [mentions] decides. *)

From stdpp Require Import base list strings decidable sets.
From S2P Require Import Prelude Engine.

Module Results.

Import Engine.

(** An [li] of the results list. *)
Record item := mkItem {
  it_player : string;
  it_gift : string;
  it_note : option string;
  it_swapped : bool
}.

#[export] Instance item_eq_dec : EqDecision item.
Proof. solve_decision. Defined.

Definition label_player : string := "ผู้เล่น".
Definition label_gift : string := "จับได้ของของ".

(** The mark appended by [updateResultInList], line 877. *)
Definition swapped_note : string := "(โดนสลับ)".

(** The [specialMessage] of a swap, line 570. *)
Definition swap_message (victim : string) : string :=
  String.append "(สลับของรางวัลกับ " (String.append victim "!)").

(** The text nodes of an [li], in document order (lines 841-853 and the
    span appended at lines 874-878). *)
Definition item_texts (it : item) : list string :=
  [label_player; it_player it; label_gift; it_gift it] ++ option_list (it_note it) ++
  (if it_swapped it then [swapped_note] else []).

(** [li.innerHTML.includes(`>${player}<`)], line 866. *)
Definition mentions (player : string) (it : item) : bool :=
  bool_decide (player ∈ item_texts it).

(** [li.innerHTML.includes('text-red-500')], line 873: the note span and
    the swap mark both carry that class. *)
Definition has_red (it : item) : bool :=
  match it_note it with Some _ => true | None => it_swapped it end.

(** [addResultToList(player, gift, note)], lines 821-857: empty names are
    rejected, otherwise the new [li] goes first. *)
Definition add_result (l : list item) (player gift : string) (note : option string)
    : list item :=
  if bool_decide (player = "") || bool_decide (gift = "") then l
  else mkItem player gift note false :: l.

(** [updateResultInList(player, newGift)], lines 859-884: the first [li]
    mentioning [player] gets [newGift] and, unless it already shows red
    text, the swap mark; the loop then [break]s. *)
Fixpoint update_result (l : list item) (player newGift : string) : list item :=
  match l with
  | [] => []
  | it :: l' =>
      if mentions player it then
        mkItem (it_player it) newGift (it_note it) (it_swapped it || negb (has_red it)) :: l'
      else it :: update_result l' player newGift
  end.

(** The list updates of [handleSpinComplete] for one outcome: the
    victim's row (line 575), then the new row (line 617). *)
Definition record_outcome (l : list item) (o : outcome) : list item :=
  let l1 := match o_swapped_with o with
            | Some v => update_result l v (o_player o)
            | None => l
            end in
  add_result l1 (o_player o) (o_gift o) (swap_message <$> o_swapped_with o).

(** What a row shows: its player and its gift. *)
Definition shown (l : list item) : list (string * string) :=
  (λ it, (it_player it, it_gift it)) <$> l.

(** The pairs of the assignment log, newest first. *)
Definition log_newest_first (asg : list assignment) : list (string * string) :=
  (λ a, (player a, gift a)) <$> reverse asg.

(** [index % 2 === 0 ? 'bg-pink-50' : 'bg-purple-50'], line 901. *)
Definition row_class (index : nat) : string :=
  if Nat.even index then "bg-pink-50" else "bg-purple-50".

(** The rows of the summary table, lines 898-908: the log reversed. *)
Definition summary_rows (asg : list assignment) : list (string * string * string) :=
  imap (λ i a, (player a, gift a, row_class i)) (reverse asg).

(** What the list shows after [update_result] on rows without notes:
    the first pair naming [v] gets the gift [x]. *)
Fixpoint update_first (v x : string) (ps : list (string * string)) : list (string * string) :=
  match ps with
  | [] => []
  | (p, g) :: ps' => if bool_decide (v = p ∨ v = g) then (p, x) :: ps' else (p, g) :: update_first v x ps'
  end.

(** The newest pair of the log naming [v], as player or as gift. *)
Fixpoint first_mention (v : string) (ps : list (string * string)) : option (string * string) :=
  match ps with
  | [] => None
  | (p, g) :: ps' => if bool_decide (v = p ∨ v = g) then Some (p, g) else first_mention v ps'
  end.

(** The pairs after [v]'s gift is replaced by [x]. *)
Definition regift (v x : string) (ps : list (string * string)) : list (string * string) :=
  (λ '(p, g), if bool_decide (p = v) then (p, x) else (p, g)) <$> ps.

(** ** Lemmas *)

Lemma add_result_named l p g n :
  p ≠ "" → g ≠ "" → add_result l p g n = mkItem p g n false :: l.
Proof.
  intros Hp Hg. unfold add_result.
  by rewrite (bool_decide_eq_false_2 _ Hp), (bool_decide_eq_false_2 _ Hg).
Qed.

(** On rows without notes, a name other than the labels and the swap
    mark is mentioned exactly by the row's player and gift. *)
Lemma update_result_shown l v x :
  Forall (λ it, it_note it = None) l → v ≠ label_player → v ≠ label_gift → v ≠ swapped_note →
  shown (update_result l v x) = update_first v x (shown l).
Proof.
  intros Hl Hp Hg Hs. induction Hl as [|it l Hit _ IH]; [done |]. simpl.
  assert (mentions v it = bool_decide (v = it_player it ∨ v = it_gift it)) as ->.
  { unfold mentions, item_texts. rewrite Hit. apply bool_decide_ext.
    destruct (it_swapped it); simpl; set_solver. }
  case_bool_decide; simpl; [done | by rewrite IH].
Qed.

(** When the players of the pairs are distinct, nobody holds their own
    gift and [v] is a player, updating the first pair naming [v] gives
    [v] the gift [x] exactly when that pair is [v]'s own. *)
Lemma update_first_regift v x ps :
  NoDup (fst <$> ps) → Forall (λ '(p, g), p ≠ g) ps → v ≠ x → v ∈ fst <$> ps →
  update_first v x ps = regift v x ps ↔ fst <$> first_mention v ps = Some v.
Proof.
  intros Hnd Hns Hvx. induction ps as [|[p g] ps IH]; [set_solver |].
  cbn [fmap list_fmap fst] in Hnd |- *. apply NoDup_cons in Hnd as [Hp Hnd].
  apply Forall_cons in Hns as [Hpg Hns]. intros Hv. cbn [update_first first_mention].
  assert (∀ ps', v ∉ fst <$> ps' → regift v x ps' = ps') as Hid.
  { intros ps' Hn. unfold regift. rewrite <- (list_fmap_id ps') at 2. apply list_fmap_ext.
    intros i [p' g'] Hi. rewrite bool_decide_eq_false_2; [done |].
    intros ->. apply Hn, list_elem_of_fmap. exists (v, g'). split; [done | by eapply list_elem_of_lookup_2]. }
  unfold regift at 1. cbn [fmap list_fmap]. fold (regift v x ps).
  destruct (decide (v = p)) as [<-|Hvp].
  - rewrite !bool_decide_eq_true_2 by auto. simpl. rewrite Hid by done. done.
  - rewrite (bool_decide_eq_false_2 (p = v)) by congruence.
    case_bool_decide as Hm; simpl.
    + destruct Hm as [|<-]; [done |]. split; [intros [= ->]; congruence | intros [= ->]; congruence].
    + rewrite <- IH by (done || set_solver). split; [by intros [= ?] | by intros ->].
Qed.

(** The in-place update of the swap, seen on the log newest first: with
    distinct players, entry [j] of [v] getting the gift [x] is [v]'s pair
    getting [x]. *)
Lemma log_newest_first_regift (asg : list assignment) j v g x :
  NoDup (player <$> asg) → asg !! j = Some (mkAssignment v g) →
  log_newest_first (<[j := mkAssignment v x]> asg) = regift v x (log_newest_first asg).
Proof.
  intros Hnd Hj.
  assert (<[j := mkAssignment v x]> asg =
          (λ a, if bool_decide (player a = v) then mkAssignment v x else a) <$> asg) as ->.
  { apply list_eq. intros k. rewrite list_lookup_fmap. destruct (decide (k = j)) as [->|Hk].
    - rewrite list_lookup_insert, Hj. simpl.
      rewrite decide_True by (split; [done | by eapply lookup_lt_Some]). by rewrite bool_decide_true.
    - rewrite list_lookup_insert_ne by congruence. destruct (asg !! k) as [a|] eqn:Ha; [simpl | done].
      rewrite bool_decide_eq_false_2; [done |]. intros Hav. apply Hk.
      apply (NoDup_lookup _ _ _ v Hnd); rewrite list_lookup_fmap; [by rewrite Ha, <- Hav | by rewrite Hj]. }
  unfold log_newest_first, regift. rewrite <- (fmap_reverse _ asg), <- !list_fmap_compose.
  apply list_fmap_ext. intros _ [p q] _. simpl. by case_bool_decide; subst.
Qed.

Lemma fst_log_newest_first (asg : list assignment) :
  fst <$> log_newest_first asg = reverse (player <$> asg).
Proof. unfold log_newest_first. by rewrite <- list_fmap_compose, fmap_reverse. Qed.

Lemma log_newest_first_no_self (asg : list assignment) :
  Forall (λ a, player a ≠ gift a) asg → Forall (λ '(p, g), p ≠ g) (log_newest_first asg).
Proof.
  intros Hns. unfold log_newest_first. apply Forall_fmap, Forall_reverse.
  eapply Forall_impl; [exact Hns | done].
Qed.

Lemma log_newest_first_snoc asg a :
  log_newest_first (asg ++ [a]) = (player a, gift a) :: log_newest_first asg.
Proof. unfold log_newest_first. by rewrite reverse_snoc. Qed.

End Results.
