(* ===== verification/Wheel.v ===== *)
(** * Wheel geometry: which slice is under the pointer

    [handleSpinComplete] (lines 531-543) turns the final [rotation] of the
    canvas into the index of the winning name: it normalises the rotation
    into one turn, measures the pointer's angle (straight up, [3π/2] in
    canvas coordinates) relative to the wheel, and divides by the slice
    angle [2π / wheelNames.length].  [drawWheel] paints slice [i] from
    [rotation + i * sliceAngle] to [rotation + (i + 1) * sliceAngle]
    (lines 296-298).

    Angles are exact rationals measured in turns: the code's angle [a]
    radians is [a / (2π)] turns, so [2 * Math.PI] is [1] and
    [3 * Math.PI / 2] is [3/4].  JavaScript's [%] on numbers keeps the
    sign of the dividend and is modelled by [js_fmod].  IEEE rounding is
    not modelled; the final [% wheelNames.length] of line 542, which guards
    against a rounded angle of exactly one turn, is kept.

    The theorems: the index is in range, it is the slice the pointer lies
    in, and every slice can win. *)

From Stdlib Require Import QArith Qround ZArith Lia Lqa.
From stdpp Require Import base.
From S2P Require Import Prelude.

Module Wheel.

Local Open Scope Q_scope.

Definition Qltb (x y : Q) : bool := negb (Qle_bool y x).

(** [Math.trunc]. *)
Definition js_trunc (q : Q) : Z := if Qle_bool 0 q then Qfloor q else Qceiling q.

(** [x % y] on JavaScript numbers. *)
Definition js_fmod (x y : Q) : Q := x - y * inject_Z (js_trunc (x / y)).

Definition full_turn : Q := 1.

(** The pointer's angle, [3 * Math.PI / 2], in turns. *)
Definition pointer_top : Q := 3 # 4.

(** [let a = x % (2 * Math.PI); if (a < 0) a += 2 * Math.PI;],
    lines 534-535 and 539-540. *)
Definition turn_mod (x : Q) : Q :=
  let m := js_fmod x full_turn in
  if Qltb m 0 then m + full_turn else m.

(** [normalizedRotation], lines 534-535. *)
Definition normalized_rotation (rotation : Q) : Q := turn_mod rotation.

(** [adjustedAngle], lines 538-540. *)
Definition adjusted_angle (rotation : Q) : Q :=
  turn_mod (pointer_top - normalized_rotation rotation).

(** [winnerIndex], lines 531 and 542:
    [Math.floor(adjustedAngle / sliceAngle) % wheelNames.length]; the floor
    is non-negative, where JavaScript's [%] and [Z.rem] agree. *)
Definition winner_index (rotation : Q) (n : nat) : Z :=
  let sliceAngle := full_turn / inject_Z (Z.of_nat n) in
  Z.rem (Qfloor (adjusted_angle rotation / sliceAngle)) (Z.of_nat n).

(** ** Arithmetic of the normalisation *)

Lemma inject_Z_sub x y : inject_Z (x - y) = inject_Z x - inject_Z y.
Proof. unfold Z.sub. rewrite inject_Z_plus, inject_Z_opp. reflexivity. Qed.

Lemma Qltb_iff x y : Qltb x y = true ↔ x < y.
Proof.
  unfold Qltb. rewrite negb_true_iff. split.
  - intros H. apply Qnot_le_lt. intros Hle. apply Qle_bool_iff in Hle. congruence.
  - intros H. destruct (Qle_bool y x) eqn:E; [| easy].
    apply Qle_bool_iff in E. exfalso. apply (Qlt_not_le x y H E).
Qed.

Lemma Qltb_false x y : Qltb x y = false → y <= x.
Proof.
  unfold Qltb. destruct (Qle_bool y x) eqn:E; [| discriminate]. intros _.
  apply Qle_bool_iff; exact E.
Qed.

Lemma Qfloor_unique q z : inject_Z z <= q → q < inject_Z z + 1 → Qfloor q = z.
Proof.
  intros H1 H2. pose proof (Qfloor_le q) as H3. pose proof (Qlt_floor q) as H4.
  rewrite inject_Z_plus in H4. change (inject_Z 1) with 1 in H4.
  assert (Qfloor q < z + 1)%Z by (rewrite Zlt_Qlt, inject_Z_plus; change (inject_Z 1) with 1; lra).
  assert (z < Qfloor q + 1)%Z by (rewrite Zlt_Qlt, inject_Z_plus; change (inject_Z 1) with 1; lra).
  lia.
Qed.

(** Two points of the same turn that differ by whole turns coincide. *)
Lemma frac_unique a b z : 0 <= a < 1 → 0 <= b < 1 → a == b + inject_Z z → z = 0%Z.
Proof.
  intros [Ha0 Ha1] [Hb0 Hb1] Hab.
  assert (-1 < z)%Z by (rewrite Zlt_Qlt; change (inject_Z (-1)) with (-1); lra).
  assert (z < 1)%Z by (rewrite Zlt_Qlt; change (inject_Z 1) with 1; lra).
  lia.
Qed.

Lemma turn_mod_spec x : 0 <= turn_mod x < 1 ∧ ∃ z, turn_mod x == x + inject_Z z.
Proof.
  unfold turn_mod, js_fmod, js_trunc, full_turn.
  assert (x / 1 == x) as Hx by field.
  rewrite (Qfloor_comp _ _ Hx).
  destruct (Qle_bool 0 (x / 1)) eqn:E.
  - apply Qle_bool_iff in E. rewrite Hx in E.
    pose proof (Qfloor_le x). pose proof (Qlt_floor x) as Hlt.
    rewrite inject_Z_plus in Hlt. change (inject_Z 1) with 1 in Hlt.
    destruct (Qltb _ 0) eqn:Em; apply Qltb_iff in Em || (rewrite <- not_true_iff_false, Qltb_iff in Em);
      [lra |]. split; [lra |]. exists (- Qfloor x)%Z. rewrite inject_Z_opp. ring.
  - assert (x < 0).
    { apply Qnot_le_lt. intros Hle. rewrite <- Hx in Hle. apply Qle_bool_iff in Hle. congruence. }
    assert (Qceiling (x / 1) = Qceiling x) as Hc.
    { unfold Qceiling. f_equal. apply Qfloor_comp. rewrite Hx. reflexivity. }
    rewrite Hc. pose proof (Qle_ceiling x). pose proof (Qceiling_lt x) as Hlt.
    rewrite inject_Z_sub in Hlt. change (inject_Z 1) with 1 in Hlt.
    destruct (Qltb _ 0) eqn:Em; apply Qltb_iff in Em || (rewrite <- not_true_iff_false, Qltb_iff in Em).
    + split; [lra |]. exists (1 - Qceiling x)%Z. rewrite inject_Z_sub. change (inject_Z 1) with 1. ring.
    + split; [lra |]. exists (- Qceiling x)%Z. rewrite inject_Z_opp. ring.
Qed.

Lemma adjusted_angle_spec r :
  0 <= adjusted_angle r < 1 ∧ ∃ z, adjusted_angle r == pointer_top - r + inject_Z z.
Proof.
  unfold adjusted_angle, normalized_rotation.
  destruct (turn_mod_spec r) as [_ [z1 Hz1]].
  destruct (turn_mod_spec (pointer_top - turn_mod r)) as [Hb [z2 Hz2]].
  split; [easy |]. exists (z2 - z1)%Z. rewrite Hz2, Hz1, inject_Z_sub. ring.
Qed.

(** Before the final [%], the index is the floor of the adjusted angle in
    slices, and it already lies in [0, n). *)
Lemma winner_index_floor r n :
  (0 < n)%nat →
  winner_index r n = Qfloor (adjusted_angle r * inject_Z (Z.of_nat n)) ∧
  (0 <= Qfloor (adjusted_angle r * inject_Z (Z.of_nat n)) < Z.of_nat n)%Z.
Proof.
  intros Hn. destruct (adjusted_angle_spec r) as [[Ha0 Ha1] _].
  set (N := inject_Z (Z.of_nat n)).
  assert (0 < N) as HN by (unfold N; rewrite <- (Zlt_Qlt 0); lia).
  assert (adjusted_angle r / (full_turn / N) == adjusted_angle r * N) as Hd.
  { unfold full_turn. field. intros HN0. rewrite HN0 in HN. discriminate. }
  assert (0 <= Qfloor (adjusted_angle r * N))%Z.
  { replace 0%Z with (Qfloor 0) by reflexivity. apply Qfloor_resp_le.
    apply Qmult_le_0_compat; lra. }
  assert (Qfloor (adjusted_angle r * N) < Z.of_nat n)%Z.
  { rewrite Zlt_Qlt. fold N. apply (Qle_lt_trans _ (adjusted_angle r * N)); [apply Qfloor_le |].
    rewrite <- (Qmult_1_l N) at 2. apply Qmult_lt_r; [easy | lra]. }
  unfold winner_index. cbv zeta. fold N. rewrite (Qfloor_comp _ _ Hd).
  split; [apply Z.rem_small; lia | lia].
Qed.

Lemma winner_index_range r n : (0 < n)%nat → (0 <= winner_index r n < Z.of_nat n)%Z.
Proof. intros Hn. destruct (winner_index_floor r n Hn) as [-> H]. exact H. Qed.

(** ** The winner is the slice under the pointer *)

(** For a non-empty wheel, the computed index is [k] exactly when the
    pointer, at [3/4] turn plus some whole number [m] of turns, lies in the
    arc of slice [k] as [drawWheel] paints it: from [rotation + k/n] to
    [rotation + (k+1)/n], i.e. [k ≤ (3/4 + m - rotation) · n < k + 1]. *)
Lemma winner_index_pointer_iff r n k :
  (0 < n)%nat → (0 <= k < Z.of_nat n)%Z →
  winner_index r n = k ↔
  ∃ m : Z, inject_Z k <= (pointer_top + inject_Z m - r) * inject_Z (Z.of_nat n) < inject_Z k + 1.
Proof.
  intros Hn Hk. destruct (winner_index_floor r n Hn) as [-> Hrange].
  destruct (adjusted_angle_spec r) as [Ha [z Hz]].
  set (N := inject_Z (Z.of_nat n)) in *.
  assert (0 < N) as HN by (unfold N; rewrite <- (Zlt_Qlt 0); lia).
  split.
  - intros <-. exists z.
    assert (pointer_top + inject_Z z - r == adjusted_angle r) as -> by (rewrite Hz; ring).
    split; [apply Qfloor_le |].
    pose proof (Qlt_floor (adjusted_angle r * N)) as Hf. rewrite inject_Z_plus in Hf. exact Hf.
  - intros [m [Hlo Hhi]].
    set (x := pointer_top + inject_Z m - r) in *.
    assert (0 <= x) as Hx0.
    { apply (Qmult_le_r _ _ N HN). rewrite Qmult_0_l.
      apply (Qle_trans _ (inject_Z k)); [rewrite <- (Zle_Qle 0); lia | easy]. }
    assert (x < 1) as Hx1.
    { apply (Qmult_lt_r _ _ N HN). rewrite Qmult_1_l.
      apply (Qlt_le_trans _ (inject_Z k + 1)); [easy |].
      change 1 with (inject_Z 1). rewrite <- inject_Z_plus. unfold N. rewrite <- Zle_Qle. lia. }
    assert (adjusted_angle r == x + inject_Z (z - m)) as Hd.
    { rewrite Hz, inject_Z_sub. unfold x. ring. }
    pose proof (frac_unique _ _ _ Ha (conj Hx0 Hx1) Hd) as Hzm.
    assert (adjusted_angle r == x) as Hax.
    { rewrite Hd, Hzm. change (inject_Z 0) with 0. ring. }
    apply Qfloor_unique; rewrite Hax; easy.
Qed.

(** [C27] Every slice can win: stopping with slice [k]'s middle under the
    pointer, i.e. at rotation [3/4 - (2k+1)/(2n)], selects index [k]. *)
Theorem winner_index_every_slice n k :
  (0 < n)%nat → (0 <= k < Z.of_nat n)%Z →
  winner_index (pointer_top - (2 * inject_Z k + 1) / (2 * inject_Z (Z.of_nat n))) n = k.
Proof.
  intros Hn Hk.
  set (N := inject_Z (Z.of_nat n)).
  assert (0 < N) as HN by (unfold N; rewrite <- (Zlt_Qlt 0); lia).
  set (c := (2 * inject_Z k + 1) / (2 * N)).
  destruct (winner_index_floor (pointer_top - c) n Hn) as [-> _]. fold N.
  destruct (adjusted_angle_spec (pointer_top - c)) as [Ha [z Hz]].
  assert (c * N == inject_Z k + (1 # 2)) as HcN.
  { unfold c. field. intros HN0. rewrite HN0 in HN. discriminate. }
  assert (0 <= inject_Z k) as Hk0 by (rewrite <- (Zle_Qle 0); lia).
  assert (inject_Z k + 1 <= N) as HkN.
  { change 1 with (inject_Z 1). rewrite <- inject_Z_plus. unfold N. rewrite <- Zle_Qle. lia. }
  assert (0 <= c) as Hc0.
  { apply (Qmult_le_r _ _ N HN). rewrite Qmult_0_l, HcN. lra. }
  assert (c < 1) as Hc1.
  { apply (Qmult_lt_r _ _ N HN). rewrite Qmult_1_l, HcN. lra. }
  assert (adjusted_angle (pointer_top - c) == c + inject_Z z) as Hd by (rewrite Hz; ring).
  pose proof (frac_unique _ _ _ Ha (conj Hc0 Hc1) Hd) as ->.
  assert (adjusted_angle (pointer_top - c) == c) as Hac.
  { rewrite Hd. change (inject_Z 0) with 0. ring. }
  apply Qfloor_unique; rewrite Hac, HcN; lra.
Qed.

(** ** Witnesses *)

Lemma winner_index_every_slice_witness :
  winner_index (pointer_top - (2 * inject_Z 1 + 1) / (2 * inject_Z (Z.of_nat 3))) 3 = 1%Z.
Proof. apply winner_index_every_slice; lia. Defined.

End Wheel.
