(* ===== verification/Drawing.v ===== *)
(** * What [drawWheel] paints

    [drawWheel] (lines 252-381) chooses the names on the wheel (lines
    262-285: with a current player, the unclaimed gifts of the others, or
    everyone else in swap mode; without one, the whole roster; a
    placeholder for an empty list), then paints slice [i] from
    [rotation + i * sliceAngle] to [rotation + (i + 1) * sliceAngle] in
    colour [colors[i % 15]], shaded towards [adjustColor(color, -60)], with
    the name in a font chosen from its length (lines 296-344).

    [drawn_wheel] is the list of names, [draw_slices] the painted slices
    (angles in turns, as in [Wheel]).  [adjust_color] follows [adjustColor]
    (lines 248-250) on ASCII strings: the two regular expressions, the
    JavaScript [parseInt(_, 16)] with its whitespace, sign and [0x]
    prefix, [Math.max]/[Math.min] (with [NaN] for a failed parse),
    [toString(16)] and [substr(-2)].  [js_length] counts the UTF-16 code
    units of a UTF-8 string, which is JavaScript's [name.length]. *)

From Stdlib Require Import Ascii QArith ZArith Lia Lqa.
From stdpp Require Import base list strings decidable.
From S2P Require Import Prelude Engine Wheel.

Module Drawing.

Import Engine.
Import Wheel.

(** ** The names on the wheel *)

(** The placeholder of line 283. *)
Definition placeholder : string := "ไม่มีรายชื่อ".

(** [if (currentPlayer)]: [null] and the empty string are false. *)
Definition player_truthy (cur : option string) : bool :=
  match cur with Some c => negb (bool_decide (c = "")) | None => false end.

(** Lines 262-285. *)
Definition drawn_wheel (st : state) : list string :=
  let names :=
    if player_truthy (currentPlayer st) then
      match normal_wheel st with
      | [] => if bool_decide (0 < length (participants st)) then swap_wheel st else []
      | ns => ns
      end
    else participants st in
  match names with [] => [placeholder] | _ => names end.

(** ** Colours *)

(** The palette of lines 289-293. *)
Definition colors : list string :=
  ["#FF6B6B"; "#4ECDC4"; "#45B7D1"; "#FFA07A"; "#98D8C8";
   "#F7DC6F"; "#BB8FCE"; "#85C1E2"; "#F8B739"; "#52B788";
   "#FF8FA3"; "#6C5CE7"; "#FD79A8"; "#A29BFE"; "#74B9FF"].

(** [colors[i % colors.length]], line 307. *)
Definition slice_color (i : nat) : string := default "" (colors !! (i mod length colors)).

Definition code (c : ascii) : nat := nat_of_ascii c.

Definition is_hex (c : ascii) : bool :=
  let n := code c in
  ((48 <=? n) && (n <=? 57)) || ((65 <=? n) && (n <=? 70)) || ((97 <=? n) && (n <=? 102)).

Definition hex_val (c : ascii) : Z :=
  let n := Z.of_nat (code c) in
  if (n <=? 57)%Z then (n - 48)%Z else if (n <=? 70)%Z then (n - 55)%Z else (n - 87)%Z.

(** A lower-case hexadecimal digit, as [toString(16)] writes it. *)
Definition hex_digit (v : Z) : ascii :=
  ascii_of_nat (Z.to_nat (if (v <? 10)%Z then 48 + v else 87 + v)%Z).

(** The ASCII white space [parseInt] skips. *)
Definition is_space (c : ascii) : bool :=
  let n := code c in ((9 <=? n) && (n <=? 13)) || (n =? 32).

Fixpoint drop_spaces (s : list ascii) : list ascii :=
  match s with c :: r => if is_space c then drop_spaces r else s | [] => [] end.

Fixpoint hex_prefix (s : list ascii) : list ascii :=
  match s with c :: r => if is_hex c then c :: hex_prefix r else [] | [] => [] end.

Fixpoint digits_value (acc : Z) (ds : list ascii) : Z :=
  match ds with [] => acc | d :: r => digits_value (16 * acc + hex_val d)%Z r end.

(** [parseInt(s, 16)]; [None] is [NaN]. *)
Definition parse_int16 (s : list ascii) : option Z :=
  let s1 := drop_spaces s in
  let '(sign, s2) :=
    match s1 with
    | "-"%char :: r => ((-1)%Z, r)
    | "+"%char :: r => (1%Z, r)
    | _ => (1%Z, s1)
    end in
  let s3 :=
    match s2 with
    | "0"%char :: x :: r => if bool_decide (x = "x"%char) || bool_decide (x = "X"%char) then r else s2
    | _ => s2
    end in
  match hex_prefix s3 with [] => None | ds => Some (sign * digits_value 0 ds)%Z end.

(** [n.toString(16)] for an integer [0 <= n <= 255]. *)
Definition to_hex (v : Z) : list ascii :=
  if (v <? 16)%Z then [hex_digit v] else [hex_digit (v / 16); hex_digit (v mod 16)].

Definition nan_string : list ascii := ["N"; "a"; "N"]%char.

(** [str.substr(-2)]. *)
Definition last_two (l : list ascii) : list ascii := drop (length l - 2) l.

(** [Math.min(255, Math.max(0, v))]. *)
Definition clamp_channel (v : Z) : Z := Z.min 255 (Z.max 0 v).

(** The replacement function of line 249 on one matched pair. *)
Definition shade_pair (amount : Z) (a b : ascii) : list ascii :=
  last_two ("0"%char :: match parse_int16 [a; b] with
                        | Some v => to_hex (clamp_channel (v + amount))
                        | None => nan_string
                        end).

Definition is_line_terminator (c : ascii) : bool := (code c =? 10) || (code c =? 13).

(** [s.replace(/../g, f)]: pairs of characters other than line
    terminators, left to right, without overlap. *)
Fixpoint replace_pairs (f : ascii → ascii → list ascii) (s : list ascii) : list ascii :=
  match s with
  | a :: (b :: rest) as tl =>
      if is_line_terminator a || is_line_terminator b then a :: replace_pairs f tl
      else f a b ++ replace_pairs f rest
  | _ => s
  end.

(** [s.replace(/^#/, '')]. *)
Definition strip_hash (s : list ascii) : list ascii :=
  match s with "#"%char :: r => r | _ => s end.

(** [adjustColor(color, amount)], lines 248-250. *)
Definition adjust_color (color : string) (amount : Z) : string :=
  String.string_of_list_ascii
    ("#"%char :: replace_pairs (shade_pair amount) (strip_hash (String.list_ascii_of_string color))).

(** A colour [#rrggbb] and its three channels. *)
Definition is_color (s : list ascii) : bool :=
  match s with "#"%char :: ds => (length ds =? 6) && forallb is_hex ds | _ => false end.

Fixpoint pair_values (ds : list ascii) : list Z :=
  match ds with a :: b :: r => (16 * hex_val a + hex_val b)%Z :: pair_values r | _ => [] end.

Definition channels (s : list ascii) : list Z := pair_values (strip_hash s).

(** ** Text *)

(** UTF-16 code units of one UTF-8 byte: leading bytes of one- to
    three-byte sequences count one, of four-byte sequences two
    (a surrogate pair), continuation bytes none. *)
Definition utf16_units (b : ascii) : nat :=
  let n := code b in
  if n <? 128 then 1 else if n <? 192 then 0 else if n <? 240 then 1 else 2.

(** [name.length]. *)
Definition js_length (s : string) : nat := sum_list (utf16_units <$> String.list_ascii_of_string s).

(** The font size of lines 347-350. *)
Definition font_size (name : string) : nat :=
  let l := js_length name in
  if 20 <? l then 18 else if 12 <? l then 22 else if 8 <? l then 24 else 28.

(** ** Slices *)

Record slice := mkSlice {
  sl_start : Q;
  sl_end : Q;
  sl_color : string;
  sl_edge : string;
  sl_name : string;
  sl_font : nat
}.

(** The loop of lines 296-344, angles in turns. *)
Definition draw_slices (rotation : Q) (names : list string) : list slice :=
  let sliceAngle := (full_turn / inject_Z (Z.of_nat (length names)))%Q in
  imap (λ i name,
          let startAngle := (rotation + inject_Z (Z.of_nat i) * sliceAngle)%Q in
          mkSlice startAngle (startAngle + sliceAngle)%Q (slice_color i)
            (adjust_color (slice_color i) (-60)) name (font_size name)) names.

(** The pointer, straight up at [3/4] turn, lies in the slice's arc. *)
Definition under_pointer (sl : slice) : Prop :=
  ∃ m : Z, (sl_start sl <= pointer_top + inject_Z m < sl_end sl)%Q.

(** The hexadecimal digits. *)
Definition hex_chars : list ascii :=
  String.list_ascii_of_string "0123456789abcdefABCDEF".

(** Sixteen one-letter names. *)
Definition wheel16 : list string := (λ n, String.string_of_list_ascii [ascii_of_nat (65 + n)]) <$> seq 0 16.

(** ** Characters, by exhaustion over the 256 bytes *)

Lemma ascii_forall (p : ascii → bool) :
  forallb (λ n, p (ascii_of_nat n)) (seq 0 256) = true → ∀ c, p c = true.
Proof.
  intros H c. rewrite <- (ascii_nat_embedding c). rewrite forallb_forall in H. apply H.
  apply in_seq. pose proof (nat_ascii_bounded c). lia.
Qed.

Lemma is_hex_elem c : is_hex c = true → c ∈ hex_chars.
Proof.
  intros Hc.
  assert (forallb (λ n, implb (is_hex (ascii_of_nat n)) (bool_decide (ascii_of_nat n ∈ hex_chars)))
            (seq 0 256) = true) as Hall by (vm_compute; reflexivity).
  pose proof (ascii_forall (λ c, implb (is_hex c) (bool_decide (c ∈ hex_chars))) Hall c) as H.
  cbv beta in H. rewrite Hc in H. by apply bool_decide_eq_true in H.
Qed.

Lemma hex_forall2 (p : ascii → ascii → bool) :
  forallb (λ a, forallb (p a) hex_chars) hex_chars = true →
  ∀ a b, is_hex a = true → is_hex b = true → p a b = true.
Proof.
  intros H a b Ha%is_hex_elem Hb%is_hex_elem. rewrite forallb_forall in H.
  apply list_elem_of_In in Ha, Hb. specialize (H a Ha). rewrite forallb_forall in H. auto.
Qed.

Lemma hex_not_terminator c : is_hex c = true → is_line_terminator c = false.
Proof.
  intros Hc. pose proof (ascii_forall (λ c, implb (is_hex c) (negb (is_line_terminator c)))
    ltac:(vm_compute; reflexivity) c) as H.
  cbv beta in H. rewrite Hc in H. by destruct (is_line_terminator c).
Qed.

(** [parseInt] reads two hexadecimal digits as their value. *)
Lemma hex_pair_parse a b :
  is_hex a = true → is_hex b = true → parse_int16 [a; b] = Some (16 * hex_val a + hex_val b)%Z.
Proof.
  intros Ha Hb.
  pose proof (hex_forall2 (λ a b,
    match parse_int16 [a; b] with Some v => Z.eqb v (16 * hex_val a + hex_val b) | None => false end)
    ltac:(vm_compute; reflexivity) a b Ha Hb) as H.
  cbv beta in H. destruct (parse_int16 [a; b]); [| discriminate]. apply Z.eqb_eq in H. by subst.
Qed.

(** [('0' + v.toString(16)).substr(-2)] writes a channel value as two
    hexadecimal digits that read back as [v]. *)
Lemma channel_digits v :
  (0 <= v <= 255)%Z →
  ∃ x y, last_two ("0"%char :: to_hex v) = [x; y] ∧ is_hex x = true ∧ is_hex y = true ∧
         (16 * hex_val x + hex_val y = v)%Z.
Proof.
  intros Hv.
  assert (forallb (λ n, match last_two ("0"%char :: to_hex (Z.of_nat n)) with
                        | [x; y] => is_hex x && is_hex y &&
                                    Z.eqb (16 * hex_val x + hex_val y) (Z.of_nat n)
                        | _ => false
                        end) (seq 0 256) = true) as H by (vm_compute; reflexivity).
  rewrite forallb_forall in H. specialize (H (Z.to_nat v) ltac:(apply in_seq; lia)).
  rewrite Z2Nat.id in H by lia.
  destruct (last_two _) as [|x [|y [|]]]; try discriminate.
  apply andb_true_iff in H as [[Hx Hy]%andb_true_iff Hxy]. apply Z.eqb_eq in Hxy.
  by exists x, y.
Qed.

Lemma clamp_channel_range v : (0 <= clamp_channel v <= 255)%Z.
Proof. unfold clamp_channel. lia. Qed.

Lemma shade_pair_hex amount a b :
  is_hex a = true → is_hex b = true →
  ∃ x y, shade_pair amount a b = [x; y] ∧ is_hex x = true ∧ is_hex y = true ∧
         (16 * hex_val x + hex_val y = clamp_channel (16 * hex_val a + hex_val b + amount))%Z.
Proof.
  intros Ha Hb. unfold shade_pair. rewrite hex_pair_parse by done.
  apply channel_digits, clamp_channel_range.
Qed.

Lemma is_color_inv l :
  is_color l = true →
  ∃ a1 a2 b1 b2 c1 c2, l = "#"%char :: [a1; a2; b1; b2; c1; c2] ∧
    Forall (λ c, is_hex c = true) [a1; a2; b1; b2; c1; c2].
Proof.
  intros H. destruct l as [|h ds]; [discriminate |].
  destruct h as [[] [] [] [] [] [] [] []]; try discriminate.
  destruct ds as [|a1 [|a2 [|b1 [|b2 [|c1 [|c2 [|? ?]]]]]]]; try discriminate.
  simpl in H. rewrite !andb_true_iff in H.
  exists a1, a2, b1, b2, c1, c2. split; [done |]. repeat constructor; tauto.
Qed.

(** ** Colours of the slices *)

Lemma colors_NoDup : NoDup colors.
Proof. apply (bool_decide_eq_true_1 _). vm_compute. reflexivity. Qed.

Lemma slice_color_eq i j : slice_color i = slice_color j ↔ i mod 15 = j mod 15.
Proof.
  unfold slice_color. change (length colors) with 15.
  destruct (lookup_lt_is_Some_2 colors (i mod 15)) as [x Hx];
    [change (length colors) with 15; apply Nat.mod_upper_bound; lia |].
  destruct (lookup_lt_is_Some_2 colors (j mod 15)) as [y Hy];
    [change (length colors) with 15; apply Nat.mod_upper_bound; lia |].
  rewrite Hx, Hy. split; [intros Hxy; simpl in Hxy; subst; by eapply NoDup_lookup; [apply colors_NoDup | |] |].
  intros E. rewrite E in Hx. congruence.
Qed.

Ltac mod_facts x n :=
  pose proof (Nat.div_mod_eq x n); pose proof (Nat.mod_upper_bound x n ltac:(lia)).

(** ** Geometry of the slices *)

Lemma draw_slices_lookup r names k sl :
  draw_slices r names !! k = Some sl →
  ∃ name, names !! k = Some name ∧
    sl_start sl = (r + inject_Z (Z.of_nat k) * (full_turn / inject_Z (Z.of_nat (length names))))%Q ∧
    sl_end sl = (sl_start sl + full_turn / inject_Z (Z.of_nat (length names)))%Q ∧
    sl_color sl = slice_color k ∧ sl_name sl = name.
Proof.
  unfold draw_slices. rewrite list_lookup_imap. destruct (names !! k) as [name|] eqn:Hk; [| discriminate].
  intros [= <-]. by exists name.
Qed.

Lemma arc_lo r x k N : (0 < N → r + k * (1 / N) <= x ↔ k <= (x - r) * N)%Q.
Proof.
  intros HN. assert ((r + k * (1 / N)) * N == r * N + k)%Q as E
    by (field; intros H; rewrite H in HN; discriminate).
  rewrite <- (Qmult_le_r _ _ N HN), E. split; intros; ring_simplify; lra.
Qed.

Lemma arc_hi r x k N : (0 < N → x < r + k * (1 / N) + 1 / N ↔ (x - r) * N < k + 1)%Q.
Proof.
  intros HN. assert ((r + k * (1 / N) + 1 / N) * N == r * N + k + 1)%Q as E
    by (field; intros H; rewrite H in HN; discriminate).
  rewrite <- (Qmult_lt_r _ _ N HN), E. split; intros; ring_simplify; lra.
Qed.

(** The slice under the pointer is the one [handleSpinComplete] computes. *)
Lemma under_pointer_iff r names k sl :
  draw_slices r names !! k = Some sl →
  under_pointer sl ↔ winner_index r (length names) = Z.of_nat k.
Proof.
  intros Hk. destruct (draw_slices_lookup r names k sl Hk) as (name & Hn & Hs & He & _ & _).
  pose proof (lookup_lt_Some _ _ _ Hn) as Hlt.
  rewrite winner_index_pointer_iff by lia.
  set (N := inject_Z (Z.of_nat (length names))).
  assert (0 < N)%Q as HN by (unfold N; rewrite <- (Zlt_Qlt 0); lia).
  unfold under_pointer. rewrite He, Hs. unfold full_turn. fold N.
  split; intros [m [Hlo Hhi]]; exists m; split.
  - by apply (arc_lo r).
  - by apply (arc_hi r).
  - by apply (arc_lo r).
  - by apply (arc_hi r).
Qed.

(** The painted slices partition the circle at the pointer: on a
    non-empty wheel exactly one slice lies under the pointer, and its
    index is [winner_index], the one [handleSpinComplete] reads. *)
Lemma one_slice_under_pointer r names :
  names ≠ [] →
  ∃ k sl, draw_slices r names !! k = Some sl ∧ under_pointer sl ∧
    winner_index r (length names) = Z.of_nat k ∧
    ∀ k' sl', draw_slices r names !! k' = Some sl' → under_pointer sl' → k' = k.
Proof.
  intros Hne. assert (0 < length names) as Hn by (destruct names; [done | simpl; lia]).
  pose proof (winner_index_range r _ Hn) as Hr.
  set (k := Z.to_nat (winner_index r (length names))).
  destruct (lookup_lt_is_Some_2 (draw_slices r names) k) as [sl Hsl].
  { unfold draw_slices. rewrite length_imap. lia. }
  assert (winner_index r (length names) = Z.of_nat k) as Hk by (unfold k; lia).
  exists k, sl. split_and!; [done | by apply (under_pointer_iff r names k) | done |].
  intros k' sl' Hsl' Hu. apply (under_pointer_iff r names k' sl' Hsl') in Hu. lia.
Qed.

(** ** Properties of the drawing *)

(** [C28] [adjustColor] on a colour [#rrggbb] (either case) gives a colour
    [#rrggbb] again, each channel shifted by [amount] and clamped to
    [0..255]: the hexadecimal channels are parsed, shifted, clamped and
    printed back without loss. *)
Theorem adjust_color_spec (color : string) (amount : Z) :
  is_color (String.list_ascii_of_string color) = true →
  is_color (String.list_ascii_of_string (adjust_color color amount)) = true ∧
  channels (String.list_ascii_of_string (adjust_color color amount)) =
    (λ v, clamp_channel (v + amount)) <$> channels (String.list_ascii_of_string color).
Proof.
  intros Hc. destruct (is_color_inv _ Hc) as (a1 & a2 & b1 & b2 & c1 & c2 & Hl & HF).
  unfold adjust_color. rewrite String.list_ascii_of_string_of_list_ascii, Hl.
  repeat match goal with H : Forall _ (_ :: _) |- _ => inversion_clear H end.
  cbn [strip_hash replace_pairs]. rewrite !hex_not_terminator by done. cbn [orb].
  destruct (shade_pair_hex amount a1 a2) as (x1 & y1 & -> & ? & ? & E1); [done | done |].
  destruct (shade_pair_hex amount b1 b2) as (x2 & y2 & -> & ? & ? & E2); [done | done |].
  destruct (shade_pair_hex amount c1 c2) as (x3 & y3 & -> & ? & ? & E3); [done | done |].
  split.
  - cbn -[is_hex]. by repeat match goal with H : is_hex _ = true |- _ => rewrite H; clear H end.
  - cbn -[hex_val]. by rewrite E1, E2, E3.
Qed.

(** [C29] Neighbouring slices (slice [i] and slice [(i + 1) mod n] around
    the wheel) get the same colour exactly at the seam between the last
    and the first slice when [n mod 15 = 1]: with 16 or 31 names two
    adjacent slices are painted alike. *)
Theorem adjacent_slice_colours r names i sl sl' :
  2 ≤ length names → draw_slices r names !! i = Some sl →
  draw_slices r names !! (S i mod length names) = Some sl' →
  sl_color sl = sl_color sl' ↔ S i = length names ∧ length names mod 15 = 1.
Proof.
  intros Hn Hi Hj.
  destruct (draw_slices_lookup r names i sl Hi) as (? & Hni & _ & _ & -> & _).
  destruct (draw_slices_lookup r names _ sl' Hj) as (_ & _ & _ & _ & -> & _).
  apply lookup_lt_Some in Hni. rewrite slice_color_eq.
  destruct (decide (S i = length names)) as [E|E].
  - rewrite E, Nat.Div0.mod_same, Nat.Div0.mod_0_l. mod_facts i 15. mod_facts (length names) 15. lia.
  - rewrite (Nat.mod_small (S i)) by lia. mod_facts i 15. mod_facts (S i) 15. lia.
Qed.


(** ** Witnesses *)

Lemma adjust_color_spec_witness :
  is_color (String.list_ascii_of_string "#FF6B6B") = true ∧
  is_color (String.list_ascii_of_string (adjust_color "#FF6B6B" (-60))) = true ∧
  channels (String.list_ascii_of_string (adjust_color "#FF6B6B" (-60))) =
    (λ v, clamp_channel (v + -60)) <$> channels (String.list_ascii_of_string "#FF6B6B").
Proof.
  assert (is_color (String.list_ascii_of_string "#FF6B6B") = true) as H by reflexivity.
  split; [exact H | exact (adjust_color_spec "#FF6B6B" (-60) H)].
Defined.

Lemma adjacent_slice_colours_witness :
  ∃ sl sl', draw_slices 0 wheel16 !! 15 = Some sl ∧ draw_slices 0 wheel16 !! 0 = Some sl' ∧
    (sl_color sl = sl_color sl' ↔ 16 = length wheel16 ∧ length wheel16 mod 15 = 1).
Proof.
  eexists _, _. split; [reflexivity |]. split; [reflexivity |].
  apply (adjacent_slice_colours 0 wheel16 15); [vm_compute; lia | reflexivity | reflexivity].
Defined.


End Drawing.
