(* ===== verification/WheelCanvas.v ===== *)
(** * [drawWheel] as canvas calls

    [drawWheel] (lines 252-377) clears the canvas, then for each name of
    the wheel builds the slice's path, fills it with a radial gradient
    from the slice colour to its [adjustColor(color, -60)] shade, strokes
    a white border and, inside [save]/[restore], a translucent bevel; it
    writes the name rotated to the slice's middle inside another
    [save]/[restore]; last it paints the hub.  [draw_wheel_cmds] is that
    sequence of calls, one constructor per call, on the context of
    [Canvas.v]; the window's [resize] listener (lines 1067-1069) runs it
    again.  Angles are in turns ([2 * Math.PI] is [Wheel.full_turn]).

    The theorem: run on a context with the identity transform, the calls
    paint exactly the slices of [Drawing.draw_slices] (arc, colour, shade,
    name, font size) and the hub, and leave the transform and the [save]
    stack as they found them, so every later [drawWheel] (each animation
    frame, each resize) paints the same picture for the same state. *)

From Stdlib Require Import QArith.
From stdpp Require Import base list strings pretty.
From S2P Require Import Prelude Canvas Engine Wheel Drawing.

Module WheelCanvas.

Import Canvas Engine Wheel Drawing.

(** Lines 297-358: the calls of the loop body for slice [i]. *)
Definition slice_cmds (centerX centerY radius rotation sliceAngle : Q) (i : nat) (name : string)
    : list cmd :=
  let startAngle := (rotation + inject_Z (Z.of_nat i) * sliceAngle)%Q in
  let endAngle := (startAngle + sliceAngle)%Q in
  let color := slice_color i in
  let gradient := SRadial centerX centerY 50 centerX centerY radius
                    [(0, color); (1#2, color); (1, adjust_color color (-60))]%Q in
  let textRadius := (radius * (65#100))%Q in
  [BeginPath; MoveTo centerX centerY; Arc centerX centerY radius startAngle endAngle; ClosePath;
   SetFillStyle gradient; Fill;
   SetStrokeStyle (SColor "#ffffff"); SetLineWidth 2; Stroke;
   Save; BeginPath; Arc centerX centerY (radius - 2) startAngle endAngle;
   SetStrokeStyle (SColor "rgba(255, 255, 255, 0.3)"); SetLineWidth 4; Stroke; Restore;
   Save; Translate centerX centerY; Rotate (startAngle + sliceAngle / 2);
   SetTextAlign "center"; SetTextBaseline "middle"; SetFillStyle (SColor "#ffffff");
   SetShadowColor "rgba(0, 0, 0, 0.5)"; SetShadowBlur 4; SetShadowOffsetX 2; SetShadowOffsetY 2;
   SetFont ("bold " +:+ pretty (font_size name) +:+ "px Kanit"); FillText name textRadius 0;
   Restore].

(** Lines 362-376: the hub. *)
Definition hub_cmds (centerX centerY : Q) : list cmd :=
  [BeginPath; Arc centerX centerY 80 0 full_turn;
   SetFillStyle (SRadial centerX centerY 10 centerX centerY 80
                   [(0, "#ffffff"); (8#10, "#e0e0e0"); (1, "#a0a0a0")]%Q);
   Fill; SetStrokeStyle (SColor "#cccccc"); SetLineWidth 8; Stroke].

(** Lines 253-260, 286 and the loop of lines 296-359, for the names of
    the wheel. *)
Definition draw_wheel_cmds (width height rotation : Q) (wheelNames : list string) : list cmd :=
  let centerX := (width / 2)%Q in
  let centerY := (height / 2)%Q in
  let radius := (width / 2 - 20)%Q in
  let sliceAngle := (full_turn / inject_Z (Z.of_nat (length wheelNames)))%Q in
  ClearRect 0 0 width height ::
  concat (imap (slice_cmds centerX centerY radius rotation sliceAngle) wheelNames) ++
  hub_cmds centerX centerY.

(** [drawWheel()] on a game state, a canvas size and the current rotation. *)
Definition draw_wheel (st : state) (width height rotation : Q) : list cmd :=
  draw_wheel_cmds width height rotation (drawn_wheel st).

(** The [resize] listener, lines 1067-1069, on the context [c]. *)
Definition on_resize (st : state) (width height rotation : Q) (c : ctx) : ctx * list paint :=
  exec_cmds c (draw_wheel st width height rotation).

(** What a slice of [Drawing.draw_slices] looks like on the canvas. *)
Definition slice_paints (centerX centerY radius sliceAngle : Q) (sl : slice) : list paint :=
  let path := [SegMove [] centerX centerY; SegArc [] centerX centerY radius (sl_start sl) (sl_end sl);
               SegClose] in
  [PFill path (SRadial centerX centerY 50 centerX centerY radius
                 [(0, sl_color sl); (1#2, sl_color sl); (1, sl_edge sl)]%Q);
   PStroke path (SColor "#ffffff") 2;
   PStroke [SegArc [] centerX centerY (radius - 2) (sl_start sl) (sl_end sl)]
     (SColor "rgba(255, 255, 255, 0.3)") 4;
   PText (sl_name sl) (radius * (65#100)) 0 ("bold " +:+ pretty (sl_font sl) +:+ "px Kanit")
     "center" "middle" (SColor "#ffffff") ("rgba(0, 0, 0, 0.5)", 4, 2, 2)%Q
     [XTranslate centerX centerY; XRotate (sl_start sl + sliceAngle / 2)]].

Definition hub_paints (centerX centerY : Q) : list paint :=
  let path := [SegArc [] centerX centerY 80 0 full_turn] in
  [PFill path (SRadial centerX centerY 10 centerX centerY 80
                 [(0, "#ffffff"); (8#10, "#e0e0e0"); (1, "#a0a0a0")]%Q);
   PStroke path (SColor "#cccccc") 8].

(** The picture of a wheel of [names] at [rotation] on a [width] x
    [height] canvas: the clear, the slices of [Drawing.draw_slices] and
    the hub. *)
Definition wheel_paints (width height rotation : Q) (names : list string) : list paint :=
  PClear 0 0 width height ::
  concat (slice_paints (width / 2) (height / 2) (width / 2 - 20)
            (full_turn / inject_Z (Z.of_nat (length names))) <$> draw_slices rotation names) ++
  hub_paints (width / 2) (height / 2).

(** ** Lemmas *)

Ltac exec_simpl :=
  cbn -[slice_color adjust_color font_size pretty inject_Z Qplus Qmult Qdiv Qminus String.append].

(** One slice's calls paint the slice and restore the transform and the
    [save] stack. *)
Lemma slice_cmds_ok centerX centerY radius rotation sliceAngle i name :
  block_ok (slice_cmds centerX centerY radius rotation sliceAngle i name)
    (slice_paints centerX centerY radius sliceAngle
       (mkSlice (rotation + inject_Z (Z.of_nat i) * sliceAngle)%Q
          (rotation + inject_Z (Z.of_nat i) * sliceAngle + sliceAngle)%Q
          (slice_color i) (adjust_color (slice_color i) (-60)) name (font_size name))).
Proof. intros [[] st p]. cbn [cur transform]. intros ->. exec_simpl. done. Qed.

Lemma hub_cmds_ok centerX centerY : block_ok (hub_cmds centerX centerY) (hub_paints centerX centerY).
Proof. intros [[] st p]. cbn [cur transform]. intros ->. exec_simpl. done. Qed.

Lemma clear_ok x y w h : block_ok [ClearRect x y w h] [PClear x y w h].
Proof. intros c Hc. done. Qed.

Lemma draw_wheel_ok width height rotation names :
  block_ok (draw_wheel_cmds width height rotation names) (wheel_paints width height rotation names).
Proof.
  unfold draw_wheel_cmds, wheel_paints, draw_slices. rewrite fmap_imap.
  apply (block_ok_app [_] [_]); [apply clear_ok |].
  apply block_ok_app; [| apply hub_cmds_ok].
  apply block_ok_concat_imap. intros i n. apply slice_cmds_ok.
Qed.

(** ** Theorems *)

(** [C33] Refinement of the abstract wheel by the canvas calls: run on a
    context with the identity transform, [drawWheel]'s calls clear the
    canvas, paint every slice of [Drawing.draw_slices] in order (its arc,
    its colour shaded to [adjustColor(color, -60)], the bevel, its name
    in its font, rotated to the slice's middle) and the hub, and leave the
    transform and the [save] stack as they were, so the next frame's
    [drawWheel] paints under the same transform. *)
Theorem draw_wheel_paints width height rotation names c :
  transform (cur c) = [] →
  let '(c', ps) := exec_cmds c (draw_wheel_cmds width height rotation names) in
  ps = PClear 0 0 width height ::
       concat (slice_paints (width / 2) (height / 2) (width / 2 - 20)
                 (full_turn / inject_Z (Z.of_nat (length names))) <$> draw_slices rotation names) ++
       hub_paints (width / 2) (height / 2) ∧
  transform (cur c') = [] ∧ stack c' = stack c.
Proof. apply draw_wheel_ok. Qed.

(** ** Witnesses *)

Lemma draw_wheel_paints_witness :
  transform (cur initial_ctx) = [] ∧
  let '(c', ps) := exec_cmds initial_ctx (draw_wheel_cmds 500 500 0 ["A"; "B"]) in
  ps = PClear 0 0 500 500 ::
       concat (slice_paints (500 / 2) (500 / 2) (500 / 2 - 20)
                 (full_turn / inject_Z (Z.of_nat (length ["A"; "B"]))) <$> draw_slices 0 ["A"; "B"]) ++
       hub_paints (500 / 2) (500 / 2) ∧
  transform (cur c') = [] ∧ stack c' = stack initial_ctx.
Proof. split; [reflexivity | apply draw_wheel_paints; reflexivity]. Defined.

End WheelCanvas.
