(* ===== verification/Controller.v ===== *)
(** * The controller: DOM event handlers as a step relation

    The page's flags ([isSpinning], [rotation], the spin button's
    [disabled], the start button's [hidden], which modal has
    [pointer-events-auto]), the timers scheduled with [setTimeout] and the
    results list extend the engine state into [ui].  Each handler the page can run is
    an [event]: typing in the roster textarea ([handleNameInputChange]),
    [resetDefaults], [startGame], a timer callback, a button of the
    selection modal ([selectPlayer]), a click on the spin button
    ([handleSpinClick] and [startSpin] with its two [Math.random] draws),
    the last animation frame ([handleSpinComplete]), the winner modal's
    close button ([closeModal]), [closeSummary] and the space-bar handler.
    [enabled] says when the page can deliver an event (the button is
    visible and not disabled, the modal is open), [handle] runs the
    handler.  [handle] returns [None] when the JavaScript would continue
    with [undefined] (a winner index off the wheel, or no current player),
    which the theorems show never happens while the roster is left alone
    during play. *)

From Stdlib Require Import QArith ZArith.
From stdpp Require Import base list strings decidable sets relations.
From S2P Require Import Prelude Names Engine Wheel Results.

Module Controller.

Import Engine.

(** The two [setTimeout] callbacks: [showPlayerSelectionModal] (from
    [startGame] and [closeModal]) and [showSummary] (from [closeModal]). *)
Inductive timer := ShowSelect | ShowSummary.

#[export] Instance timer_eq_dec : EqDecision timer.
Proof. solve_decision. Defined.

Record ui := mkUI {
  game : Engine.state;
  isSpinning : bool;
  rotation : Q;
  targetRotation : Q;
  spinDisabled : bool;
  startHidden : bool;
  selectOpen : bool;
  winnerOpen : bool;
  summaryOpen : bool;
  pending : list timer;
  results : list Results.item
}.

Inductive event :=
| EvEdit (text : string)
| EvResetDefaults
| EvStartGame
| EvTimer (i : nat)
| EvSelect (name : string)
| EvSpinClick (u1 u2 : Q)
| EvSpace (u1 u2 : Q)
| EvAnimationEnd
| EvCloseWinner
| EvCloseSummary.

(** Field updates. *)
Definition set_game (s : ui) (g : Engine.state) : ui :=
  mkUI g (isSpinning s) (rotation s) (targetRotation s) (spinDisabled s) (startHidden s)
    (selectOpen s) (winnerOpen s) (summaryOpen s) (pending s) (results s).

Definition set_flags (s : ui) (spinning disabled select winner summary : bool) : ui :=
  mkUI (game s) spinning (rotation s) (targetRotation s) disabled (startHidden s)
    select winner summary (pending s) (results s).

Definition set_pending (s : ui) (p : list timer) : ui :=
  mkUI (game s) (isSpinning s) (rotation s) (targetRotation s) (spinDisabled s) (startHidden s)
    (selectOpen s) (winnerOpen s) (summaryOpen s) p (results s).

(** The page after [DOMContentLoaded] (lines 31-50): default names loaded,
    spin button disabled, rotation 0. *)
Definition init : ui :=
  mkUI (set_participants initial_state Names.load_participants) false 0 0 true false
    false false false [] [].

(** [updateParticipants] with the textarea's text (lines 103-120). *)
Definition update_participants (s : ui) (text : string) : ui :=
  set_game s (set_participants (game s) (Names.parse_roster text)).

(** [resetDefaults], lines 933-936, once the [confirm] dialog is
    accepted (a cancelled dialog changes nothing and is no event). *)
Definition reset_defaults (s : ui) : ui :=
  update_participants s (Names.js_join Names.newline Names.default_participants).

(** [startGame], lines 942-967: fewer than two names raise an alert and
    change nothing; otherwise the start button is hidden and the selection
    modal is scheduled. *)
Definition start_game (s : ui) : ui :=
  if length (participants (game s)) <? 2 then s
  else mkUI (game s) (isSpinning s) (rotation s) (targetRotation s) (spinDisabled s) true
         (selectOpen s) (winnerOpen s) (summaryOpen s) (pending s ++ [ShowSelect]) (results s).

(** [showPlayerSelectionModal], lines 158-181: the selection modal opens
    (its buttons are [selectable_participants], read when a button is
    pressed). *)
Definition show_player_selection_modal (s : ui) : ui :=
  set_flags s (isSpinning s) (spinDisabled s) true (winnerOpen s) (summaryOpen s).

(** [showSummary], lines 890-913: the summary modal opens. *)
Definition show_summary (s : ui) : ui :=
  set_flags s (isSpinning s) (spinDisabled s) (selectOpen s) (winnerOpen s) true.

(** A [setTimeout] callback firing (lines 234, 697-699, 706-708, 964-966). *)
Definition run_timer (s : ui) (t : timer) : ui :=
  match t with
  | ShowSelect => show_player_selection_modal s
  | ShowSummary => show_summary s
  end.

(** [selectPlayer], lines 218-246: the current player is set, the modal
    closes and the spin button is enabled. *)
Definition select_player_ui (s : ui) (name : string) : ui :=
  set_flags (set_game s (select_player (game s) name))
    (isSpinning s) false false (winnerOpen s) (summaryOpen s).

(** [startSpin], lines 393-425: the spin button is disabled; with no other
    participant on the wheel an alert is raised and the flags restored;
    otherwise the target rotation is drawn: [5 + 5 u1] extra turns plus
    [u2] of a turn, [u1] and [u2] being the [Math.random] draws. *)
Definition start_spin (s : ui) (u1 u2 : Q) : ui :=
  match (spin_wheel (game s)).1 with
  | [] => set_flags s false false (selectOpen s) (winnerOpen s) (summaryOpen s)
  | _ :: _ =>
      mkUI (game s) true (rotation s) (rotation s + (5 + u1 * 5) + u2) true (startHidden s)
        (selectOpen s) (winnerOpen s) (summaryOpen s) (pending s) (results s)
  end.

(** [handleSpinClick], lines 383-391. *)
Definition handle_spin_click (s : ui) (u1 u2 : Q) : ui :=
  if isSpinning s then s
  else match currentPlayer (game s) with
       | None => run_timer s ShowSelect
       | Some _ => start_spin s u1 u2
       end.

(** The last animation frame (lines 491-501) and [handleSpinComplete]: the
    rotation reaches its target, the winner index is read off the wheel
    (see [Wheel.winner_index]), the engine resolves the spin and the winner
    modal opens; the results list gets the swap update and the new row. *)
Definition animation_end (s : ui) : option ui :=
  let names := (spin_wheel (game s)).1 in
  let winnerIndex := Wheel.winner_index (targetRotation s) (length names) in
  match resolve_spin (game s) (Z.to_nat winnerIndex) with
  | Some (g, o) =>
      Some (mkUI g false (targetRotation s) (targetRotation s) (spinDisabled s) (startHidden s)
              (selectOpen s) true (summaryOpen s) (pending s) (Results.record_outcome (results s) o))
  | None => None
  end.

(** [closeModal], lines 678-716: the winner modal closes; then the summary
    is scheduled when everyone played, the selection modal when no one is
    current, and otherwise the spin button is enabled. *)
Definition close_modal (s : ui) : ui :=
  let s1 := set_flags s (isSpinning s) (spinDisabled s) (selectOpen s) false (summaryOpen s) in
  if game_complete (game s) then set_pending s1 (pending s ++ [ShowSummary])
  else match currentPlayer (game s) with
       | None => set_pending s1 (pending s ++ [ShowSelect])
       | Some _ => set_flags s1 (isSpinning s) false (selectOpen s) false (summaryOpen s)
       end.

(** [closeSummary], lines 915-923. *)
Definition close_summary (s : ui) : ui :=
  set_flags s (isSpinning s) (spinDisabled s) (selectOpen s) (winnerOpen s) false.

(** The space-bar handler, lines 52-86: close the winner modal, else close
    the summary, else do nothing while the selection modal is open, else
    spin when the spin button is enabled. *)
Definition space_key (s : ui) (u1 u2 : Q) : ui :=
  if winnerOpen s then close_modal s
  else if summaryOpen s then close_summary s
  else if selectOpen s then s
  else if negb (spinDisabled s) then handle_spin_click s u1 u2
  else s.

(** A [Math.random()] draw. *)
Definition random_ok (u : Q) : bool := Qle_bool 0 u && Wheel.Qltb u 1.

Definition enabled (e : event) (s : ui) : bool :=
  match e with
  | EvEdit _ | EvResetDefaults => true
  | EvStartGame => negb (startHidden s)
  | EvTimer i => bool_decide (i < length (pending s))
  | EvSelect name => selectOpen s && bool_decide (name ∈ selectable_participants (game s))
  | EvSpinClick u1 u2 => negb (spinDisabled s) && random_ok u1 && random_ok u2
  | EvSpace u1 u2 => random_ok u1 && random_ok u2
  | EvAnimationEnd => isSpinning s
  | EvCloseWinner => winnerOpen s
  | EvCloseSummary => summaryOpen s
  end.

Definition handle (e : event) (s : ui) : option ui :=
  match e with
  | EvEdit text => Some (update_participants s text)
  | EvResetDefaults => Some (reset_defaults s)
  | EvStartGame => Some (start_game s)
  | EvTimer i =>
      match pending s !! i with
      | Some t => Some (run_timer (set_pending s (delete i (pending s))) t)
      | None => None
      end
  | EvSelect name => Some (select_player_ui s name)
  | EvSpinClick u1 u2 => Some (handle_spin_click s u1 u2)
  | EvSpace u1 u2 => Some (space_key s u1 u2)
  | EvAnimationEnd => animation_end s
  | EvCloseWinner => Some (close_modal s)
  | EvCloseSummary => Some (close_summary s)
  end.

(** The input discipline of the specification: the roster is edited only
    before the game starts, and then to distinct names. *)
Definition disciplined (e : event) (s : ui) : bool :=
  match e with
  | EvEdit text => negb (startHidden s) && bool_decide (NoDup (Names.parse_roster text))
  | EvResetDefaults => negb (startHidden s)
  | _ => true
  end.

Inductive step : ui → ui → Prop :=
| step_event e s s' : enabled e s = true → handle e s = Some s' → step s s'.

Inductive dstep : ui → ui → Prop :=
| dstep_event e s s' :
    enabled e s = true → disciplined e s = true → handle e s = Some s' → dstep s s'.

(** ** Phases of the page

    The flags of a reachable page are those of one of nine phases; each
    phase also says what the game is. *)
Inductive phase :=
| Setup | AwaitSelect | Selecting | Ready | Spinning | ShowWinner
| AwaitSummary | Summary | Finished.

Definition flags (s : ui) : bool * bool * bool * bool * bool * bool * list timer :=
  (startHidden s, isSpinning s, spinDisabled s, selectOpen s, winnerOpen s, summaryOpen s,
   pending s).

Definition phase_flags (p : phase) : bool * bool * bool * bool * bool * bool * list timer :=
  match p with
  | Setup => (false, false, true, false, false, false, [])
  | AwaitSelect => (true, false, true, false, false, false, [ShowSelect])
  | Selecting => (true, false, true, true, false, false, [])
  | Ready => (true, false, false, false, false, false, [])
  | Spinning => (true, true, true, false, false, false, [])
  | ShowWinner => (true, false, true, false, true, false, [])
  | AwaitSummary => (true, false, true, false, false, false, [ShowSummary])
  | Summary => (true, false, true, false, false, true, [])
  | Finished => (true, false, true, false, false, false, [])
  end.

Definition phase_game (p : phase) (g : Engine.state) : Prop :=
  match p with
  | Setup => playedParticipants g = [] ∧ currentPlayer g = None
  | AwaitSelect | Selecting => currentPlayer g = None ∧ game_complete g = false
  | Ready | Spinning => is_Some (currentPlayer g) ∧ game_complete g = false
  | ShowWinner => True
  | AwaitSummary | Summary | Finished => game_complete g = true
  end.

(** The invariant of disciplined runs. *)
Record inv (s : ui) : Prop := {
  inv_wf : wf (game s);
  inv_roster : startHidden s = true → 2 ≤ length (participants (game s));
  inv_phase : ∃ p, flags s = phase_flags p ∧ phase_game p (game s)
}.

(** ** The invariant of disciplined runs *)

Lemma inv_intro s p :
  wf (game s) → (startHidden s = true → 2 ≤ length (participants (game s))) →
  flags s = phase_flags p → phase_game p (game s) → inv s.
Proof. intros Hwf Hr Hf Hp. split; [done | done | by exists p]. Qed.

Ltac enter p := apply (inv_intro _ p); [| | reflexivity |]; simpl.

Lemma load_nodup : NoDup Names.load_participants.
Proof. apply (bool_decide_eq_true_1 _). vm_compute. reflexivity. Qed.

Lemma complete_false_lt g :
  game_complete g = false → length (playedParticipants g) < length (participants g).
Proof. unfold game_complete. intros H. apply Nat.leb_gt in H. lia. Qed.

(** The animation of a spin started from a ready page always ends in a
    resolved spin. *)
Lemma animation_end_some g rot tgt res c :
  wf g → 2 ≤ length (participants g) → currentPlayer g = Some c →
  ∃ g' o, resolve_spin g (Z.to_nat (Wheel.winner_index tgt (length (spin_wheel g).1))) = Some (g', o) ∧
    animation_end (mkUI g true rot tgt true true false false false [] res) =
      Some (mkUI g' false tgt tgt true true false true false [] (Results.record_outcome res o)).
Proof.
  intros Hwf H2 Hc.
  assert (0 < length (spin_wheel g).1)%nat as Hn.
  { pose proof (spin_wheel_nonempty g (wf_roster_nodup _ Hwf) H2) as Hne.
    destruct ((spin_wheel g).1); [done | simpl; lia]. }
  pose proof (Wheel.winner_index_range tgt _ Hn) as Hr.
  destruct (resolve_spin g _) as [[g' o]|] eqn:E.
  - exists g', o. split; [done |]. unfold animation_end. simpl. by rewrite E.
  - exfalso. apply resolve_spin_none in E as [E|E]; [congruence | lia].
Qed.

Lemma ready_click_inv g rot tgt res u1 u2 :
  wf g → 2 ≤ length (participants g) → is_Some (currentPlayer g) → game_complete g = false →
  inv (handle_spin_click (mkUI g false rot tgt false true false false false [] res) u1 u2).
Proof.
  intros Hwf H2 [c Hc] Hcomp. unfold handle_spin_click, start_spin. simpl. rewrite Hc.
  pose proof (spin_wheel_nonempty g (wf_roster_nodup _ Hwf) H2) as Hne.
  destruct ((spin_wheel g).1); [done |]. enter Spinning; [done | done | by split; [exists c |]].
Qed.

Lemma spinning_end_inv g rot tgt res s' :
  wf g → 2 ≤ length (participants g) → is_Some (currentPlayer g) → game_complete g = false →
  animation_end (mkUI g true rot tgt true true false false false [] res) = Some s' → inv s'.
Proof.
  intros Hwf H2 [c Hc] Hcomp Hend.
  destruct (animation_end_some g rot tgt res c Hwf H2 Hc) as (g' & o & Hres & Hend').
  rewrite Hend' in Hend. injection Hend as <-.
  pose proof (resolve_spin_progress g _ g' o Hwf (complete_false_lt g Hcomp) Hres) as (HR & _).
  enter ShowWinner; [| rewrite HR; auto | done].
  exact (resolve_spin_wf g _ g' o Hwf (complete_false_lt g Hcomp) Hres).
Qed.

Lemma winner_close_inv g rot tgt res :
  wf g → 2 ≤ length (participants g) →
  inv (close_modal (mkUI g false rot tgt true true false true false [] res)).
Proof.
  intros Hwf H2. unfold close_modal. simpl.
  destruct (game_complete g) eqn:Hcomp; [enter AwaitSummary; auto |].
  destruct (currentPlayer g) as [c|] eqn:Hc; [enter Ready | enter AwaitSelect]; auto.
Qed.

Lemma dstep_inv s s' : inv s → dstep s s' → inv s'.
Proof.
  intros [Hwf Hros (p & Hfl & Hpg)] Hst. destruct Hst as [e s s' Hen Hdis Hh].
  destruct s as [g spin rot tgt dis hid sel win sum pend res]. unfold flags in Hfl. simpl in *.
  destruct p; simpl in Hfl; simplify_eq; destruct e; simpl in Hen, Hdis; cbn [handle] in Hh; try discriminate;
    try (injection Hh as <-); try (apply bool_decide_eq_true in Hen; simpl in Hen; lia);
    simpl in Hpg.
  - apply bool_decide_eq_true in Hdis. destruct Hpg as [HP Hc].
    enter Setup; [by apply set_participants_setup_wf | done | done].
  - destruct Hpg as [HP Hc].
    unfold reset_defaults, update_participants. fold Names.load_participants.
    with_strategy opaque [Names.load_participants] (enter Setup);
      [apply set_participants_setup_wf; auto using load_nodup | done | done].
  - destruct Hpg as [HP Hc]. unfold start_game. simpl.
    destruct (length (participants g) <? 2) eqn:E; [enter Setup | enter AwaitSelect]; try done.
    + apply Nat.ltb_ge in E. auto.
    + apply Nat.ltb_ge in E. split; [done |]. apply Nat.leb_gt. rewrite HP. simpl. lia.
  - by enter Setup.
  - destruct i as [|i]; [| apply bool_decide_eq_true in Hen; simpl in Hen; lia].
    simpl in Hh. injection Hh as <-. by enter Selecting.
  - by enter AwaitSelect.
  - apply bool_decide_eq_true in Hen. destruct Hpg as [Hc Hcomp].
    enter Ready; [by apply select_player_wf | done | by split; [eexists |]].
  - by enter Selecting.
  - destruct Hpg. apply ready_click_inv; auto.
  - destruct Hpg. unfold space_key. simpl. apply ready_click_inv; auto.
  - by enter Spinning.
  - destruct Hpg as [Hc Hcomp]. apply (spinning_end_inv g rot tgt res); auto.
  - apply winner_close_inv; auto.
  - unfold space_key. simpl. apply winner_close_inv; auto.
  - destruct i as [|i]; [| apply bool_decide_eq_true in Hen; simpl in Hen; lia].
    simpl in Hh. injection Hh as <-. by enter Summary.
  - by enter AwaitSummary.
  - by enter Finished.
  - by enter Finished.
  - by enter Finished.
Qed.

Lemma init_inv : inv init.
Proof.
  with_strategy opaque [Names.load_participants] (enter Setup); [| done | done].
  apply set_participants_setup_wf; [| done | done | apply load_nodup].
  apply wf_b_sound. vm_compute. reflexivity.
Qed.

End Controller.
