(* ===== verification/Run.v ===== *)
(** * Runs of the page: safety, refinement, liveness and termination

    The properties of [Controller] stated over whole runs: every reachable
    page keeps the engine invariant, the summary shows a derangement, the
    selection modal offers exactly the unplayed participants, a running
    spin always resolves and resolves with the slice painted under the
    pointer, every disciplined event is a step of the specification's
    engine or a stutter, every started game can be finished and the number
    of spins is bounded by the roster.  The results list shows the log
    until a swap, and after a swap exactly when the victim's own row is
    the newest naming the victim; a two-player game never swaps; and the
    undisciplined edits of [handleNameInputChange] let the summary open
    with names that never played. *)

From Stdlib Require Import QArith.
From stdpp Require Import base list strings decidable sets relations.
From S2P Require Import Prelude Names Engine Spec Wheel Drawing Results Controller.

Module Run.
Import Engine Controller.

(** ** Runs *)

(** Executable runs: the events in order, each enabled and defined. *)
Fixpoint run (es : list event) (s : ui) : option ui :=
  match es with
  | [] => Some s
  | e :: es' =>
      if enabled e s then match handle e s with Some s' => run es' s' | None => None end
      else None
  end.

(** The pages a disciplined run reaches from the loaded page. *)
Definition reachable (s : ui) : Prop := rtc dstep init s.

(** Disciplined runs, executable. *)
Fixpoint drun (es : list event) (s : ui) : option ui :=
  match es with
  | [] => Some s
  | e :: es' =>
      if enabled e s && disciplined e s then
        match handle e s with Some s' => drun es' s' | None => None end
      else None
  end.

(** How far a started page is from its next winner modal, in events. *)
Definition rank (s : ui) : nat :=
  if isSpinning s then 0
  else if negb (spinDisabled s) then 1
  else if selectOpen s then 2
  else if winnerOpen s then 4
  else 3.

(** The measure of progress: five events per participant yet to play. *)
Definition measure (s : ui) : nat :=
  5 * (length (participants (game s)) - length (playedParticipants (game s))) + rank s.

Definition is_spin_end (e : event) : bool :=
  match e with EvAnimationEnd => true | _ => false end.

(** Opening the selection, choosing the first player, spinning. *)
Definition select_events : list event := [EvStartGame; EvTimer 0].
Definition ready_events : list event := select_events ++ [EvSelect "1-คุณ A"].
Definition spinning_events : list event := ready_events ++ [EvSpinClick 0 (1#2)].

(** A whole game of three players, up to its summary. *)
Definition summary_events : list event :=
  [EvEdit (Names.js_join Names.newline ["A"; "B"; "C"]); EvStartGame; EvTimer 0;
   EvSelect "A"; EvSpinClick 0 0; EvAnimationEnd; EvCloseWinner;
   EvSpinClick 0 0; EvAnimationEnd; EvCloseWinner;
   EvSpinClick 0 0; EvAnimationEnd; EvCloseWinner; EvTimer 0].

(** Three players where the last one must swap: A draws B, B draws A
    (A already played, so C is chosen by hand), and C's swap wheel [A; B]
    stops on A.  The spin draws are chosen so that each pointer stops on
    slice 0; the page is taken while C's spin runs. *)
Definition swap_events : list event :=
  [EvEdit (Names.js_join Names.newline ["A"; "B"; "C"]); EvStartGame; EvTimer 0;
   EvSelect "A"; EvSpinClick 0 (1#2); EvAnimationEnd; EvCloseWinner;
   EvSpinClick 0 0; EvAnimationEnd; EvCloseWinner; EvTimer 0;
   EvSelect "C"; EvSpinClick 0 0].

(** A two-player game, during A's spin. *)
Definition pair_events : list event :=
  [EvEdit (Names.js_join Names.newline ["A"; "B"]); EvStartGame; EvTimer 0;
   EvSelect "A"; EvSpinClick 0 0].

Definition demo_select : ui := default init (drun select_events init).
Definition demo_ready : ui := default init (drun ready_events init).
Definition demo_spinning : ui := default init (drun spinning_events init).
Definition demo_summary : ui := default init (drun summary_events init).
Definition demo_spun : ui := default init (drun (spinning_events ++ [EvAnimationEnd]) init).
Definition demo_swap : ui := default init (drun swap_events init).
Definition demo_pair : ui := default init (drun pair_events init).

(** C's swap, resolved at slice 0 (A). *)
Definition demo_swap_resolved : state * outcome :=
  default (game demo_swap, mkOutcome "C" "C" None) (resolve_spin (game demo_swap) 0).

(** Every name of the roster is non-empty: it came from the parser. *)
Definition names_ok (s : ui) : Prop := Forall (λ x, x ≠ "") (participants (game s)).

(** The results list shows the log newest first, as long as it holds no
    swap note. *)
Definition results_faithful (s : ui) : Prop :=
  Forall (λ it, Results.it_note it = None) (results s) →
  Results.shown (results s) = Results.log_newest_first (giftAssignments (game s)).

(** ** Facts about single events *)

Lemma reachable_inv s : reachable s → inv s.
Proof.
  unfold reachable. intros H. remember init as s0 eqn:E.
  assert (inv s0) as H0 by (subst; apply init_inv). clear E.
  induction H as [|x y z Hxy _ IH]; [done |]. apply IH. by apply (dstep_inv x).
Qed.


Lemma drun_rtc es s s' : drun es s = Some s' → rtc dstep s s'.
Proof.
  revert s. induction es as [|e es IH]; intros s H; simpl in H; [injection H as <-; constructor |].
  destruct (enabled e s) eqn:He, (disciplined e s) eqn:Hd; simpl in H; try discriminate.
  destruct (handle e s) as [s1|] eqn:Hh; [| discriminate].
  eapply rtc_l; [econstructor; eauto | by apply IH].
Qed.

Ltac unfold_handlers :=
  unfold space_key, reset_defaults, update_participants, start_game, run_timer,
    show_player_selection_modal, show_summary, select_player_ui,
    handle_spin_click, start_spin, animation_end, close_modal, close_summary,
    set_game, set_flags, set_pending.

Lemma handle_started e s s' : handle e s = Some s' → startHidden s = true → startHidden s' = true.
Proof.
  destruct e; simpl; unfold_handlers; intros H Hs; repeat (case_match; simpl in *); simplify_eq/=; auto.
Qed.

(** Only the end of a spin touches the played list, the log and the
    results list. *)
Lemma handle_quiet e s s' :
  handle e s = Some s' → e ≠ EvAnimationEnd →
  playedParticipants (game s') = playedParticipants (game s) ∧
  giftAssignments (game s') = giftAssignments (game s) ∧ results s' = results s.
Proof.
  destruct e; simpl; unfold_handlers; intros H Hne; repeat (case_match; simpl in *); simplify_eq/=; auto.
Qed.

(** The roster changes only to a parsed textarea. *)
Lemma handle_roster e s s' :
  handle e s = Some s' →
  participants (game s') = participants (game s) ∨
  ∃ text, participants (game s') = Names.parse_roster text.
Proof.
  destruct e; simpl; unfold_handlers; intros H; repeat (case_match; simpl in *); simplify_eq/=; eauto.
  left. by eapply resolve_spin_roster.
Qed.

(** The flags of a reachable page fix its phase. *)
Lemma inv_cases s :
  inv s → ∃ p g rot tgt res, s = mkUI g (phase_flags p).1.1.1.1.1.2 rot tgt (phase_flags p).1.1.1.1.2
    (phase_flags p).1.1.1.1.1.1 (phase_flags p).1.1.1.2 (phase_flags p).1.1.2 (phase_flags p).1.2
    (phase_flags p).2 res ∧ wf g ∧ (startHidden s = true → 2 ≤ length (participants g)) ∧ phase_game p g.
Proof.
  intros [Hwf Hros (p & Hfl & Hpg)]. destruct s as [g spin rot tgt dis hid sel win sum pend res].
  unfold flags in Hfl. simpl in *. exists p, g, rot, tgt, res.
  destruct p; simpl in Hfl; simplify_eq; simpl; auto.
Qed.

(** A running spin has a current player who is a participant and has
    not played. *)
Lemma spinning_current s :
  inv s → isSpinning s = true →
  wf (game s) ∧ ∃ c, currentPlayer (game s) = Some c ∧ c ∈ participants (game s) ∧
                     c ∉ playedParticipants (game s).
Proof.
  intros Hinv Hsp. destruct (inv_cases s Hinv) as (p & g & rot & tgt & res & -> & Hwf & _ & Hpg).
  destruct p; simpl in Hsp; try discriminate. destruct Hpg as [[c Hc] Hcomp].
  destruct (wf_active g c Hwf Hc (complete_false_lt g Hcomp)) as (HcR & HcP & _).
  split; [done |]. by exists c.
Qed.

(** One disciplined event either finishes the game or brings the page
    closer to its next spin. *)
Lemma progress_step s :
  inv s → startHidden s = true → game_complete (game s) = false →
  ∃ s', dstep s s' ∧ (game_complete (game s') = true ∨ measure s' < measure s).
Proof.
  intros Hinv Hst Hc. pose proof Hinv as (p & g & rot & tgt & res & -> & Hwf & Hros & Hpg)%inv_cases.
  simpl in *. specialize (Hros Hst). pose proof (complete_false_lt g Hc) as Hlt.
  destruct p; simpl in Hst, Hpg; try discriminate; try congruence.
  - eexists. split; [eapply (dstep_event (EvTimer 0)); reflexivity |].
    right. unfold measure, rank. simpl. lia.
  - destruct Hpg as [Hcur _].
    destruct (selectable_participants_spec g Hwf Hcur Hlt) as [Hne Hmem].
    destruct (selectable_participants g) as [|n ns] eqn:Hsel; [done |].
    eexists. split.
    + eapply (dstep_event (EvSelect n)); [| reflexivity | reflexivity].
      simpl. rewrite Hsel. apply bool_decide_eq_true. set_solver.
    + right. unfold measure, rank. simpl. lia.
  - eexists. split; [eapply (dstep_event (EvSpinClick 0 0)); reflexivity |].
    right. unfold measure, rank, handle_spin_click, start_spin. simpl.
    pose proof (spin_wheel_nonempty g (wf_roster_nodup _ Hwf) Hros).
    destruct Hpg as [[c Hc'] _]. rewrite Hc'. destruct ((spin_wheel g).1); [done | simpl; lia].
  - destruct Hpg as [[c Hc'] _].
    destruct (animation_end_some g rot tgt res c Hwf Hros Hc') as (g' & o & Hres & Hend).
    pose proof (resolve_spin_progress g _ g' o Hwf Hlt Hres) as (HR & HP & _).
    eexists. split; [eapply (dstep_event EvAnimationEnd); [reflexivity | reflexivity | exact Hend] |].
    right. unfold measure, rank. simpl. rewrite HR, HP. lia.
  - eexists. split; [eapply (dstep_event EvCloseWinner); reflexivity |].
    right. unfold measure, rank, close_modal. simpl. rewrite Hc.
    destruct (currentPlayer g); simpl; lia.
Qed.

(** ** Properties of the page *)

(** [C1] Along every run in which the roster is edited only before the
    game starts, and then to distinct names, the game state stays well
    formed (the engine invariant: played and claimed duplicate-free subsets
    of the roster, log players = played, log gifts a permutation of
    claimed, nobody holding their own gift, the chain invariant), and
    whenever the spin button is enabled or a spin is running, the current
    player is a participant who has not played yet. *)
Theorem reachable_game_wf s :
  reachable s →
  wf (game s) ∧
  (spinDisabled s = false ∨ isSpinning s = true →
   ∃ c, currentPlayer (game s) = Some c ∧ c ∈ participants (game s) ∧
        c ∉ playedParticipants (game s)).
Proof.
  intros Hr. destruct (inv_cases s (reachable_inv s Hr)) as (p & g & rot & tgt & res & -> & Hwf & _ & Hpg).
  split; [done |]. intros Hsp.
  destruct p; simpl in Hsp, Hpg; try (destruct Hsp; discriminate).
  all: destruct Hpg as [[c Hc] Hcomp];
    destruct (wf_active g c Hwf Hc (complete_false_lt g Hcomp)) as (HcR & HcP & _); eauto.
Qed.

(** [C2] Whenever the summary is shown, the assignment log has one entry
    per participant, its players and its gifts are each a permutation of
    the roster, and nobody received their own gift. *)
Theorem summary_derangement s :
  reachable s → summaryOpen s = true →
  player <$> giftAssignments (game s) ≡ₚ participants (game s) ∧
  gift <$> giftAssignments (game s) ≡ₚ participants (game s) ∧
  Forall (λ a, player a ≠ gift a) (giftAssignments (game s)) ∧
  length (giftAssignments (game s)) = length (participants (game s)).
Proof.
  intros Hr Hsum. destruct (inv_cases s (reachable_inv s Hr)) as (p & g & rot & tgt & res & -> & Hwf & _ & Hpg).
  destruct p; simpl in Hsum, Hpg; try discriminate.
  destruct (complete_assignment g Hwf Hpg) as (Hpl & Hgi & Hns). split_and!; try done.
  rewrite <- (length_fmap player). by apply Permutation_length.
Qed.

(** [C3] Whenever the selection modal is open, it offers at least one
    name, and exactly the participants who have not played yet. *)
Theorem selection_offers_unplayed s :
  reachable s → selectOpen s = true →
  selectable_participants (game s) ≠ [] ∧
  ∀ x, x ∈ selectable_participants (game s) ↔
       x ∈ participants (game s) ∧ x ∉ playedParticipants (game s).
Proof.
  intros Hr Hsel. destruct (inv_cases s (reachable_inv s Hr)) as (p & g & rot & tgt & res & -> & Hwf & _ & Hpg).
  destruct p; simpl in Hsel, Hpg; try discriminate. destruct Hpg as [Hc Hcomp].
  apply selectable_participants_spec; [done | done | by apply complete_false_lt].
Qed.

(** [C5] A running spin always ends in a resolved spin: the winner index
    falls on the wheel and a player is current (the [undefined] branches of
    [handleSpinComplete] are unreachable), the winner modal opens and one
    more participant has played. *)
Theorem spin_end_defined s :
  reachable s → isSpinning s = true →
  ∃ s', handle EvAnimationEnd s = Some s' ∧ winnerOpen s' = true ∧
        length (playedParticipants (game s')) = S (length (playedParticipants (game s))).
Proof.
  intros Hr Hsp. destruct (inv_cases s (reachable_inv s Hr)) as (p & g & rot & tgt & res & -> & Hwf & Hros & Hpg).
  destruct p; simpl in Hsp, Hpg, Hros; try discriminate. destruct Hpg as [[c Hc] Hcomp].
  destruct (animation_end_some g rot tgt res c Hwf (Hros eq_refl) Hc) as (g' & o & Hres & Hend).
  pose proof (resolve_spin_progress g _ g' o Hwf (complete_false_lt g Hcomp) Hres) as (_ & HP & _).
  eexists. split; [exact Hend |]. by split.
Qed.

(** [C8] No started game is stuck: from every reachable page after
    [startGame], some disciplined sequence of events completes the game. *)
Theorem game_can_finish s :
  reachable s → startHidden s = true →
  ∃ s', rtc dstep s s' ∧ game_complete (game s') = true.
Proof.
  intros Hr Hst. pose proof (reachable_inv s Hr) as Hinv. clear Hr.
  remember (measure s) as n eqn:En. revert s Hinv Hst En.
  induction n as [n IH] using lt_wf_ind. intros s Hinv Hst ->.
  destruct (game_complete (game s)) eqn:Hc; [exists s; split; [constructor | done] |].
  destruct (progress_step s Hinv Hst Hc) as (s' & Hstep & [Hc' | Hlt]).
  - exists s'. split; [by apply rtc_once | done].
  - destruct Hstep as [e s s' Hen Hdis Hh].
    destruct (IH (measure s') Hlt s') as (s'' & Hrtc & Hc'');
      [apply (dstep_inv s); [done | econstructor; eauto] | by apply (handle_started e s) | done |].
    exists s''. split; [eapply rtc_l; [econstructor; eauto | done] | done].
Qed.

Lemma drun_played es s s' :
  inv s → drun es s = Some s' →
  length (filter (λ e, is_spin_end e = true) es) + length (playedParticipants (game s)) =
  length (playedParticipants (game s')).
Proof.
  revert s. induction es as [|e es IH]; intros s Hinv H; simpl in H; [by injection H as <- |].
  destruct (enabled e s) eqn:He, (disciplined e s) eqn:Hd; simpl in H; try discriminate.
  destruct (handle e s) as [s1|] eqn:Hh; [| discriminate].
  assert (inv s1) as Hinv1 by (eapply dstep_inv; [done | econstructor; eauto]).
  rewrite <- (IH s1 Hinv1 H). destruct e; try (rewrite filter_cons_False by (cbn; congruence);
    rewrite (proj1 (handle_quiet _ s s1 Hh ltac:(congruence))); done).
  rewrite filter_cons_True by done. simpl.
  destruct (inv_cases s Hinv) as (p & g & rot & tgt & res & -> & Hwf & Hros & Hpg).
  destruct p; simpl in He, Hpg, Hros; try discriminate. destruct Hpg as [[c Hc] Hcomp].
  destruct (animation_end_some g rot tgt res c Hwf (Hros eq_refl) Hc) as (g' & o & Hres & Hend).
  simpl in Hh. rewrite Hend in Hh. injection Hh as <-.
  pose proof (resolve_spin_progress g _ g' o Hwf (complete_false_lt g Hcomp) Hres) as (_ & HP & _).
  simpl. lia.
Qed.

(** [C9] Termination: along every disciplined run from the loaded page the
    number of completed spins equals the number of participants who have
    played, so it never exceeds the size of the roster. *)
Theorem spins_counted es s :
  drun es init = Some s →
  length (filter (λ e, is_spin_end e = true) es) = length (playedParticipants (game s)) ∧
  length (playedParticipants (game s)) ≤ length (participants (game s)).
Proof.
  intros H. pose proof (drun_played es init s init_inv H) as Hc. simpl in Hc.
  split; [lia |].
  assert (inv s) as Hinv by (apply reachable_inv; by eapply drun_rtc).
  apply NoDup_subset_length; [apply Hinv | apply Hinv].
Qed.

(** [C15] Editing the roster during play, which the page allows, breaks
    the end of the game: on any page showing a winner, replacing the
    textarea by names no more numerous than the players so far, and
    closing the modal, makes [closeModal]'s length test pass and the
    summary open with the new roster, although its names need never have
    played ([playedParticipants] is kept). *)
Theorem roster_edit_mid_game s text :
  reachable s → winnerOpen s = true →
  length (Names.parse_roster text) ≤ length (playedParticipants (game s)) →
  ∃ s', run [EvEdit text; EvCloseWinner; EvTimer 0] s = Some s' ∧ summaryOpen s' = true ∧
        participants (game s') = Names.parse_roster text ∧
        playedParticipants (game s') = playedParticipants (game s).
Proof.
  intros Hr Hw Hlen. destruct (inv_cases s (reachable_inv s Hr)) as (p & g & rot & tgt & res & -> & _).
  destruct p; simpl in Hw; try discriminate.
  cbn [run enabled handle]. unfold update_participants, close_modal, set_game, set_flags, set_pending.
  cbn [game winnerOpen pending]. unfold game_complete. cbn [participants playedParticipants set_participants].
  cbn [game] in Hlen. rewrite (proj2 (Nat.leb_le _ _) Hlen). cbn. eexists. split_and!; reflexivity.
Qed.

(** [C30] The counters of the page agree with each other: the players
    who spun plus those still to spin make the roster, and nobody is left
    to spin exactly when the game is complete. *)
Theorem count_display_consistent s :
  reachable s →
  (count_display (game s)).1.2 + (count_display (game s)).2 = (count_display (game s)).1.1 ∧
  ((count_display (game s)).2 = 0 ↔ game_complete (game s) = true).
Proof.
  intros Hr. pose proof (inv_wf _ (reachable_inv s Hr)) as Hwf. unfold count_display. simpl.
  rewrite (wf_available _ Hwf). unfold available_of.
  pose proof (filter_not_in_length (participants (game s)) (playedParticipants (game s))
    (wf_roster_nodup _ Hwf) (wf_played_nodup _ Hwf) (wf_played_sub _ Hwf)) as Hlen.
  unfold game_complete. rewrite Nat.leb_le. lia.
Qed.

(** ** The results list *)

Lemma parsed_names_ok text : Forall (λ x, x ≠ "") (Names.parse_roster text).
Proof.
  eapply Forall_impl; [apply Names.parse_roster_ok |].
  intros x [Hl _] ->. simpl in Hl. lia.
Qed.

Lemma dstep_names s s' : dstep s s' → names_ok s → names_ok s'.
Proof.
  destruct 1 as [e s s' _ _ Hh]. intros Hn. unfold names_ok.
  destruct (handle_roster e s s' Hh) as [-> | [text ->]]; [done | apply parsed_names_ok].
Qed.

Lemma spin_end_results s s' :
  inv s → names_ok s → isSpinning s = true → animation_end s = Some s' →
  results_faithful s → results_faithful s'.
Proof.
  intros Hinv Hn Hsp Hend Hf. pose proof Hinv as (p & g & rot & tgt & res & -> & Hwf & Hros & Hpg)%inv_cases.
  destruct p; simpl in Hsp; try discriminate. destruct Hpg as [_ Hcomp].
  unfold animation_end in Hend. simpl in Hend.
  destruct (resolve_spin g _) as [[g' o]|] eqn:Hres; [| discriminate]. injection Hend as <-.
  destruct (resolve_spin_outcome g _ g' o Hwf Hres) as (Hc & HgR & Hlog).
  destruct (wf_active g (o_player o) Hwf Hc) as (HpR & _).
  { by apply complete_false_lt. }
  unfold names_ok in Hn. rewrite Forall_forall in Hn. unfold results_faithful. simpl.
  unfold Results.record_outcome. destruct (o_swapped_with o) as [v|]; simpl;
    rewrite Results.add_result_named by auto; intros HF; inversion HF; simplify_eq/=.
  rewrite Hlog, Results.log_newest_first_snoc by done. f_equal. by apply Hf.
Qed.

Lemma dstep_results s s' :
  inv s → names_ok s → dstep s s' → results_faithful s → results_faithful s'.
Proof.
  intros Hinv Hn Hst Hf. inversion_clear Hst as [e ? ? Hen _ Hh].
  destruct e; try (destruct (handle_quiet _ _ _ Hh ltac:(congruence)) as (_ & Hlog & Hres);
    unfold results_faithful; rewrite Hres, Hlog; exact Hf).
  exact (spin_end_results s s' Hinv Hn Hen Hh Hf).
Qed.

Lemma reachable_results s : reachable s → names_ok s ∧ results_faithful s.
Proof.
  unfold reachable. intros H. remember init as s0 eqn:E.
  assert (inv s0 ∧ names_ok s0 ∧ results_faithful s0) as H0.
  { subst. split_and!; [apply init_inv | | by intros _].
    apply (bool_decide_eq_true_1 _). vm_compute. reflexivity. }
  clear E. induction H as [|x y z Hxy _ IH]; [tauto |]. apply IH.
  destruct H0 as (Hi & Hn & Hf).
  split_and!; [by apply (dstep_inv x) | by apply (dstep_names x) | by apply (dstep_results x)].
Qed.

(** [C11] As long as no swap has happened (no row carries a note), the
    results list shows exactly the assignment log, newest first: one row
    per spin, with its player and gift. *)
Theorem results_list_matches_log s :
  reachable s → Forall (λ it, Results.it_note it = None) (results s) →
  Results.shown (results s) = Results.log_newest_first (giftAssignments (game s)).
Proof. intros Hr. apply (reachable_results s Hr). Qed.

(** [C12] A swap rewrites the right row of the results list only by
    chance: [updateResultInList(victim, spinner)] changes the newest row
    whose HTML contains the victim's name, which is the victim's own row
    only if the victim played after whoever drew the victim's gift.  For
    every swap on a reachable page whose list still matches the log (and
    a victim whose name is not one of the list's labels), the list after
    the swap shows the log exactly when the newest pair of the log naming
    the victim is the victim's own. *)
Theorem swap_mislabels_results s i g' o v :
  reachable s → isSpinning s = true → Forall (λ it, Results.it_note it = None) (results s) →
  resolve_spin (game s) i = Some (g', o) → o_swapped_with o = Some v →
  v ≠ Results.label_player → v ≠ Results.label_gift → v ≠ Results.swapped_note →
  (Results.shown (Results.record_outcome (results s) o) = Results.log_newest_first (giftAssignments g') ↔
   fst <$> Results.first_mention v (Results.log_newest_first (giftAssignments (game s))) = Some v).
Proof.
  intros Hr Hsp Hnotes Hres Hv Hl1 Hl2 Hl3.
  destruct (reachable_results s Hr) as [Hn Hf]. specialize (Hf Hnotes).
  destruct (spinning_current s (reachable_inv s Hr) Hsp) as [Hwf (c0 & Hc0 & HcR & _)].
  destruct (resolve_spin_swapped _ _ _ _ _ Hres Hv) as (c & j & g & Hc & Hvc & Hj & Hasg & ->).
  rewrite Hc0 in Hc. injection Hc as <-.
  assert (g ∈ participants (game s)) as HgR.
  { apply (wf_claimed_sub _ Hwf). rewrite <- (wf_gifts _ Hwf).
    change g with (gift (mkAssignment v g)). apply list_elem_of_fmap_2. by eapply list_elem_of_lookup_2. }
  assert (NoDup (player <$> giftAssignments (game s))) as Hnd.
  { rewrite (wf_players _ Hwf). apply Hwf. }
  unfold names_ok in Hn. rewrite Forall_forall in Hn.
  unfold Results.record_outcome. cbn [o_swapped_with o_player o_gift fmap option_fmap option_map].
  rewrite Results.add_result_named by auto.
  rewrite Hasg, Results.log_newest_first_snoc, (Results.log_newest_first_regift _ j v g c0 Hnd Hj).
  unfold Results.shown at 1. cbn [fmap list_fmap Results.it_player Results.it_gift]. fold (Results.shown (Results.update_result (results s) v c0)).
  rewrite (Results.update_result_shown _ _ _ Hnotes Hl1 Hl2 Hl3), Hf.
  transitivity (Results.update_first v c0 (Results.log_newest_first (giftAssignments (game s))) =
                Results.regift v c0 (Results.log_newest_first (giftAssignments (game s))));
    [split; [by intros [= ?] | by intros ->] |].
  apply Results.update_first_regift.
  - by rewrite Results.fst_log_newest_first, reverse_Permutation.
  - apply Results.log_newest_first_no_self, Hwf.
  - done.
  - rewrite Results.fst_log_newest_first, elem_of_reverse.
    change v with (player (mkAssignment v g)). apply list_elem_of_fmap_2. by eapply list_elem_of_lookup_2.
Qed.

(** [C13] Two players never swap, and their game is the exchange of the
    two gifts: on every reachable page whose roster has two names, a
    running spin is never in swap mode, and a complete game's log is
    A→B, B→A in one order or the other.  The specification's section 8
    expects swap mode, and B keeping B's own gift, in this situation. *)
Theorem two_players_no_swap s a b :
  reachable s → participants (game s) = [a; b] →
  (isSpinning s = true → (spin_wheel (game s)).2 = false) ∧
  (game_complete (game s) = true →
   giftAssignments (game s) = [mkAssignment a b; mkAssignment b a] ∨
   giftAssignments (game s) = [mkAssignment b a; mkAssignment a b]).
Proof.
  intros Hr HR. pose proof (inv_wf _ (reachable_inv s Hr)) as Hwf. split.
  - intros Hsp. destruct (spinning_current s (reachable_inv s Hr) Hsp) as [_ (c & Hc & HcR & HcP)].
    apply (two_players_normal _ c); [done | by rewrite HR | done | done | done].
  - by apply two_players_complete.
Qed.

(** ** What the wheel shows *)

(** During a spin the wheel drawn is the wheel the winner is read from. *)
Lemma spinning_drawn_wheel s :
  inv s → names_ok s → isSpinning s = true →
  Drawing.drawn_wheel (game s) = (spin_wheel (game s)).1 ∧ (spin_wheel (game s)).1 ≠ [].
Proof.
  intros Hinv Hn Hsp. destruct (inv_cases s Hinv) as (p & g & rot & tgt & res & -> & Hwf & Hros & Hpg).
  destruct p; simpl in Hsp, Hros; try discriminate. destruct Hpg as [[c Hc] Hcomp]. simpl.
  destruct (wf_active g c Hwf Hc (complete_false_lt g Hcomp)) as (HcR & _).
  pose proof (spin_wheel_nonempty g (wf_roster_nodup _ Hwf) (Hros eq_refl)) as Hne.
  split; [| done]. unfold Drawing.drawn_wheel, Drawing.player_truthy. rewrite Hc.
  unfold names_ok in Hn. rewrite Forall_forall in Hn. simpl in Hn.
  rewrite (bool_decide_eq_false_2 _ (Hn c HcR)). simpl.
  destruct (spin_wheel_cases g) as [[Hnw Hsw]|[Hnw Hsw]]; rewrite Hsw in Hne |- *; simpl in Hne |- *.
  - destruct (normal_wheel g); [done | done].
  - rewrite Hnw, bool_decide_eq_true_2 by lia. by destruct (swap_wheel g).
Qed.

(** [C6] What the players see is what is recorded: when a spin ends,
    exactly one painted slice of the wheel lies under the pointer, its name
    is the name the engine reads at the computed index, and the spin is
    resolved with that index (the new game state and the new results list
    come from that resolution). *)
Theorem pointer_shows_winner s s' :
  reachable s → isSpinning s = true → handle EvAnimationEnd s = Some s' →
  ∃ k sl o, Drawing.draw_slices (targetRotation s) (Drawing.drawn_wheel (game s)) !! k = Some sl ∧
    Drawing.under_pointer sl ∧
    (∀ k' sl', Drawing.draw_slices (targetRotation s) (Drawing.drawn_wheel (game s)) !! k' = Some sl' →
               Drawing.under_pointer sl' → k' = k) ∧
    (spin_wheel (game s)).1 !! k = Some (Drawing.sl_name sl) ∧
    resolve_spin (game s) k = Some (game s', o) ∧ results s' = Results.record_outcome (results s) o.
Proof.
  intros Hr Hsp Hh. pose proof (reachable_inv s Hr) as Hinv.
  destruct (reachable_results s Hr) as [Hn _].
  destruct (spinning_drawn_wheel s Hinv Hn Hsp) as [Hd Hne]. rewrite Hd.
  destruct (Drawing.one_slice_under_pointer (targetRotation s) _ Hne) as (k & sl & Hsl & Hu & Hk & Huniq).
  destruct (Drawing.draw_slices_lookup _ _ k sl Hsl) as (name & Hname & _ & _ & _ & Hsn).
  simpl in Hh. unfold animation_end in Hh. rewrite Hk, Nat2Z.id in Hh.
  destruct (resolve_spin (game s) k) as [[g' o]|] eqn:Hres; [| discriminate]. injection Hh as <-.
  exists k, sl, o. rewrite Hsn. by split_and!.
Qed.

(** ** Refinement of the specification's engine *)

(** Events other than a roster edit and the end of a spin leave the
    roster, the played and claimed sets and the log alone. *)
Lemma handle_abs_quiet e s s' :
  handle e s = Some s' → is_spin_end e = false →
  (∀ text, e ≠ EvEdit text) → e ≠ EvResetDefaults →
  Spec.abs (game s') = Spec.abs (game s).
Proof.
  destruct e; simpl; unfold_handlers; intros H Hse Hne1 Hne2;
    repeat (case_match; simpl in *); simplify_eq/=; try done.
  all: exfalso; by eapply Hne1.
Qed.

(** A started page has left [Setup]; an unstarted one has not played. *)
Lemma setup_unplayed s : inv s → startHidden s = false → playedParticipants (game s) = [].
Proof.
  intros (p & g & rot & tgt & res & -> & _ & _ & Hpg)%inv_cases Hst.
  destruct p; simpl in Hst; try discriminate. apply Hpg.
Qed.

Lemma edit_refines s text :
  inv s → startHidden s = false →
  Spec.sstep (Spec.abs (game s)) (Spec.abs (game (update_participants s text))).
Proof.
  intros Hinv Hst.
  assert (Spec.abs (game (update_participants s text)) =
          Spec.set_roster (Spec.abs (game s)) (Names.parse_roster text)) as -> by reflexivity.
  apply Spec.sstep_set_roster.
  - by apply setup_unplayed.
  - apply Names.parse_roster_ok.
Qed.

(** [C7] Refinement: every disciplined event of the page either leaves the
    specification's view of the engine (roster, played and claimed sets,
    assignment log) unchanged, or performs one step of the
    specification's engine: [setRoster] with normalised names before
    anyone played, or [resolveSpin] for an unplayed participant of the
    roster with an index on the wheel. *)
Theorem page_refines_spec s s' :
  reachable s → dstep s s' →
  Spec.abs (game s') = Spec.abs (game s) ∨ Spec.sstep (Spec.abs (game s)) (Spec.abs (game s')).
Proof.
  intros Hr Hst. pose proof (reachable_inv s Hr) as Hinv.
  inversion_clear Hst as [e ? ? Hen Hdis Hh].
  destruct e; try (left; apply (handle_abs_quiet _ s s' Hh); [done | congruence | congruence]).
  - simpl in Hh, Hdis. injection Hh as <-. right. apply edit_refines; [done |].
    destruct (startHidden s); [discriminate | done].
  - simpl in Hh, Hdis. injection Hh as <-. right. apply edit_refines; [done |].
    destruct (startHidden s); [discriminate | done].
  - right. destruct (inv_cases s Hinv) as (p & g & rot & tgt & res & -> & Hwf & Hros & Hpg).
    destruct p; simpl in Hen; try discriminate. destruct Hpg as [[c Hc] Hcomp].
    pose proof (complete_false_lt g Hcomp) as Hlt.
    destruct (wf_active g c Hwf Hc Hlt) as (HcR & HcP & _).
    simpl in Hh. unfold animation_end in Hh. simpl in Hh.
    destruct (resolve_spin g _) as [[g' o]|] eqn:Hres; [| discriminate]. injection Hh as <-.
    exact (Spec.sstep_resolve (Spec.abs g) c _ _ HcR HcP (Spec.resolve_spin_refines g _ g' o c Hwf Hlt Hc Hres)).
Qed.

(** ** Witnesses *)

Lemma drun_reachable es s : drun es init = Some s → reachable s.
Proof. apply drun_rtc. Qed.

Lemma reachable_game_wf_witness :
  wf (game demo_ready) ∧
  (spinDisabled demo_ready = false ∨ isSpinning demo_ready = true →
   ∃ c, currentPlayer (game demo_ready) = Some c ∧ c ∈ participants (game demo_ready) ∧
        c ∉ playedParticipants (game demo_ready)).
Proof. apply reachable_game_wf, (drun_reachable ready_events). vm_compute. reflexivity. Defined.

Lemma summary_derangement_witness :
  summaryOpen demo_summary = true ∧
  player <$> giftAssignments (game demo_summary) ≡ₚ participants (game demo_summary) ∧
  gift <$> giftAssignments (game demo_summary) ≡ₚ participants (game demo_summary) ∧
  Forall (λ a, player a ≠ gift a) (giftAssignments (game demo_summary)) ∧
  length (giftAssignments (game demo_summary)) = length (participants (game demo_summary)).
Proof.
  split; [vm_compute; reflexivity |].
  apply summary_derangement; [apply (drun_reachable summary_events) | ]; vm_compute; reflexivity.
Defined.

Lemma selection_offers_unplayed_witness :
  selectOpen demo_select = true ∧ selectable_participants (game demo_select) ≠ [] ∧
  ∀ x, x ∈ selectable_participants (game demo_select) ↔
       x ∈ participants (game demo_select) ∧ x ∉ playedParticipants (game demo_select).
Proof.
  split; [vm_compute; reflexivity |].
  apply selection_offers_unplayed; [apply (drun_reachable select_events) | ]; vm_compute; reflexivity.
Defined.

Lemma spin_end_defined_witness :
  isSpinning demo_spinning = true ∧
  ∃ s', handle EvAnimationEnd demo_spinning = Some s' ∧ winnerOpen s' = true ∧
        length (playedParticipants (game s')) =
        S (length (playedParticipants (game demo_spinning))).
Proof.
  split; [vm_compute; reflexivity |].
  apply spin_end_defined; [apply (drun_reachable spinning_events) | ]; vm_compute; reflexivity.
Defined.

Lemma game_can_finish_witness :
  startHidden demo_ready = true ∧
  ∃ s', rtc dstep demo_ready s' ∧ game_complete (game s') = true.
Proof.
  split; [vm_compute; reflexivity |].
  apply game_can_finish; [apply (drun_reachable ready_events) | ]; vm_compute; reflexivity.
Defined.

Lemma spins_counted_witness :
  drun summary_events init = Some demo_summary ∧
  length (filter (λ e, is_spin_end e = true) summary_events) =
    length (playedParticipants (game demo_summary)) ∧
  length (playedParticipants (game demo_summary)) ≤ length (participants (game demo_summary)).
Proof.
  assert (drun summary_events init = Some demo_summary) as H by (vm_compute; reflexivity).
  split; [exact H | exact (spins_counted summary_events demo_summary H)].
Defined.

Lemma results_list_matches_log_witness :
  Forall (λ it, Results.it_note it = None) (results demo_summary) ∧
  Results.shown (results demo_summary) =
    Results.log_newest_first (giftAssignments (game demo_summary)).
Proof.
  assert (Forall (λ it, Results.it_note it = None) (results demo_summary)) as H
    by (apply (bool_decide_eq_true_1 _); vm_compute; reflexivity).
  split; [exact H |].
  apply results_list_matches_log; [apply (drun_reachable summary_events); vm_compute; reflexivity | exact H].
Defined.

Lemma pointer_shows_winner_witness :
  isSpinning demo_spinning = true ∧ handle EvAnimationEnd demo_spinning = Some demo_spun ∧
  ∃ k sl o, Drawing.draw_slices (targetRotation demo_spinning) (Drawing.drawn_wheel (game demo_spinning)) !! k = Some sl ∧
    Drawing.under_pointer sl ∧
    (∀ k' sl', Drawing.draw_slices (targetRotation demo_spinning)
                 (Drawing.drawn_wheel (game demo_spinning)) !! k' = Some sl' →
               Drawing.under_pointer sl' → k' = k) ∧
    (spin_wheel (game demo_spinning)).1 !! k = Some (Drawing.sl_name sl) ∧
    resolve_spin (game demo_spinning) k = Some (game demo_spun, o) ∧
    results demo_spun = Results.record_outcome (results demo_spinning) o.
Proof.
  assert (isSpinning demo_spinning = true) as H1 by (vm_compute; reflexivity).
  assert (handle EvAnimationEnd demo_spinning = Some demo_spun) as H2 by (vm_compute; reflexivity).
  split; [exact H1 |]. split; [exact H2 |].
  apply (pointer_shows_winner demo_spinning demo_spun); [| exact H1 | exact H2].
  apply (drun_reachable spinning_events). vm_compute. reflexivity.
Defined.

Lemma page_refines_spec_witness :
  dstep demo_spinning demo_spun ∧
  (Spec.abs (game demo_spun) = Spec.abs (game demo_spinning) ∨
   Spec.sstep (Spec.abs (game demo_spinning)) (Spec.abs (game demo_spun))).
Proof.
  assert (dstep demo_spinning demo_spun) as H
    by (apply (dstep_event EvAnimationEnd); vm_compute; reflexivity).
  split; [exact H |].
  apply (page_refines_spec demo_spinning demo_spun); [| exact H].
  apply (drun_reachable spinning_events). vm_compute. reflexivity.
Defined.

Lemma count_display_consistent_witness :
  (count_display (game demo_ready)).1.2 + (count_display (game demo_ready)).2 =
    (count_display (game demo_ready)).1.1 ∧
  ((count_display (game demo_ready)).2 = 0 ↔ game_complete (game demo_ready) = true).
Proof.
  apply count_display_consistent, (drun_reachable ready_events). vm_compute. reflexivity.
Defined.

Lemma swap_mislabels_results_witness :
  (Results.shown (Results.record_outcome (results demo_swap) demo_swap_resolved.2) =
     Results.log_newest_first (giftAssignments demo_swap_resolved.1) ↔
   fst <$> Results.first_mention "A" (Results.log_newest_first (giftAssignments (game demo_swap))) =
     Some "A").
Proof.
  apply (swap_mislabels_results demo_swap 0).
  - apply (drun_reachable swap_events). vm_compute. reflexivity.
  - vm_compute. reflexivity.
  - apply (bool_decide_eq_true_1 _). vm_compute. reflexivity.
  - vm_compute. reflexivity.
  - vm_compute. reflexivity.
  - vm_compute. discriminate.
  - vm_compute. discriminate.
  - vm_compute. discriminate.
Defined.

Lemma two_players_no_swap_witness :
  (isSpinning demo_pair = true → (spin_wheel (game demo_pair)).2 = false) ∧
  (game_complete (game demo_pair) = true →
   giftAssignments (game demo_pair) = [mkAssignment "A" "B"; mkAssignment "B" "A"] ∨
   giftAssignments (game demo_pair) = [mkAssignment "B" "A"; mkAssignment "A" "B"]).
Proof.
  apply (two_players_no_swap demo_pair "A" "B").
  - apply (drun_reachable pair_events). vm_compute. reflexivity.
  - vm_compute. reflexivity.
Defined.

Lemma roster_edit_mid_game_witness :
  ∃ s', run [EvEdit "X"; EvCloseWinner; EvTimer 0] demo_spun = Some s' ∧ summaryOpen s' = true ∧
        participants (game s') = Names.parse_roster "X" ∧
        playedParticipants (game s') = playedParticipants (game demo_spun).
Proof.
  apply roster_edit_mid_game.
  - apply (drun_reachable (spinning_events ++ [EvAnimationEnd])). vm_compute. reflexivity.
  - vm_compute. reflexivity.
  - vm_compute. lia.
Defined.

End Run.
