(* ===== verification/Animation.v ===== *)
(** * The spin animation of [startSpin]

    [startSpin] (lines 422-434) draws the duration ([6000 + 2000 u0] ms),
    the extra turns ([5 + 5 u1]) and the final angle ([u2] of a turn), and
    starts the frame callback [animate] (lines 436-502).  Each frame sets
    [rotation] by a quartic ease-out of the elapsed time, counts the slice
    boundaries passed since the last frame (a tick sound and a kick to the
    pointer), moves the pointer by a damped spring clamped to
    [-90..10] degrees, and either requests another frame or, once the
    progress reaches [1], sets [rotation] to the target, clears
    [isSpinning] and calls [handleSpinComplete].

    [anim] holds the closure's variables and the globals the frames write;
    [animate] is one frame, [run_frames] the frames delivered at given
    times until the last one.  Angles of the wheel are in turns, the
    pointer's in degrees; numbers are exact rationals.  The theorems: the
    pointer stays in its range with a bounded velocity, the rotation moves
    monotonically from the start to the target, and the animation ends
    after finitely many frames at the target rotation the controller's
    [EvAnimationEnd] uses, which justifies collapsing the frames into that
    one event. *)

From Stdlib Require Import QArith Qround ZArith Lia Lqa.
From stdpp Require Import base list sets.
From S2P Require Import Prelude Engine Wheel Results Controller Run.

Module Animation.

Import Engine Controller Run.

Local Open Scope Q_scope.

Record anim := mkAnim {
  an_names : nat;
  an_duration : Q;
  an_start_rotation : Q;
  an_target : Q;
  an_start_time : Q;
  an_rotation : Q;
  an_last_rotation : Q;
  an_pointer_angle : Q;
  an_pointer_velocity : Q;
  an_ticks_played : nat;
  an_spinning : bool
}.

(** Lines 422-433, for a wheel of [n] names, a current [rotation], the
    time [now] and the three [Math.random()] draws. *)
Definition start_animation (rotation now : Q) (n : nat) (u0 u1 u2 : Q) : anim :=
  let duration := 6000 + u0 * 2000 in
  let extraSpins := 5 + u1 * 5 in
  let randomAngle := u2 in
  let targetRotation := rotation + extraSpins + randomAngle in
  mkAnim n duration rotation targetRotation now rotation rotation 0 0 0 true.

(** [Math.min(x, y)] on numbers. *)
Definition js_min (x y : Q) : Q := if Qle_bool x y then x else y.

(** Lines 437-438. *)
Definition progress_at (a : anim) (currentTime : Q) : Q :=
  js_min ((currentTime - an_start_time a) / an_duration a) 1.

(** [1 - Math.pow(1 - progress, 4)], line 441. *)
Definition ease (progress : Q) : Q :=
  let r := 1 - progress in 1 - r * r * r * r.

(** Line 444. *)
Definition frame_rotation (a : anim) (currentTime : Q) : Q :=
  an_start_rotation a + (an_target a - an_start_rotation a) * ease (progress_at a currentTime).

(** [Math.floor((rotation + offset) / sliceAngle)], lines 447-451: the
    offset is a quarter turn. *)
Definition tick_index (n : nat) (rot : Q) : Z :=
  Qfloor ((rot + (1 # 4)) / (1 / inject_Z (Z.of_nat n))).

(** Lines 454-480: the kick of passed ticks, the damped spring and the
    two clamps, on the pointer's angle and velocity. *)
Definition spring (angle velocity : Q) (ticksPassed : Z) : Q * Q :=
  let v1 := if (0 <? ticksPassed)%Z then velocity - 25 * inject_Z (Z.min ticksPassed 2) else velocity in
  let acceleration := (0 - angle) * (1 # 2) in
  let v2 := (v1 + acceleration) * (3 # 4) in
  let a1 := angle + v2 in
  let '(a2, v3) := if Wheel.Qltb a1 (-90) then (-90, 0) else (a1, v2) in
  if Wheel.Qltb 10 a2 then (10, v3 * (-15 # 1000)) else (a2, v3).

(** One call of [animate(currentTime)], lines 436-502. *)
Definition animate (a : anim) (currentTime : Q) : anim :=
  let progress := progress_at a currentTime in
  let rotation := frame_rotation a currentTime in
  let ticksPassed := (tick_index (an_names a) rotation - tick_index (an_names a) (an_last_rotation a))%Z in
  let played := if (0 <? ticksPassed)%Z then S (an_ticks_played a) else an_ticks_played a in
  let '(angle, velocity) := spring (an_pointer_angle a) (an_pointer_velocity a) ticksPassed in
  if Wheel.Qltb progress 1 then
    mkAnim (an_names a) (an_duration a) (an_start_rotation a) (an_target a) (an_start_time a)
      rotation rotation angle velocity played true
  else
    mkAnim (an_names a) (an_duration a) (an_start_rotation a) (an_target a) (an_start_time a)
      (an_target a) rotation angle velocity played false.

(** The frames delivered at the given times, while frames are requested. *)
Fixpoint run_frames (a : anim) (times : list Q) : anim :=
  match times with
  | [] => a
  | t :: ts => if an_spinning a then run_frames (animate a t) ts else a
  end.

(** Frames every [delta] milliseconds after [now]. *)
Definition frame_times (now delta : Q) (count : nat) : list Q :=
  (λ k, now + inject_Z (Z.of_nat k) * delta) <$> seq 1 count.

(** The pointer's range and a bound on its velocity. *)
Definition pointer_ok (a : anim) : Prop :=
  -90 <= an_pointer_angle a <= 10 ∧ -165 <= an_pointer_velocity a <= 135.

(** ** Arithmetic *)

Ltac qltb_cases :=
  repeat match goal with
  | |- context [Wheel.Qltb ?x ?y] =>
      let E := fresh "E" in
      destruct (Wheel.Qltb x y) eqn:E; [apply Wheel.Qltb_iff in E | apply Wheel.Qltb_false in E]
  end.

Lemma kick_bounds ticks : (0 < ticks)%Z → 1 <= inject_Z (Z.min ticks 2) <= 2.
Proof.
  intros H. change 1 with (inject_Z 1). change 2 with (inject_Z 2).
  rewrite <- !Zle_Qle. lia.
Qed.

(** The spring keeps the pointer in range and its velocity bounded: a
    kick takes at most 50 off the velocity, the pull adds at most 45, and
    the damping by [3/4] brings any velocity in [-220..180] back into
    [-165..135]. *)
Lemma spring_bounds angle velocity ticks :
  -90 <= angle <= 10 → -165 <= velocity <= 135 →
  -90 <= (spring angle velocity ticks).1 <= 10 ∧ -165 <= (spring angle velocity ticks).2 <= 135.
Proof.
  intros Ha Hv. unfold spring. cbv zeta.
  destruct (0 <? ticks)%Z eqn:Ht.
  - apply Z.ltb_lt, kick_bounds in Ht. qltb_cases; simpl; lra.
  - qltb_cases; simpl; lra.
Qed.

Lemma js_min_cases x y : (x <= y ∧ js_min x y = x) ∨ (y < x ∧ js_min x y = y).
Proof.
  unfold js_min. destruct (Qle_bool x y) eqn:E.
  - left. split; [by apply Qle_bool_iff | done].
  - right. split; [| done]. apply Qnot_le_lt. intros H. apply Qle_bool_iff in H. congruence.
Qed.

Lemma pow4_mono x y : 0 <= x <= y → x * x * x * x <= y * y * y * y.
Proof.
  intros [Hx Hxy].
  assert (x * x <= y * y) as H2 by (apply Qmult_le_compat_nonneg; lra).
  assert (0 <= x * x) as H2' by (apply Qmult_le_0_compat; lra).
  assert (x * x * x <= y * y * y) as H3 by (apply Qmult_le_compat_nonneg; lra).
  assert (0 <= x * x * x) by (apply Qmult_le_0_compat; lra).
  apply Qmult_le_compat_nonneg; lra.
Qed.

Lemma ease_mono p q : 0 <= p <= q → q <= 1 → 0 <= ease p ∧ ease p <= ease q ∧ ease q <= 1.
Proof.
  intros Hpq Hq. unfold ease. cbv zeta.
  pose proof (pow4_mono (1 - q) (1 - p) ltac:(lra)) as H1.
  pose proof (pow4_mono (1 - p) 1 ltac:(lra)) as H2.
  pose proof (pow4_mono 0 (1 - q) ltac:(lra)) as H3.
  change (0 * 0 * 0 * 0) with 0 in H3. change (1 * 1 * 1 * 1) with 1 in H2. lra.
Qed.

Lemma progress_mono a t t' :
  0 < an_duration a → an_start_time a <= t <= t' →
  0 <= progress_at a t ∧ progress_at a t <= progress_at a t' ∧ progress_at a t' <= 1.
Proof.
  intros Hd Ht. unfold progress_at, Qdiv.
  assert (0 < / an_duration a) as Hi by (apply Qinv_lt_0_compat; lra).
  assert (0 <= (t - an_start_time a) * / an_duration a) by (apply Qmult_le_0_compat; lra).
  assert ((t - an_start_time a) * / an_duration a <= (t' - an_start_time a) * / an_duration a)
    by (apply Qmult_le_compat_r; lra).
  destruct (js_min_cases ((t - an_start_time a) * / an_duration a) 1) as [[? ->]|[? ->]];
  destruct (js_min_cases ((t' - an_start_time a) * / an_duration a) 1) as [[? ->]|[? ->]]; lra.
Qed.

(** ** One frame *)

Lemma animate_pointer a t : pointer_ok a → pointer_ok (animate a t).
Proof.
  intros [Ha Hv]. unfold animate. cbv zeta.
  destruct (spring _ _ _) as [ang vel] eqn:Hs.
  pose proof (spring_bounds (an_pointer_angle a) (an_pointer_velocity a)
    (tick_index (an_names a) (frame_rotation a t) - tick_index (an_names a) (an_last_rotation a)) Ha Hv)
    as Hb.
  rewrite Hs in Hb. simpl in Hb. by destruct (Wheel.Qltb _ 1).
Qed.

(** A frame keeps the parameters of the spin. *)
Lemma animate_params a t :
  an_names (animate a t) = an_names a ∧ an_duration (animate a t) = an_duration a ∧
  an_start_rotation (animate a t) = an_start_rotation a ∧ an_target (animate a t) = an_target a ∧
  an_start_time (animate a t) = an_start_time a.
Proof. unfold animate. cbv zeta. destruct (spring _ _ _). by destruct (Wheel.Qltb _ 1). Qed.

(** The last frame sets the target rotation. *)
Lemma animate_stop a t :
  an_spinning (animate a t) = false → an_rotation (animate a t) = an_target a.
Proof. unfold animate. cbv zeta. destruct (spring _ _ _). by destruct (Wheel.Qltb _ 1). Qed.

Lemma animate_last a t :
  1 <= (t - an_start_time a) / an_duration a → an_spinning (animate a t) = false.
Proof.
  intros H. unfold animate, progress_at. cbv zeta. destruct (spring _ _ _).
  destruct (js_min_cases ((t - an_start_time a) / an_duration a) 1) as [[? ->]|[? ->]];
    qltb_cases; simpl; try done; lra.
Qed.

(** ** Runs of frames *)

Lemma run_frames_stop a times t :
  an_spinning a = true → t ∈ times → 1 <= (t - an_start_time a) / an_duration a →
  an_spinning (run_frames a times) = false ∧ an_rotation (run_frames a times) = an_target a.
Proof.
  revert a. induction times as [|t' ts IH]; intros a Hs Ht Hp; [set_solver |].
  simpl. rewrite Hs. destruct (an_spinning (animate a t')) eqn:Hs'.
  - destruct (animate_params a t') as (_ & Hd & _ & Htg & Ht0).
    apply elem_of_cons in Ht as [->|Ht].
    + by rewrite animate_last in Hs'.
    + rewrite <- Htg. apply IH; [done | done |]. by rewrite Hd, Ht0.
  - destruct ts; simpl; by rewrite Hs', animate_stop.
Qed.

Lemma run_frames_pointer a times : pointer_ok a → pointer_ok (run_frames a times).
Proof.
  revert a. induction times as [|t ts IH]; intros a H; simpl; [done |].
  destruct (an_spinning a); [apply IH, animate_pointer, H | done].
Qed.

(** Frames every [delta] ms reach the end of a spin: the frame at
    [now + N delta] with [N = ceil(duration / delta)] has progress [1]. *)
Lemma animation_completes rotation now n u0 u1 u2 delta :
  0 <= u0 → 0 < delta →
  an_spinning (run_frames (start_animation rotation now n u0 u1 u2)
     (frame_times now delta (Z.to_nat (Qceiling ((6000 + u0 * 2000) / delta))))) = false ∧
  an_rotation (run_frames (start_animation rotation now n u0 u1 u2)
     (frame_times now delta (Z.to_nat (Qceiling ((6000 + u0 * 2000) / delta))))) =
    rotation + (5 + u1 * 5) + u2.
Proof.
  intros Hu0 Hdelta. set (d := 6000 + u0 * 2000). set (N := Qceiling (d / delta)).
  assert (d / delta <= inject_Z N) as HN by apply Qle_ceiling.
  assert (0 < d) as Hd by (unfold d; lra).
  assert (0 < d / delta) as Hpos.
  { unfold Qdiv. apply Qmult_lt_0_compat; [done | by apply Qinv_lt_0_compat]. }
  assert (0 < N)%Z as HN0 by (rewrite Zlt_Qlt; change (inject_Z 0) with 0; lra).
  apply (run_frames_stop (start_animation rotation now n u0 u1 u2) _
    (now + inject_Z (Z.of_nat (Z.to_nat N)) * delta)); [done | |].
  - apply list_elem_of_fmap. exists (Z.to_nat N). split; [done |]. apply elem_of_seq. lia.
  - simpl. rewrite Z2Nat.id by lia. apply Qle_shift_div_l; [done |].
    assert (d / delta * delta == d) as E by (field; lra).
    assert (d / delta * delta <= inject_Z N * delta) by (apply Qmult_le_compat_r; lra).
    unfold d in *. lra.
Qed.

(** ** Properties of the animation *)

(** [C25] Whatever the frame times, the pointer stays within its clamps
    [-90..10] degrees and its velocity within [-165..135]: the spring of
    lines 462-480 never lets it run away. *)
Theorem pointer_stays_in_range rotation now n u0 u1 u2 times :
  pointer_ok (run_frames (start_animation rotation now n u0 u1 u2) times).
Proof. apply run_frames_pointer. unfold pointer_ok. simpl. lra. Qed.

(** [C24] For frames at or after the start time, the wheel turns
    monotonically: each frame's rotation (line 444) lies between the start
    and the target rotation, and later frames are turned at least as far. *)
Theorem frame_rotation_monotone a t t' :
  0 < an_duration a → an_start_rotation a <= an_target a → an_start_time a <= t <= t' →
  an_start_rotation a <= frame_rotation a t ∧ frame_rotation a t <= frame_rotation a t' ∧
  frame_rotation a t' <= an_target a.
Proof.
  intros Hd Hst Ht. destruct (progress_mono a t t' Hd Ht) as (H0 & H1 & H2).
  destruct (ease_mono _ _ (conj H0 H1) H2) as (E0 & E1 & E2).
  unfold frame_rotation. set (D := an_target a - an_start_rotation a).
  assert (0 <= D) by (unfold D; lra).
  assert (0 <= D * ease (progress_at a t)) by (apply Qmult_le_0_compat; lra).
  assert (D * ease (progress_at a t) <= D * ease (progress_at a t')) by (apply Qmult_le_compat_nonneg; lra).
  assert (D * ease (progress_at a t') <= D * 1) by (apply Qmult_le_compat_nonneg; lra).
  unfold D in *. lra.
Qed.

(** [C23] Refinement of the frame loop by [EvAnimationEnd]: a click that
    starts a spin sets [isSpinning], and the frames of [startSpin],
    delivered every [delta] ms, stop after [ceil(duration / delta)] frames
    with the spinning flag cleared and the wheel at exactly the target
    rotation the controller's [startSpin] recorded, which is the state
    [animation_end] resumes from. *)
Theorem spin_animation_ends_at_target s u0 u1 u2 now delta :
  isSpinning s = false → is_Some (currentPlayer (game s)) → (spin_wheel (game s)).1 ≠ [] →
  0 <= u0 → 0 < delta →
  isSpinning (handle_spin_click s u1 u2) = true ∧
  an_spinning (run_frames (start_animation (rotation s) now (length (spin_wheel (game s)).1) u0 u1 u2)
     (frame_times now delta (Z.to_nat (Qceiling ((6000 + u0 * 2000) / delta))))) = false ∧
  an_rotation (run_frames (start_animation (rotation s) now (length (spin_wheel (game s)).1) u0 u1 u2)
     (frame_times now delta (Z.to_nat (Qceiling ((6000 + u0 * 2000) / delta))))) =
    targetRotation (handle_spin_click s u1 u2).
Proof.
  intros Hsp [c Hc] Hne Hu0 Hdelta. unfold handle_spin_click, start_spin. rewrite Hsp, Hc.
  destruct (spin_wheel (game s)).1 as [|x xs]; [done |]. simpl.
  split; [done |]. apply animation_completes; done.
Qed.

(** ** Witnesses *)

Lemma frame_rotation_monotone_witness :
  0 < an_duration (start_animation 0 0 3 (1#2) (1#2) (1#2)) ∧
  an_start_rotation (start_animation 0 0 3 (1#2) (1#2) (1#2)) <=
    an_target (start_animation 0 0 3 (1#2) (1#2) (1#2)) ∧
  an_start_time (start_animation 0 0 3 (1#2) (1#2) (1#2)) <= 1000 <= 5000 ∧
  an_start_rotation (start_animation 0 0 3 (1#2) (1#2) (1#2)) <=
    frame_rotation (start_animation 0 0 3 (1#2) (1#2) (1#2)) 1000 ∧
  frame_rotation (start_animation 0 0 3 (1#2) (1#2) (1#2)) 1000 <=
    frame_rotation (start_animation 0 0 3 (1#2) (1#2) (1#2)) 5000 ∧
  frame_rotation (start_animation 0 0 3 (1#2) (1#2) (1#2)) 5000 <=
    an_target (start_animation 0 0 3 (1#2) (1#2) (1#2)).
Proof.
  assert (0 < an_duration (start_animation 0 0 3 (1#2) (1#2) (1#2))) as H1 by (simpl; lra).
  assert (an_start_rotation (start_animation 0 0 3 (1#2) (1#2) (1#2)) <=
          an_target (start_animation 0 0 3 (1#2) (1#2) (1#2))) as H2 by (simpl; lra).
  assert (an_start_time (start_animation 0 0 3 (1#2) (1#2) (1#2)) <= 1000 <= 5000) as H3 by (simpl; lra).
  split; [exact H1 |]. split; [exact H2 |]. split; [exact H3 |].
  exact (frame_rotation_monotone _ 1000 5000 H1 H2 H3).
Defined.

Lemma spin_animation_ends_at_target_witness :
  isSpinning demo_ready = false ∧ is_Some (currentPlayer (game demo_ready)) ∧
  (spin_wheel (game demo_ready)).1 ≠ [] ∧
  isSpinning (handle_spin_click demo_ready 0 0) = true ∧
  an_spinning (run_frames (start_animation (rotation demo_ready) 0 (length (spin_wheel (game demo_ready)).1)
     (1#2) 0 0) (frame_times 0 16 (Z.to_nat (Qceiling ((6000 + (1#2) * 2000) / 16))))) = false ∧
  an_rotation (run_frames (start_animation (rotation demo_ready) 0 (length (spin_wheel (game demo_ready)).1)
     (1#2) 0 0) (frame_times 0 16 (Z.to_nat (Qceiling ((6000 + (1#2) * 2000) / 16))))) =
    targetRotation (handle_spin_click demo_ready 0 0).
Proof.
  assert (isSpinning demo_ready = false) as H1 by (vm_compute; reflexivity).
  assert (is_Some (currentPlayer (game demo_ready))) as H2 by (eexists; vm_compute; reflexivity).
  assert ((spin_wheel (game demo_ready)).1 ≠ []) as H3 by (vm_compute; discriminate).
  split; [exact H1 |]. split; [exact H2 |]. split; [exact H3 |].
  apply (spin_animation_ends_at_target demo_ready (1#2) 0 0 0 16 H1 H2 H3); lra.
Defined.

End Animation.
