(* ===== verification/Audio.v ===== *)
(** * Sound: [initAudio], [playTickSound] and [playFanfare]

    The page keeps two globals for sound (lines 721-722): [audioContext],
    created on the first user gesture by [initAudio] (lines 724-732), and
    [isSoundEnabled], cleared for good when the [AudioContext] constructor
    throws.  [playTickSound] (lines 734-755) and [playFanfare]
    (lines 757-814) schedule oscillator notes on the context's clock; a
    note is its frequency, waveform, start and stop times and peak volume
    (the gain envelope ramps from the peak to [0.001] at the stop time).
    Whether the constructor throws, [audioContext.currentTime], the
    context's [state] and the [Math.random()] draw are parameters; numbers
    are exact rationals.

    The theorems: the fanfare is
    22 notes inside its first 2.92 s, with the delayed twinkle 1.42 s
    after the call, while the final chord still sounds (the comment says
    "at the end"); once the constructor has thrown, no later call, even
    one whose construction succeeds, plays anything. *)

From Stdlib Require Import QArith Lqa.
From stdpp Require Import base list.
From S2P Require Import Prelude.

Module Audio.

Local Open Scope Q_scope.

(** [osc.type]. *)
Inductive wave := Sine | Square | Sawtooth | Triangle.

#[export] Instance wave_eq_dec : EqDecision wave.
Proof. solve_decision. Defined.

Record note := mkNote {
  n_freq : Q;
  n_wave : wave;
  n_start : Q;
  n_stop : Q;
  n_volume : Q
}.

Record audio := mkAudio {
  audioContext : bool;
  isSoundEnabled : bool
}.

(** Lines 721-722. *)
Definition audio_init : audio := mkAudio false true.

(** [initAudio], lines 724-732; [supported] says whether
    [new AudioContext()] returns instead of throwing. *)
Definition init_audio (supported : bool) (a : audio) : audio :=
  if audioContext a then a
  else if supported then mkAudio true (isSoundEnabled a)
  else mkAudio false false.

(** The guard [if (!isSoundEnabled || !audioContext) return;]
    of lines 735 and 758. *)
Definition can_play (a : audio) : bool := isSoundEnabled a && audioContext a.

(** [playNote(freq, type, duration, time, volume)], lines 763-774. *)
Definition play_note (freq : Q) (type : wave) (duration time volume : Q) : note :=
  mkNote freq type time (time + duration) volume.

(** [playTickSound], lines 734-755, at [now = audioContext.currentTime]
    with the draw [u] of [Math.random()]. *)
Definition play_tick_sound (a : audio) (now u : Q) : list note :=
  if can_play a then [play_note (800 + (u * 200 - 100)) Triangle (5#100) now (15#100)]
  else [].

(** The note frequencies of lines 777-778 that the fanfare uses. *)
Definition C4 : Q := 26163 # 100.
Definition E4 : Q := 32963 # 100.
Definition G4 : Q := 392.
Definition C5 : Q := 52325 # 100.
Definition E5 : Q := 65925 # 100.
Definition G5 : Q := 78399 # 100.
Definition C6 : Q := 10465 # 10.

Definition fanfare_run : list Q := [C4; E4; G4; C5; E5; G5; C6].
Definition fanfare_chord : list Q := [C5; E5; G5; C6].

(** A chord hit: the chord in triangle waves and one sawtooth bass note. *)
Definition chord_hit (duration t volume bass bass_volume : Q) : list note :=
  ((λ f, play_note f Triangle duration t volume) <$> fanfare_chord) ++
  [play_note bass Sawtooth duration t bass_volume].

(** [playFanfare] at [now], lines 757-814: the notes it schedules and the
    delay in ms of the [setTimeout] of lines 809-813, or nothing when
    sound is off. *)
Definition play_fanfare (a : audio) (now : Q) : list note * option Q :=
  if can_play a then
    let arpeggio := imap (λ i f, play_note f Square (1#10) (now + inject_Z (Z.of_nat i) * (6#100)) (5#100))
                      fanfare_run in
    let t1 := now + inject_Z (Z.of_nat (length fanfare_run)) * (6#100) in
    let t2 := t1 + (25#100) in
    let t3 := t2 + (25#100) in
    (arpeggio ++ chord_hit (3#10) t1 (8#100) C4 (1#10) ++ chord_hit (3#10) t2 (8#100) G4 (1#10)
       ++ chord_hit 2 t3 (1#10) (C4 / 2) (15#100),
     Some ((t3 - now + (5#10)) * 1000))
  else ([], None).

(** The timeout's callback, lines 810-812, at the context's [currentTime]
    and with its [state] being ['running'] or not. *)
Definition fanfare_twinkle (running : bool) (currentTime : Q) : list note :=
  if running then [play_note (C6 * (3#2)) Sine (5#10) currentTime (5#100)] else [].

(** A sequence of [initAudio] calls, one flag per call. *)
Definition init_audio_calls (calls : list bool) (a : audio) : audio :=
  foldl (λ a supported, init_audio supported a) a calls.

(** ** Lemmas *)

Lemma init_audio_disabled supported a :
  isSoundEnabled a = false → isSoundEnabled (init_audio supported a) = false.
Proof. unfold init_audio. by destruct (audioContext a), supported. Qed.

Lemma init_audio_calls_disabled calls a :
  isSoundEnabled a = false → isSoundEnabled (init_audio_calls calls a) = false.
Proof.
  revert a. induction calls as [|b calls IH]; intros a Ha; [done |].
  apply IH, init_audio_disabled, Ha.
Qed.

Lemma can_play_disabled a : isSoundEnabled a = false → can_play a = false.
Proof. unfold can_play. by intros ->. Qed.

Lemma play_fanfare_length a now : can_play a = true → length (play_fanfare a now).1 = 22%nat.
Proof. unfold play_fanfare. by intros ->. Qed.

Lemma init_audio_supported a :
  isSoundEnabled a = true → can_play (init_audio true a) = true.
Proof. unfold init_audio, can_play. destruct (audioContext a) eqn:E; simpl; by intros ->; rewrite ?E. Qed.

Lemma init_audio_keeps a supported :
  can_play a = true → init_audio supported a = a.
Proof. unfold can_play, init_audio. by intros [_ ->]%andb_true_iff. Qed.

(** ** Theorems *)

(** [C32] With sound on, [playFanfare] schedules 22 notes, all starting
    within 0.92 s of the call and stopping by 2.92 s, the final chord
    stopping exactly then; the twinkle's timeout is 1420 ms, which falls
    1.5 s before the end of the fanfare rather than at its end. *)
Theorem fanfare_schedule a now :
  can_play a = true →
  ∃ ns d, play_fanfare a now = (ns, Some d) ∧ length ns = 22%nat ∧
    Forall (λ n, now <= n_start n <= now + (92#100) ∧ n_stop n <= now + (292#100)) ns ∧
    Exists (λ n, n_stop n == now + (292#100)) ns ∧
    d == 1420.
Proof.
  intros Hp. unfold play_fanfare. rewrite Hp.
  eexists _, _. split; [reflexivity |]. split; [reflexivity |].
  cbn -[Qplus Qmult Qdiv Qminus inject_Z]. cbv [Z.of_nat inject_Z Pos.of_succ_nat Pos.succ].
  split; [repeat (constructor; [cbv [n_start n_stop play_note];
                                 repeat split; lra |]); constructor |].
  split; [do 17 apply Exists_cons_tl; apply Exists_cons_hd;
          cbv [n_stop play_note]; lra |].
  lra.
Qed.

(** [C31] Once [new AudioContext()] has thrown, sound stays off: after any
    later [initAudio] calls, including ones whose construction succeeds,
    neither [playTickSound] nor [playFanfare] schedules a note. *)
Theorem audio_unsupported_silent a calls now u :
  audioContext a = false →
  let a' := init_audio_calls calls (init_audio false a) in
  play_tick_sound a' now u = [] ∧ play_fanfare a' now = ([], None).
Proof.
  intros Hc a'. assert (can_play a' = false) as Hp.
  { apply can_play_disabled, init_audio_calls_disabled. unfold init_audio. by rewrite Hc. }
  unfold play_tick_sound, play_fanfare. by rewrite Hp.
Qed.

(** ** Witnesses *)

Lemma fanfare_schedule_witness :
  ∃ ns d, play_fanfare (init_audio true audio_init) 5 = (ns, Some d) ∧ length ns = 22%nat ∧
    Forall (λ n, 5 <= n_start n <= 5 + (92#100) ∧ n_stop n <= 5 + (292#100)) ns ∧
    Exists (λ n, n_stop n == 5 + (292#100)) ns ∧
    d == 1420.
Proof. apply fanfare_schedule. reflexivity. Defined.

Lemma audio_unsupported_silent_witness :
  play_tick_sound (init_audio_calls [true; true] (init_audio false audio_init)) 0 (1#2) = [] ∧
  play_fanfare (init_audio_calls [true; true] (init_audio false audio_init)) 0 = ([], None).
Proof. apply (audio_unsupported_silent audio_init [true; true] 0 (1#2)). reflexivity. Defined.

End Audio.
