(* ===== verification/Confetti.v ===== *)
(** * Confetti: [launchConfetti] and its frame loop [drawConfetti]

    [launchConfetti] (lines 1009-1061) fills [confettiPieces] with 150
    pieces whose position, size, colour, spin and speed come from nine
    [Math.random()] draws each (lines 1018-1030), then runs [drawConfetti]
    (lines 1033-1058) once per animation frame: it clears the canvas and
    walks the array with [forEach], drawing each piece, moving it and
    removing it with [splice(index, 1)] once it is below the canvas; the
    loop requests another frame while pieces remain.  [piece_cmds] and
    [frame_cmds] are a frame's calls on the canvas context of [Canvas.v].

    [for_each_from] is [Array.prototype.forEach] over an array the
    callback mutates: the number of visits is the length when the loop
    starts, and an index beyond the current length is skipped.  The
    random draws are a function of the piece index; the canvas size is a
    parameter; numbers are exact rationals.

    The theorems: every piece keeps the sizes, speeds and a palette
    colour it was created with (the type invariant of a piece); the frame
    loop ends, after at most [confetti_measure] frames; and splicing
    inside [forEach] skips the piece after a removed one, which is then
    neither drawn nor moved in that frame; and a frame's canvas calls
    paint one rectangle per piece drawn, in its colour, under its
    translation and rotation, giving the drawing state back. *)

From Stdlib Require Import QArith Qround ZArith Lia Lqa.
From stdpp Require Import base list strings.
From S2P Require Import Prelude Canvas Wheel.

Module Confetti.

Local Open Scope Q_scope.

Record piece := mkPiece {
  x : Q;
  y : Q;
  w : Q;
  h : Q;
  color : option string;
  rotation : Q;
  rotationSpeed : Q;
  velocityY : Q;
  velocityX : Q
}.

(** The nine [Math.random()] draws of one piece, in the order of the
    object literal. *)
Record draws := mkDraws {
  r_x : Q; r_y : Q; r_w : Q; r_h : Q; r_color : Q;
  r_rotation : Q; r_rotationSpeed : Q; r_velocityY : Q; r_velocityX : Q
}.

(** Lines 1015-1016. *)
Definition confettiCount : nat := 150.
Definition colors : list string :=
  ["#FF6B6B"; "#4ECDC4"; "#FFE66D"; "#95E1D3"; "#F38181"; "#AA96DA"; "#FCBAD3"]%string.

(** [colors[Math.floor(r * colors.length)]]: [undefined] off the array. *)
Definition pick_color (r : Q) : option string :=
  let i := Qfloor (r * inject_Z (Z.of_nat (length colors))) in
  if (0 <=? i)%Z then colors !! Z.to_nat i else None.

(** One object literal of lines 1019-1029 on a [width] x [height] canvas. *)
Definition new_piece (width height : Q) (r : draws) : piece :=
  mkPiece (r_x r * width) (r_y r * height - height) (r_w r * 10 + 5) (r_h r * 10 + 5)
    (pick_color (r_color r)) (r_rotation r * 360) (r_rotationSpeed r * 10 - 5)
    (r_velocityY r * 3 + 2) (r_velocityX r * 4 - 2).

(** Lines 1018-1031: piece [i] is made from the draws [draw i]. *)
Definition launch_confetti (width height : Q) (draw : nat → draws) : list piece :=
  (λ i, new_piece width height (draw i)) <$> seq 0 confettiCount.

(** Lines 1044-1046: the piece after [piece.y += ...] and the like. *)
Definition move (p : piece) : piece :=
  mkPiece (x p + velocityX p) (y p + velocityY p) (w p) (h p) (color p)
    (rotation p + rotationSpeed p) (rotationSpeed p) (velocityY p) (velocityX p).

(** The callback of lines 1036-1051 at [index]: it draws the piece, moves
    it in place and splices it out when it is below the canvas; an index
    past the current end is no element and is skipped by [forEach]. *)
Definition callback (height : Q) (index : nat) (pieces : list piece)
    : list piece * option piece :=
  match pieces !! index with
  | None => (pieces, None)
  | Some p =>
      let pieces' := <[index := move p]> pieces in
      (if Wheel.Qltb height (y (move p)) then delete index pieces' else pieces', Some p)
  end.

(** [forEach] from index [k], [n] visits left; the drawn pieces are
    collected in order. *)
Fixpoint for_each_from (height : Q) (k n : nat) (pieces drawn : list piece)
    : list piece * list piece :=
  match n with
  | O => (pieces, drawn)
  | S n' =>
      let '(pieces', d) := callback height k pieces in
      for_each_from height (S k) n' pieces' (drawn ++ from_option (λ p, [p]) [] d)
  end.

(** One call of [drawConfetti]: the pieces after the frame and the
    pieces drawn in it. *)
Definition draw_confetti (height : Q) (pieces : list piece) : list piece * list piece :=
  for_each_from height 0 (length pieces) pieces [].

(** The frame loop of lines 1053-1057 with [fuel] frames at most: the
    number of frames drawn until the array is empty and the canvas is
    cleared, [None] when the fuel runs out first. *)
Fixpoint run_confetti (fuel : nat) (height : Q) (pieces : list piece) : option nat :=
  match fuel with
  | O => None
  | S fuel' =>
      let pieces' := (draw_confetti height pieces).1 in
      match pieces' with
      | [] => Some 1%nat
      | _ :: _ => S <$> run_confetti fuel' height pieces'
      end
  end.

(** The sizes, speeds and colour a piece is created with. *)
Definition piece_wf (p : piece) : Prop :=
  5 <= w p < 15 ∧ 5 <= h p < 15 ∧ -5 <= rotationSpeed p < 5 ∧
  2 <= velocityY p < 5 ∧ -2 <= velocityX p < 2 ∧ ∃ c, color p = Some c ∧ c ∈ colors.

Definition draws_ok (r : draws) : Prop :=
  0 <= r_x r < 1 ∧ 0 <= r_y r < 1 ∧ 0 <= r_w r < 1 ∧ 0 <= r_h r < 1 ∧ 0 <= r_color r < 1 ∧
  0 <= r_rotation r < 1 ∧ 0 <= r_rotationSpeed r < 1 ∧ 0 <= r_velocityY r < 1 ∧
  0 <= r_velocityX r < 1.

(** Lines 1037-1042: the calls that paint one piece; [ctx.rotate] takes
    radians, here turns, so [rotation * PI / 180] is [rotation / 360]. *)
Definition piece_cmds (p : piece) : list Canvas.cmd :=
  [Canvas.Save; Canvas.Translate (x p) (y p); Canvas.Rotate (rotation p / 360);
   Canvas.SetFillStyle (from_option Canvas.SColor Canvas.SUndefined (color p));
   Canvas.FillRect (- w p / 2) (- h p / 2) (w p) (h p); Canvas.Restore].

(** The canvas calls of one [drawConfetti] on a [width] x [height]
    canvas: the clear of line 1034, the pieces drawn in order, and the
    final clear of line 1056 once no piece is left. *)
Definition frame_cmds (width height : Q) (pieces : list piece) : list Canvas.cmd :=
  let '(pieces', drawn) := draw_confetti height pieces in
  Canvas.ClearRect 0 0 width height :: concat (piece_cmds <$> drawn) ++
  match pieces' with [] => [Canvas.ClearRect 0 0 width height] | _ :: _ => [] end.

(** What a drawn piece looks like: its rectangle, centred on the piece,
    under the piece's translation and rotation. *)
Definition piece_paint (fill : Canvas.style) (p : piece) : Canvas.paint :=
  Canvas.PRect (- w p / 2) (- h p / 2) (w p) (h p)
    (from_option Canvas.SColor fill (color p))
    [Canvas.XTranslate (x p) (y p); Canvas.XRotate (rotation p / 360)].

(** Frames a piece can still be drawn before it falls out, when it falls
    at least 2 per frame. *)
Definition piece_measure (height : Q) (p : piece) : nat :=
  S (Z.to_nat (Qfloor ((height - y p) * (1#2)))).

Definition confetti_measure (height : Q) (pieces : list piece) : nat :=
  sum_list_with (piece_measure height) pieces.

(** Sample inputs: the draws [1/2] for every piece, and a piece at
    height [y0] falling [vy] per frame. *)
Definition sample_draws (i : nat) : draws :=
  mkDraws (1#2) (1#2) (1#2) (1#2) (1#2) (1#2) (1#2) (1#2) (1#2).

Definition sample_piece (y0 vy : Q) : piece :=
  mkPiece 0 y0 10 10 (Some "#FF6B6B"%string) 0 0 vy 0.

(** ** Lemmas *)

Lemma Qfloor_nonneg q : 0 <= q → (0 <= Qfloor q)%Z.
Proof. intros H. apply (Qfloor_resp_le 0 q) in H. done. Qed.

Lemma Qfloor_lt_Z q n : q < inject_Z n → (Qfloor q < n)%Z.
Proof. intros H. rewrite Zlt_Qlt. pose proof (Qfloor_le q). lra. Qed.

Lemma pick_color_ok r : 0 <= r < 1 → ∃ c, pick_color r = Some c ∧ c ∈ colors.
Proof.
  intros Hr. unfold pick_color. simpl length.
  assert (0 <= Qfloor (r * inject_Z (Z.of_nat 7)) < 7)%Z as Hi.
  { split; [apply Qfloor_nonneg | apply Qfloor_lt_Z]; cbv [Z.of_nat inject_Z Pos.of_succ_nat Pos.succ]; lra. }
  set (i := Qfloor (r * inject_Z (Z.of_nat 7))) in *.
  replace (0 <=? i)%Z with true by (symmetry; apply Z.leb_le; lia).
  destruct (lookup_lt_is_Some_2 colors (Z.to_nat i)) as [c Hc]; [simpl; lia |].
  exists c. split; [done | by eapply list_elem_of_lookup_2].
Qed.

Lemma new_piece_wf width height r : draws_ok r → piece_wf (new_piece width height r).
Proof.
  unfold draws_ok, piece_wf. intros (_ & _ & Hw & Hh & Hc & _ & Hs & Hvy & Hvx). simpl.
  split_and!; try lra. by apply pick_color_ok.
Qed.

(** Moving keeps what [piece_wf] speaks of. *)
Lemma move_wf p : piece_wf p → piece_wf (move p).
Proof. done. Qed.

Lemma move_measure height p :
  2 <= velocityY p → y (move p) <= height →
  (piece_measure height (move p) < piece_measure height p)%nat.
Proof.
  cbn [y move]. intros Hv Hy. unfold piece_measure. cbn [y move].
  set (a := (height - (y p + velocityY p)) * (1#2)). set (b := (height - y p) * (1#2)).
  assert (0 <= a /\ a <= b - 1) as [Ha Hab] by (subst a b; split; lra).
  pose proof (Qfloor_nonneg a Ha). pose proof (Qlt_floor b). rewrite inject_Z_plus in *.
  change (inject_Z 1) with 1 in *.
  assert (Qfloor a < Qfloor b)%Z by (apply Qfloor_lt_Z; pose proof (Qfloor_le a); lra).
  lia.
Qed.

Section Frame.

Context (height : Q).

(** What the callbacks preserve: a property every move keeps. *)
Context (P : piece → Prop) (HP : ∀ p, P p → P (move p)).

Lemma callback_Forall k ps : Forall P ps → Forall P (callback height k ps).1.
Proof.
  unfold callback. intros Hps. destruct (ps !! k) as [p|] eqn:Hk; [| done].
  assert (Forall P (<[k:=move p]> ps)) by (apply Forall_insert; [done | apply HP; by eapply Forall_lookup_1]).
  simpl. destruct (Wheel.Qltb _ _); [by apply Forall_delete | done].
Qed.

Lemma for_each_from_Forall k n ps d : Forall P ps → Forall P (for_each_from height k n ps d).1.
Proof.
  revert k ps d. induction n as [|n IH]; intros k ps d Hps; [done |]. simpl.
  pose proof (callback_Forall k ps Hps). destruct (callback height k ps). by apply IH.
Qed.

End Frame.

Definition falls_ok (p : piece) : Prop := 2 <= velocityY p.

Lemma callback_measure height k ps :
  Forall falls_ok ps →
  confetti_measure height (callback height k ps).1 + length (from_option (λ p, [p]) [] (callback height k ps).2)
    ≤ confetti_measure height ps.
Proof.
  unfold callback, confetti_measure. intros Hps. destruct (ps !! k) as [p|] eqn:Hk; [| simpl; lia].
  pose proof (sum_list_with_insert (piece_measure height) ps k p (move p) Hk) as Hins.
  destruct (Wheel.Qltb height (y (move p))) eqn:Hf.
  - assert (<[k:=move p]> ps !! k = Some (move p)) as Hk'.
    { apply list_lookup_insert_eq. by eapply lookup_lt_Some. }
    pose proof (sum_list_with_delete (piece_measure height) _ k _ Hk').
    assert (1 ≤ piece_measure height p)%nat by (unfold piece_measure; lia). simpl. lia.
  - apply Wheel.Qltb_false in Hf.
    pose proof (move_measure height p (Forall_lookup_1 _ _ _ _ Hps Hk) Hf). simpl. lia.
Qed.

Lemma for_each_from_measure height k n ps d :
  Forall falls_ok ps →
  confetti_measure height (for_each_from height k n ps d).1 + length (for_each_from height k n ps d).2
    ≤ confetti_measure height ps + length d.
Proof.
  revert k ps d. induction n as [|n IH]; intros k ps d Hps; simpl; [lia |].
  pose proof (callback_measure height k ps Hps) as Hc.
  pose proof (callback_Forall height falls_ok (λ p H, H) k ps Hps) as Hf.
  destruct (callback height k ps) as [ps' o]. simpl in *.
  specialize (IH (S k) ps' (d ++ from_option (λ p, [p]) [] o) Hf). rewrite length_app in IH. lia.
Qed.

Lemma for_each_from_drawn_mono height k n ps d :
  length d ≤ length (for_each_from height k n ps d).2.
Proof.
  revert k ps d. induction n as [|n IH]; intros k ps d; simpl; [lia |].
  destruct (callback height k ps) as [ps' o].
  specialize (IH (S k) ps' (d ++ from_option (λ p, [p]) [] o)). rewrite length_app in IH. lia.
Qed.

(** A frame over a non-empty array draws at least its first piece, so
    the measure drops. *)
Lemma draw_confetti_measure height p ps :
  Forall falls_ok (p :: ps) →
  (confetti_measure height (draw_confetti height (p :: ps)).1 < confetti_measure height (p :: ps))%nat.
Proof.
  intros Hps. unfold draw_confetti. change (length (p :: ps)) with (S (length ps)). cbn [for_each_from].
  pose proof (callback_measure height 0 (p :: ps) Hps) as Hc.
  pose proof (callback_Forall height falls_ok (λ p H, H) 0 (p :: ps) Hps) as Hf.
  destruct (callback height 0 (p :: ps)) as [ps' o] eqn:Hcb.
  assert (o = Some p) as -> by (unfold callback in Hcb; simpl in Hcb; destruct (Wheel.Qltb _ _); congruence).
  cbn [fst snd from_option length app] in *.
  pose proof (for_each_from_measure height 1 (length ps) ps' [p] Hf).
  pose proof (for_each_from_drawn_mono height 1 (length ps) ps' [p]). cbn [length] in *. lia.
Qed.

Lemma draw_confetti_Forall P height ps :
  (∀ p, P p → P (move p)) → Forall P ps → Forall P (draw_confetti height ps).1.
Proof. intros HP. apply for_each_from_Forall, HP. Qed.

Lemma run_confetti_ends height fuel ps :
  Forall falls_ok ps → (confetti_measure height ps < fuel)%nat →
  ∃ n, run_confetti fuel height ps = Some n ∧ n ≤ S (confetti_measure height ps).
Proof.
  revert ps. induction fuel as [|fuel IH]; intros ps Hps Hlt; [lia |]. simpl.
  pose proof (draw_confetti_Forall falls_ok height ps (λ p H, H) Hps) as Hf.
  destruct ps as [|p ps0].
  - exists 1%nat. split; [done | lia].
  - pose proof (draw_confetti_measure height p ps0 Hps) as Hm.
    destruct (IH _ Hf) as (n & Hn & Hle); [lia |].
    destruct (draw_confetti height (p :: ps0)).1 as [|q qs]; [exists 1%nat; split; [done | lia] |].
    rewrite Hn. exists (S n). split; [done | lia].
Qed.

Lemma for_each_from_prefix height k n ps d i :
  (i < k)%nat → (for_each_from height k n ps d).1 !! i = ps !! i.
Proof.
  revert k ps d. induction n as [|n IH]; intros k ps d Hi; [done |]. simpl.
  destruct (callback height k ps) as [ps' o] eqn:Hcb. rewrite IH by lia.
  unfold callback in Hcb. destruct (ps !! k); simplify_eq; [| done].
  destruct (Wheel.Qltb _ _); simplify_eq;
    rewrite ?list_lookup_delete_lt, list_lookup_insert_ne by lia; done.
Qed.

Lemma for_each_from_drawn_app height k n ps d :
  ∃ e, (for_each_from height k n ps d).2 = d ++ e.
Proof.
  revert k ps d. induction n as [|n IH]; intros k ps d; simpl; [exists []; by rewrite app_nil_r |].
  destruct (callback height k ps) as [ps' o].
  destruct (IH (S k) ps' (d ++ from_option (λ p, [p]) [] o)) as [e ->].
  eexists. by rewrite <- app_assoc.
Qed.

Lemma for_each_from_drawn_length height k n ps d :
  (length (for_each_from height k n ps d).2 ≤ length d + (length ps - k))%nat.
Proof.
  revert k ps d. induction n as [|n IH]; intros k ps d; simpl; [lia |].
  destruct (callback height k ps) as [ps' o] eqn:Hcb.
  etransitivity; [apply IH |]. rewrite length_app.
  unfold callback in Hcb. destruct (ps !! k) eqn:Hk; simplify_eq/=; [| lia].
  apply lookup_lt_Some in Hk.
  destruct (Wheel.Qltb _ _); simplify_eq/=;
    rewrite ?length_delete, length_insert by (rewrite list_lookup_insert_eq; eauto); lia.
Qed.

Lemma launch_measure width height draw :
  0 <= height → (∀ i, draws_ok (draw i)) →
  (confetti_measure height (launch_confetti width height draw) ≤
     confettiCount * S (Z.to_nat (Qfloor height)))%nat.
Proof.
  intros Hh Hd. unfold confetti_measure, launch_confetti.
  rewrite <- (length_seq confettiCount 0) at 2. rewrite <- (length_fmap (λ i, new_piece width height (draw i))).
  apply sum_list_with_le_const. intros p (i & -> & _)%list_elem_of_fmap.
  destruct (Hd i) as (_ & Hy & _). unfold piece_measure. cbn [y new_piece].
  assert (0 <= r_y (draw i) * height) by (apply Qmult_le_0_compat; lra).
  pose proof (Qfloor_resp_le ((height - (r_y (draw i) * height - height)) * (1#2)) height ltac:(lra)). lia.
Qed.

(** Each piece is painted with its own colour under its own transform,
    and [restore] gives back the drawing state and the [save] stack. *)
Lemma piece_cmds_exec c p :
  Canvas.transform (Canvas.cur c) = [] →
  let '(c', ps) := Canvas.exec_cmds c (piece_cmds p) in
  ps = [piece_paint (Canvas.fillStyle (Canvas.cur c)) p] ∧
  Canvas.cur c' = Canvas.cur c ∧ Canvas.stack c' = Canvas.stack c.
Proof.
  destruct c as [[] st pa]. cbn [Canvas.cur Canvas.transform]. intros ->.
  unfold piece_cmds, piece_paint. destruct (color p); cbn; split_and!; reflexivity.
Qed.

(** The pieces of a frame, drawn one after the other, each under the
    drawing state the frame started with. *)
Lemma pieces_cmds_exec c l :
  Canvas.transform (Canvas.cur c) = [] →
  let '(c', ps) := Canvas.exec_cmds c (concat (piece_cmds <$> l)) in
  ps = piece_paint (Canvas.fillStyle (Canvas.cur c)) <$> l ∧
  Canvas.cur c' = Canvas.cur c ∧ Canvas.stack c' = Canvas.stack c.
Proof.
  revert c. induction l as [|p l IH]; intros c Hc; [done |].
  cbn [fmap list_fmap concat]. rewrite Canvas.exec_cmds_app.
  pose proof (piece_cmds_exec c p Hc) as Hp.
  destruct (Canvas.exec_cmds c (piece_cmds p)) as [c1 p1]. destruct Hp as (-> & Hc1 & Hs1).
  rewrite <- Hc1 in Hc. specialize (IH c1 Hc).
  destruct (Canvas.exec_cmds c1 _) as [c2 p2]. destruct IH as (-> & ? & ?).
  split_and!; [by rewrite Hc1 | congruence | congruence].
Qed.

(** ** Theorems *)

(** [C21] Type invariant of a confetti piece: with [Math.random()] draws
    in [0, 1), every piece [launchConfetti] creates, in every frame of
    [drawConfetti], has width and height in [5, 15), a rotation speed in
    [-5, 5), a fall speed in [2, 5), a drift in [-2, 2) and a colour of
    the palette (never [undefined]). *)
Theorem confetti_pieces_wf width height draw n :
  (∀ i, draws_ok (draw i)) →
  Forall piece_wf (Nat.iter n (λ ps, (draw_confetti height ps).1) (launch_confetti width height draw)).
Proof.
  intros Hd. induction n as [|n IH]; simpl.
  - apply Forall_fmap, Forall_forall. intros i _. apply new_piece_wf, Hd.
  - apply draw_confetti_Forall; [apply move_wf | exact IH].
Qed.

(** [C19] The confetti loop ends: on a canvas of height [H >= 0], the
    frames started by [launchConfetti] empty the array and clear the
    canvas after at most [150 (floor H + 1) + 1] frames, since every frame
    moves or removes at least the first piece and a piece falls at least
    2 pixels per move. *)
Theorem confetti_stops width height draw fuel :
  0 <= height → (∀ i, draws_ok (draw i)) →
  (confettiCount * S (Z.to_nat (Qfloor height)) < fuel)%nat →
  ∃ n, run_confetti fuel height (launch_confetti width height draw) = Some n ∧
       (n ≤ S (confettiCount * S (Z.to_nat (Qfloor height))))%nat.
Proof.
  intros Hh Hd Hfuel. pose proof (launch_measure width height draw Hh Hd).
  destruct (run_confetti_ends height fuel (launch_confetti width height draw)) as (n & Hn & Hle).
  - eapply Forall_impl; [apply (confetti_pieces_wf width height draw 0 Hd) |].
    intros p (_ & _ & _ & Hv & _). apply Hv.
  - lia.
  - exists n. split; [done | lia].
Qed.

(** [C20] [splice] inside [forEach] skips a piece: when a piece falls
    below the canvas, the piece after it moves into its index, which
    [forEach] has already visited, so that piece is neither moved nor
    drawn in the frame and fewer pieces are drawn than the array held. *)
Theorem splice_skips_next height p q rest :
  height < y (move p) →
  (draw_confetti height (p :: q :: rest)).1 !! 0%nat = Some q ∧
  (draw_confetti height (p :: q :: rest)).2 !! 0%nat = Some p ∧
  (length (draw_confetti height (p :: q :: rest)).2 < length (p :: q :: rest))%nat.
Proof.
  intros Hf. apply Wheel.Qltb_iff in Hf.
  assert (callback height 0 (p :: q :: rest) = (q :: rest, Some p)) as Hcb
    by (unfold callback; simpl in *; by rewrite Hf).
  unfold draw_confetti. change (length (p :: q :: rest)) with (S (length (q :: rest))).
  cbn [for_each_from]. rewrite Hcb. cbn [from_option app].
  pose proof (for_each_from_drawn_length height 1 (length (q :: rest)) (q :: rest) [p]).
  destruct (for_each_from_drawn_app height 1 (length (q :: rest)) (q :: rest) [p]) as [e He].
  split_and!.
  - by rewrite for_each_from_prefix by lia.
  - by rewrite He.
  - cbn [length] in *. lia.
Qed.

(** [C22] What one [drawConfetti] frame puts on the canvas (lines
    1034-1056): the canvas is cleared, each piece drawn in the frame is
    painted as its rectangle, centred on it, under its translation and
    rotation, in its colour or, for a piece without one, in the fill style
    in force; the canvas is cleared again once no piece is left; and the
    drawing state and [save] stack are given back after the frame. *)
Theorem confetti_frame_paints width height pieces c :
  Canvas.transform (Canvas.cur c) = [] →
  let '(c', ps) := Canvas.exec_cmds c (frame_cmds width height pieces) in
  ps = Canvas.PClear 0 0 width height ::
         (piece_paint (Canvas.fillStyle (Canvas.cur c)) <$> (draw_confetti height pieces).2) ++
         match (draw_confetti height pieces).1 with
         | [] => [Canvas.PClear 0 0 width height]
         | _ :: _ => []
         end ∧
  Canvas.cur c' = Canvas.cur c ∧ Canvas.stack c' = Canvas.stack c.
Proof.
  intros Hc. unfold frame_cmds. destruct (draw_confetti height pieces) as [pieces' drawn]. cbn.
  rewrite Canvas.exec_cmds_app. pose proof (pieces_cmds_exec c drawn Hc) as Hp.
  destruct (Canvas.exec_cmds c _) as [c1 p1]. destruct Hp as (-> & Hc1 & Hs1).
  destruct pieces'; cbn; rewrite ?app_nil_r; split_and!; congruence.
Qed.


(** ** Witnesses *)

Lemma confetti_pieces_wf_witness :
  Forall piece_wf (Nat.iter 3 (λ ps, (draw_confetti 600 ps).1) (launch_confetti 800 600 sample_draws)).
Proof. apply confetti_pieces_wf. intros i. unfold draws_ok. simpl. lra. Defined.

Lemma confetti_stops_witness :
  ∃ n, run_confetti 1651 10 (launch_confetti 800 10 sample_draws) = Some n ∧
       (n ≤ S (confettiCount * S (Z.to_nat (Qfloor 10))))%nat.
Proof.
  apply confetti_stops; [lra | intros i; unfold draws_ok; simpl; lra | vm_compute; lia].
Defined.

Lemma splice_skips_next_witness :
  (draw_confetti 10 [sample_piece 9 2; sample_piece 0 3]).1 !! 0%nat = Some (sample_piece 0 3) ∧
  (draw_confetti 10 [sample_piece 9 2; sample_piece 0 3]).2 !! 0%nat = Some (sample_piece 9 2) ∧
  (length (draw_confetti 10 [sample_piece 9 2; sample_piece 0 3]).2 <
     length [sample_piece 9 2; sample_piece 0 3])%nat.
Proof. apply splice_skips_next. simpl. lra. Defined.

Lemma confetti_frame_paints_witness :
  Canvas.transform (Canvas.cur Canvas.initial_ctx) = [] ∧
  let '(c', ps) := Canvas.exec_cmds Canvas.initial_ctx
                     (frame_cmds 800 600 (take 2 (launch_confetti 800 600 sample_draws))) in
  ps = Canvas.PClear 0 0 800 600 ::
         (piece_paint (Canvas.fillStyle (Canvas.cur Canvas.initial_ctx)) <$>
            (draw_confetti 600 (take 2 (launch_confetti 800 600 sample_draws))).2) ++
         match (draw_confetti 600 (take 2 (launch_confetti 800 600 sample_draws))).1 with
         | [] => [Canvas.PClear 0 0 800 600]
         | _ :: _ => []
         end ∧
  Canvas.cur c' = Canvas.cur Canvas.initial_ctx ∧ Canvas.stack c' = Canvas.stack Canvas.initial_ctx.
Proof. split; [reflexivity | apply confetti_frame_paints; reflexivity]. Defined.

End Confetti.
