(* ===== verification/Chrome.v ===== *)
(** * Page chrome: the controls panel, full screen, the event title and the
    line-number gutter

    The parts of the page the game never reads: the controls panel and
    its two buttons ([startGame], lines 953-961, and [toggleControls],
    lines 973-986), full screen ([toggleFullscreen], lines 988-994), the
    event title ([editEventTitle], lines 996-1003), the line-number gutter
    of the roster textarea ([updateLineNumbers], lines 128-141, run by
    [updateParticipants] at line 113) with its scroll sync
    ([setupLineNumberSync], lines 143-150), and the text of the counter
    ([updateCountDisplay], line 123).  [chrome] holds the DOM state these
    functions write: a [hidden] class is a boolean, [innerHTML] and
    [textContent] are strings, [scrollTop] is an integer.  The initial
    values come from the page's HTML, which is not part of the sources,
    so they are left as a parameter.  [prompt] is modelled by its answer
    ([None] when cancelled), [requestFullscreen] and [exitFullscreen] by
    their outcome.

    The theorems: editing the title keeps it a non-empty trimmed string,
    and a cancelled or blank answer changes nothing; once the game has
    started exactly one of the controls panel and its show button is
    visible, and toggling twice restores the page. *)

From Stdlib Require Import Ascii.
From stdpp Require Import base list strings pretty.
From S2P Require Import Prelude Names.

Module Chrome.

Import Names.

Record chrome := mkChrome {
  controlsHidden : bool;
  showControlsHidden : bool;
  toggleControlsHidden : bool;
  fullscreen : bool;
  eventTitle : string;
  lineNumbers : string;
  inputScroll : Z;
  gutterScroll : Z
}.

Definition set_controls (c : chrome) (panel show toggle : bool) : chrome :=
  mkChrome panel show toggle (fullscreen c) (eventTitle c) (lineNumbers c) (inputScroll c) (gutterScroll c).

(** Lines 953-961 of [startGame], after its guard on the roster size
    (lines 945-948): the toggle button shows, the panel hides and its
    show button appears. *)
Definition start_game_chrome (n : nat) (c : chrome) : chrome :=
  if n <? 2 then c else set_controls c true false false.

(** [toggleControls], lines 973-986. *)
Definition toggle_controls (c : chrome) : chrome :=
  if controlsHidden c then set_controls c false true (toggleControlsHidden c)
  else set_controls c true false (toggleControlsHidden c).

(** [toggleFullscreen], lines 988-994. *)
Definition toggle_fullscreen (c : chrome) : chrome :=
  mkChrome (controlsHidden c) (showControlsHidden c) (toggleControlsHidden c) (negb (fullscreen c))
    (eventTitle c) (lineNumbers c) (inputScroll c) (gutterScroll c).

(** A JavaScript string is truthy when it is not empty. *)
Definition truthy (s : string) : bool := 0 <? String.length s.

(** [editEventTitle], lines 996-1003, with the [prompt]'s answer. *)
Definition edit_event_title (answer : option string) (c : chrome) : chrome :=
  match answer with
  | Some newTitle =>
      if truthy newTitle && truthy (js_trim newTitle) then
        mkChrome (controlsHidden c) (showControlsHidden c) (toggleControlsHidden c) (fullscreen c)
          (js_trim newTitle) (lineNumbers c) (inputScroll c) (gutterScroll c)
      else c
  | None => c
  end.

(** Line 131: [nameInput.value.split('\n').length]. *)
Definition line_count (text : string) : nat := length (js_split newline text).

(** Lines 135-137: [Array.from({ length: lines }, (_, i) => `<div>${i + 1}</div>`).join('')]. *)
Definition gutter_div (i : nat) : string := "<div>" +:+ pretty (S i) +:+ "</div>".

Definition gutter_html (lines : nat) : string :=
  foldr String.append EmptyString (gutter_div <$> seq 0 lines).

(** [updateLineNumbers], lines 128-141. *)
Definition update_line_numbers (text : string) (c : chrome) : chrome :=
  mkChrome (controlsHidden c) (showControlsHidden c) (toggleControlsHidden c) (fullscreen c)
    (eventTitle c) (gutter_html (line_count text)) (inputScroll c) (inputScroll c).

(** The textarea's scroll listener, lines 147-149, when it is scrolled
    to [top]. *)
Definition sync_scroll (top : Z) (c : chrome) : chrome :=
  mkChrome (controlsHidden c) (showControlsHidden c) (toggleControlsHidden c) (fullscreen c)
    (eventTitle c) (lineNumbers c) top top.

(** Line 123: the counter's text, [`${participants.length} คน`]. *)
Definition count_text (n : nat) : string := pretty n +:+ " คน".

(** The chrome's own events. *)
Inductive op :=
| OpStartGame (n : nat)
| OpToggleControls
| OpToggleFullscreen
| OpEditTitle (answer : option string)
| OpLineNumbers (text : string)
| OpScroll (top : Z).

Definition apply_op (c : chrome) (o : op) : chrome :=
  match o with
  | OpStartGame n => start_game_chrome n c
  | OpToggleControls => toggle_controls c
  | OpToggleFullscreen => toggle_fullscreen c
  | OpEditTitle a => edit_event_title a c
  | OpLineNumbers text => update_line_numbers text c
  | OpScroll top => sync_scroll top c
  end.

Definition run_ops (c : chrome) (os : list op) : chrome := foldl apply_op c os.

(** Exactly one of the panel and its show button is visible. *)
Definition controls_ok (c : chrome) : Prop := showControlsHidden c = negb (controlsHidden c).

(** The title is a non-empty string that [trim] leaves alone. *)
Definition title_ok (c : chrome) : Prop :=
  0 < String.length (eventTitle c) ∧ js_trim (eventTitle c) = eventTitle c.

(** A sample page before [startGame]: panel shown, its buttons hidden. *)
Definition sample_chrome : chrome :=
  mkChrome false true true false "Gift Exchange" EmptyString 0 0.

(** ** Lemmas *)

Lemma controls_ok_op c o : controls_ok c → controls_ok (apply_op c o).
Proof.
  unfold controls_ok. intros Hc. destruct o as [n| | |a| |]; simpl; try done.
  - unfold start_game_chrome. by destruct (n <? 2).
  - unfold toggle_controls. by destruct (controlsHidden c).
  - destruct a as [t|]; [| done]. unfold edit_event_title. by case_match.
Qed.

Lemma controls_ok_run c os : controls_ok c → controls_ok (run_ops c os).
Proof.
  revert c. induction os as [|o os IH]; intros c Hc; [done |]. apply IH, controls_ok_op, Hc.
Qed.

Lemma truthy_spec s : truthy s = true ↔ 0 < String.length s.
Proof. apply Nat.ltb_lt. Qed.

(** ** Theorems *)

(** [C34] Editing the event title keeps it a non-empty string that
    [trim] leaves alone, and a cancelled or blank answer to the [prompt]
    leaves the page unchanged. *)
Theorem edit_title_ok c answer :
  title_ok c →
  title_ok (edit_event_title answer c) ∧
  ((∀ t, answer = Some t → String.length (js_trim t) = 0) → edit_event_title answer c = c).
Proof.
  intros Hc. destruct answer as [t|]; simpl; [| done].
  destruct (truthy t && truthy (js_trim t)) eqn:Ht.
  - apply andb_true_iff in Ht as [_ Ht]. apply truthy_spec in Ht.
    split; [split; [done | apply js_trim_idem] |]. intros Hb. rewrite (Hb t eq_refl) in Ht. lia.
  - done.
Qed.

(** Once [startGame] has run on a roster of two or more names,
    exactly one of the controls panel and its show button is visible
    whatever chrome events follow, and on such a page [toggleControls]
    twice changes nothing. *)
Theorem controls_after_start c n os :
  2 ≤ n →
  controls_ok (run_ops (start_game_chrome n c) os) ∧
  toggle_controls (toggle_controls (run_ops (start_game_chrome n c) os)) = run_ops (start_game_chrome n c) os.
Proof.
  intros Hn. assert (controls_ok (run_ops (start_game_chrome n c) os)) as Hok.
  { apply controls_ok_run. unfold start_game_chrome. by replace (n <? 2) with false by (symmetry; apply Nat.ltb_ge; lia). }
  split; [done |]. revert Hok. generalize (run_ops (start_game_chrome n c) os) as d.
  intros [] Hok. unfold controls_ok, toggle_controls in *. simpl in *. subst. by destruct controlsHidden0.
Qed.

(** ** Witnesses *)

Lemma edit_title_ok_witness :
  title_ok (edit_event_title (Some "  Party  ") sample_chrome) ∧
  ((∀ t, Some "  Party  " = Some t → String.length (js_trim t) = 0) →
     edit_event_title (Some "  Party  ") sample_chrome = sample_chrome).
Proof.
  apply edit_title_ok. split; [vm_compute; lia | vm_compute; reflexivity].
Defined.

End Chrome.
