(* ===== verification/Views.v ===== *)
(** * What the two game modals show

    The selection modal ([showPlayerSelectionModal], lines 158-181, and
    [populatePlayerSelection], lines 183-216) shows a title and subtitle
    that depend on whether anybody has played, and one button per
    selectable participant, whose [onclick] is [selectPlayer(name)], or a
    message when nobody can be selected.  The winner modal
    ([showWinnerModal], lines 628-676) shows the spinner, the gift, an
    optional note, and writes the next player's name into the header when
    the gift owner spins next.  The CSS classes that animate the modals
    are the [selectOpen] and [winnerOpen] flags of [Controller.v].

    The lemmas: a button of the selection modal selects exactly the name
    it shows, and the header shows the new [currentPlayer] whenever the
    winner modal sets one. *)

From stdpp Require Import base list strings.
From S2P Require Import Prelude Engine Chrome.

Module Views.

Import Engine.

(** Lines 164-172: title and subtitle. *)
Definition selection_titles (st : state) : string * string :=
  match playedParticipants st with
  | [] => ("เลือกผู้เล่นคนแรก", "เลือกชื่อของคุณเพื่อเริ่มเกม")
  | _ :: _ => ("เลือกผู้เล่นคนต่อไป", "เลือกจากรายชื่อที่ยังไม่ได้หมุน")
  end.

(** The content of [playerSelectionList]. *)
Inductive selection_list :=
| NoSelectable (message : string)
| SelectButtons (names : list string).

(** Lines 183-216: the message of line 199, or one button per name. *)
Definition populate_player_selection (st : state) : selection_list :=
  match selectable_participants st with
  | [] => NoSelectable "ไม่มีผู้เล่นที่สามารถเลือกได้"
  | names => SelectButtons names
  end.

(** Line 213: the [onclick] of the button showing [name]. *)
Definition button_click (st : state) (name : string) : state := select_player st name.

(** The texts of the winner modal and of the header. *)
Record winner_view := mkWinnerView {
  modalCurrentPlayer : string;
  modalWinnerText : string;
  modalWinnerNote : option string;
  currentPlayerName : string
}.

(** Lines 631-645: the note element exists when [note] is truthy. *)
Definition note_element (note : option string) : option string :=
  match note with
  | Some n => if Chrome.truthy n then Some n else None
  | None => None
  end.

(** [showWinnerModal(player, gift, giftAlreadyClaimed, winnerHasPlayed,
    note)], lines 628-676, on the texts [v] shown before. *)
Definition show_winner_view (player gift : string) (giftAlreadyClaimed winnerHasPlayed : bool)
    (note : option string) (v : winner_view) : winner_view :=
  mkWinnerView player gift (note_element note)
    (if giftAlreadyClaimed || winnerHasPlayed then currentPlayerName v else gift).

(** ** Lemmas *)

(** The buttons offer the selectable participants and each selects its
    own name. *)
Lemma populate_buttons st names name :
  populate_player_selection st = SelectButtons names → name ∈ names →
  name ∈ selectable_participants st ∧ currentPlayer (button_click st name) = Some name.
Proof.
  unfold populate_player_selection. destruct (selectable_participants st); [done |].
  by intros [= <-].
Qed.

(** The header shows the player [showWinnerModal] makes current. *)
Lemma winner_view_next isSwapMode claimed played winner giftOwner player note v g :
  next_player isSwapMode claimed played winner giftOwner = Some g →
  currentPlayerName
    (show_winner_view player giftOwner
       (if isSwapMode then false else includes claimed winner)
       (if isSwapMode then false else includes played winner) note v) = g.
Proof. unfold next_player, show_winner_view. simpl. by case_match; intros [= ->]. Qed.

End Views.
