(* ===== verification/Page.v ===== *)
(** * The whole page: the controller with its sound, confetti and chrome

    The handlers of [Controller.v] also drive the parts of the page the
    game never reads: [updateParticipants] redraws the line-number gutter
    (line 113), [startGame] calls [initAudio] and hides the controls
    panel (lines 943 and 953-961), [startSpin] calls [initAudio]
    (line 396), and [handleSpinComplete] ends with [launchConfetti] and
    [playFanfare] (lines 620-621).  [page] adds to [Controller.ui] the
    textarea's value, the chrome of [Chrome.v], the sound state of
    [Audio.v] with the notes scheduled so far, and the confetti arrays of
    [Confetti.v], one per [launchConfetti] call, each with its own frame
    loop.  [page_handle] runs a controller event together with these
    effects, or one of the page's own events: the chrome's buttons, the
    textarea's scroll, or a frame of a confetti loop.

    Whether [new AudioContext()] succeeds, the canvas size and the
    confetti's random draws are fixed for a page ([Section] variables);
    the audio clock is given with each event.  The twinkle the fanfare
    schedules with [setTimeout] and the tick sounds of the animation
    frames (collapsed into [EvAnimationEnd], see [Animation.v]) are not
    recorded.

    The theorems: a page run projects onto a disciplined controller run
    (the lemma [pstep_ui]), so every theorem of [Run.v] holds of the full
    page; when audio is supported each completed spin schedules one
    22-note fanfare and launches one confetti burst; the gutter and the
    roster always agree with the textarea; the panel's toggle button is
    shown exactly once the game has started. *)

From Stdlib Require Import QArith.
From stdpp Require Import base list strings relations.
From S2P Require Import Prelude Names Engine Controller Run Audio Confetti Chrome.

Module Page.

Import Names Engine Controller Run.

Record page := mkPage {
  pg_ui : ui;
  pg_text : string;
  pg_chrome : Chrome.chrome;
  pg_audio : Audio.audio;
  pg_sounds : list Audio.note;
  pg_confetti : list (list Confetti.piece)
}.

Inductive pevent :=
| PgUi (e : event) (now : Q)
| PgToggleControls
| PgToggleFullscreen
| PgEditTitle (answer : option string)
| PgScroll (top : Z)
| PgConfettiFrame (i : nat).

Section Page.

Context (supported : bool) (width height : Q) (draw : nat → Confetti.draws).

(** The textarea's value after an event: typed, or the defaults written
    by [loadParticipants] (line 95). *)
Definition textarea_after (e : event) (text : string) : string :=
  match e with
  | EvEdit t => t
  | EvResetDefaults => js_join newline default_participants
  | _ => text
  end.

(** Whether the event reaches [startSpin] (lines 383-391, and the space
    bar's branch of lines 80-84). *)
Definition spin_starts (e : event) (s : ui) : bool :=
  let click := negb (isSpinning s) && bool_decide (is_Some (currentPlayer (game s))) in
  match e with
  | EvSpinClick _ _ => click
  | EvSpace _ _ =>
      negb (winnerOpen s) && negb (summaryOpen s) && negb (selectOpen s) && negb (spinDisabled s) && click
  | _ => false
  end.

(** [initAudio] from [startGame] (line 943, before its guard) and from
    [startSpin] (line 396). *)
Definition audio_after (e : event) (s : ui) (a : Audio.audio) : Audio.audio :=
  match e with
  | EvStartGame => Audio.init_audio supported a
  | _ => if spin_starts e s then Audio.init_audio supported a else a
  end.

(** The chrome after an event: [updateLineNumbers] from
    [updateParticipants] (line 113) and the panel of [startGame]. *)
Definition chrome_after (e : event) (s : ui) (text : string) (c : Chrome.chrome) : Chrome.chrome :=
  match e with
  | EvEdit _ | EvResetDefaults => Chrome.update_line_numbers text c
  | EvStartGame => Chrome.start_game_chrome (length (participants (game s))) c
  | _ => c
  end.

Definition set_chrome (p : page) (c : Chrome.chrome) : page :=
  mkPage (pg_ui p) (pg_text p) c (pg_audio p) (pg_sounds p) (pg_confetti p).

(** One event of the page at audio time [now]. *)
Definition page_handle (pe : pevent) (p : page) : option page :=
  match pe with
  | PgUi e now =>
      match handle e (pg_ui p) with
      | None => None
      | Some u' =>
          let text' := textarea_after e (pg_text p) in
          let a' := audio_after e (pg_ui p) (pg_audio p) in
          let c' := chrome_after e (pg_ui p) text' (pg_chrome p) in
          if is_spin_end e then
            Some (mkPage u' text' c' a' (pg_sounds p ++ (Audio.play_fanfare a' now).1)
                    (pg_confetti p ++ [Confetti.launch_confetti width height draw]))
          else Some (mkPage u' text' c' a' (pg_sounds p) (pg_confetti p))
      end
  | PgToggleControls => Some (set_chrome p (Chrome.toggle_controls (pg_chrome p)))
  | PgToggleFullscreen => Some (set_chrome p (Chrome.toggle_fullscreen (pg_chrome p)))
  | PgEditTitle answer => Some (set_chrome p (Chrome.edit_event_title answer (pg_chrome p)))
  | PgScroll top => Some (set_chrome p (Chrome.sync_scroll top (pg_chrome p)))
  | PgConfettiFrame i =>
      match pg_confetti p !! i with
      | Some (_ :: _ as pieces) =>
          Some (mkPage (pg_ui p) (pg_text p) (pg_chrome p) (pg_audio p) (pg_sounds p)
                  (<[i := (Confetti.draw_confetti height pieces).1]> (pg_confetti p)))
      | _ => None
      end
  end.

(** Controller events follow the controller's enabling and the input
    discipline; the page's own events are always available. *)
Definition page_enabled (pe : pevent) (p : page) : bool :=
  match pe with
  | PgUi e _ => enabled e (pg_ui p) && disciplined e (pg_ui p)
  | _ => true
  end.

Inductive pstep : page → page → Prop :=
| pstep_event pe p p' : page_enabled pe p = true → page_handle pe p = Some p' → pstep p p'.

(** [DOMContentLoaded], lines 31-50, on a page whose HTML gives the
    chrome [c0]: the defaults are loaded and the gutter drawn. *)
Definition page_init (c0 : Chrome.chrome) : page :=
  mkPage init (js_join newline default_participants)
    (Chrome.update_line_numbers (js_join newline default_participants) c0)
    Audio.audio_init [] [].

(** Executable page runs. *)
Fixpoint page_run (pes : list pevent) (p : page) : option page :=
  match pes with
  | [] => Some p
  | pe :: pes' =>
      if page_enabled pe p then
        match page_handle pe p with Some p' => page_run pes' p' | None => None end
      else None
  end.

End Page.

(** Sound and confetti as the page keeps them: with sound on once a spin
    can end, one fanfare and one burst per assignment. *)
Definition effects_ok (p : page) : Prop :=
  Audio.isSoundEnabled (pg_audio p) = true ∧
  (Audio.audioContext (pg_audio p) = true ∨
     (isSpinning (pg_ui p) = false ∧ giftAssignments (game (pg_ui p)) = [])) ∧
  length (pg_sounds p) = 22 * length (giftAssignments (game (pg_ui p))) ∧
  length (pg_confetti p) = length (giftAssignments (game (pg_ui p))).

(** The gutter and the roster are those of the textarea. *)
Definition textarea_ok (p : page) : Prop :=
  Chrome.lineNumbers (pg_chrome p) = Chrome.gutter_html (Chrome.line_count (pg_text p)) ∧
  participants (game (pg_ui p)) = parse_roster (pg_text p).

(** The panel's toggle button is shown exactly once the game has
    started, and exactly one of the panel and its show button is visible. *)
Definition controls_sync (p : page) : Prop :=
  Chrome.toggleControlsHidden (pg_chrome p) = negb (startHidden (pg_ui p)) ∧
  Chrome.controls_ok (pg_chrome p).

(** A spin on the page, then confetti frames, a toggle of the panel and
    a title edit while the winner modal is open. *)
Definition demo_page_events : list pevent :=
  ((λ e, PgUi e 0) <$> ready_events) ++
  [PgUi (EvSpinClick 0 (1#2)) 1; PgUi EvAnimationEnd 9; PgConfettiFrame 0; PgToggleControls;
   PgEditTitle (Some "Party"); PgUi EvCloseWinner 10; PgConfettiFrame 0].

(** The page [demo_page_events] reaches, with Web Audio supported, an
    800 x 600 canvas and the sample draws. *)
Definition demo_page : page :=
  default (page_init Chrome.sample_chrome)
    (page_run true 800 600 Confetti.sample_draws demo_page_events (page_init Chrome.sample_chrome)).

(** ** Lemmas *)

Lemma page_run_rtc sup w h d pes p p' :
  page_run sup w h d pes p = Some p' → rtc (pstep sup w h d) p p'.
Proof.
  revert p. induction pes as [|pe pes IH]; intros p; simpl; [by intros [= ->] |].
  destruct (page_enabled pe p) eqn:He; [| done].
  destruct (page_handle sup w h d pe p) as [p1|] eqn:Hh; [| done].
  intros Hr. eapply rtc_l; [by econstructor | by apply IH].
Qed.

(** A page event is a disciplined controller step on the page's [ui] or
    leaves it alone. *)
Lemma pstep_ui sup w h d p p' :
  pstep sup w h d p p' → dstep (pg_ui p) (pg_ui p') ∨ pg_ui p' = pg_ui p.
Proof.
  intros [pe q q' Hen Hh]. destruct pe as [e now| | | | |i]; simpl in Hh; try (injection Hh as <-; by right).
  - apply andb_true_iff in Hen as [Hen Hdi]. revert Hh.
    destruct (handle e (pg_ui q)) as [u'|] eqn:Hu; [| intros [=]].
    destruct (is_spin_end e); intros [= <-]; left; by econstructor.
  - revert Hh. repeat case_match; intros; simplify_eq/=; by right.
Qed.

Lemma spin_starts_audio e s a :
  spin_starts e s = true → audio_after true e s a = Audio.init_audio true a.
Proof. intros H. unfold audio_after. destruct e; try rewrite H; try reflexivity; discriminate. Qed.

Lemma audio_after_cases e s a :
  audio_after true e s a = a ∨ audio_after true e s a = Audio.init_audio true a.
Proof. unfold audio_after. destruct e; try destruct (spin_starts _ s); auto. Qed.

(** Only a handler that reaches [startSpin] sets [isSpinning]. *)
Lemma handle_spin_start e s s' :
  handle e s = Some s' → e ≠ EvAnimationEnd → isSpinning s' = true →
  isSpinning s = true ∨ spin_starts e s = true.
Proof.
  destruct e; simpl; unfold_handlers; intros H Hne Hsp;
    repeat (case_match; simpl in *); simplify_eq/=; auto; congruence.
Qed.

Lemma effects_ok_audio p a :
  effects_ok p → Audio.isSoundEnabled a = true →
  (Audio.audioContext a = true ∨ isSpinning (pg_ui p) = false ∧ giftAssignments (game (pg_ui p)) = []) →
  effects_ok (mkPage (pg_ui p) (pg_text p) (pg_chrome p) a (pg_sounds p) (pg_confetti p)).
Proof. intros (_ & _ & Hs & Hc) Ha Hctx. by split_and!. Qed.

Lemma init_audio_true a :
  Audio.isSoundEnabled a = true →
  Audio.isSoundEnabled (Audio.init_audio true a) = true ∧ Audio.audioContext (Audio.init_audio true a) = true.
Proof. unfold Audio.init_audio. destruct (Audio.audioContext a) eqn:E; simpl; auto. Qed.

Lemma animation_end_log s s' :
  animation_end s = Some s' →
  length (giftAssignments (game s')) = S (length (giftAssignments (game s))).
Proof.
  unfold animation_end. destruct (resolve_spin _ _) as [[g o]|] eqn:Hr; [| done].
  intros [= <-]. simpl. exact (resolve_spin_log _ _ _ o Hr).
Qed.

(** The roster follows the textarea through every controller event. *)
Lemma handle_roster_text e s s' text :
  handle e s = Some s' → participants (game s) = parse_roster text →
  participants (game s') = parse_roster (textarea_after e text).
Proof.
  destruct e; simpl; unfold_handlers; intros H Ht;
    repeat (case_match; simpl in *); simplify_eq/=; try done.
  by erewrite resolve_spin_roster.
Qed.

Lemma chrome_after_lines e s text c :
  (e = EvStartGame ∨ ∀ t, e ≠ EvEdit t ∧ e ≠ EvResetDefaults) →
  Chrome.lineNumbers (chrome_after e s text c) = Chrome.lineNumbers c.
Proof.
  intros He. destruct e; simpl; try done.
  - destruct He as [? | He]; [done |]. by destruct (He text0) as [? _].
  - destruct He as [? | He]; [done |]. by destruct (He text) as [_ ?].
  - unfold Chrome.start_game_chrome. by case_match.
Qed.

Lemma pstep_effects_ok w h d p p' :
  pstep true w h d p p' → effects_ok p → effects_ok p'.
Proof.
  intros [pe q q' Hen Hh] Hok. pose proof Hok as (Hsnd & Hctx & Hs & Hc).
  destruct pe as [e now| | | | |i]; simpl in Hh; try (injection Hh as <-; exact Hok).
  - apply andb_true_iff in Hen as [Hen _]. revert Hh.
    destruct (handle e (pg_ui q)) as [u'|] eqn:Hu; [| intros [=]].
    destruct (is_spin_end e) eqn:Hend.
    + destruct e; try discriminate. simpl in Hen. intros [= <-]. destruct Hctx as [Hctx | [Hsp _]]; [| congruence].
      assert (Audio.can_play (pg_audio q) = true) as Hp by (unfold Audio.can_play; by rewrite Hsnd, Hctx).
      pose proof (animation_end_log _ _ Hu) as Hlog. unfold effects_ok. cbn [pg_ui pg_audio pg_sounds pg_confetti].
      rewrite !length_app, Audio.play_fanfare_length, Hlog by done. simpl. split_and!; auto; lia.
    + assert (e ≠ EvAnimationEnd) as Hne by (by intros ->). intros [= <-].
      unfold effects_ok. cbn [pg_ui pg_audio pg_sounds pg_confetti].
      destruct (handle_quiet _ _ _ Hu Hne) as (_ & Hlog & _).
      destruct (audio_after_cases e (pg_ui q) (pg_audio q)) as [Ha | Ha]; rewrite Ha.
      * destruct Hctx as [Hctx | [Hsp Hnil]]; rewrite Hlog; split_and!; auto.
        destruct (isSpinning u') eqn:Hsp'; [| by right].
        destruct (handle_spin_start _ _ _ Hu Hne Hsp') as [? | Hst]; [congruence |].
        rewrite spin_starts_audio in Ha by done. destruct (init_audio_true _ Hsnd) as [_ Hc'].
        left. by rewrite <- Ha.
      * destruct (init_audio_true _ Hsnd). rewrite Hlog. split_and!; auto.
  - revert Hh. repeat case_match; intros; simplify_eq/=; try done.
    unfold effects_ok; cbn [pg_ui pg_audio pg_sounds pg_confetti]. rewrite length_insert. split_and!; auto.
Qed.

Lemma pstep_textarea_ok sup w h d p p' :
  pstep sup w h d p p' → textarea_ok p → textarea_ok p'.
Proof.
  intros [pe q q' Hen Hh] [Hl Hr].
  destruct pe as [e now| | | |top|i]; simpl in Hh.
  - revert Hh. destruct (handle e (pg_ui q)) as [u'|] eqn:Hu; [| intros [=]].
    assert (textarea_ok (mkPage u' (textarea_after e (pg_text q))
              (chrome_after e (pg_ui q) (textarea_after e (pg_text q)) (pg_chrome q)) (pg_audio q) [] [])) as Hok.
    { split; [| by eapply handle_roster_text].
      destruct e; simpl; try done. unfold Chrome.start_game_chrome. by case_match. }
    destruct (is_spin_end e); intros [= <-]; exact Hok.
  - injection Hh as <-. split; [| done]. simpl. unfold Chrome.toggle_controls. by case_match.
  - injection Hh as <-. done.
  - injection Hh as <-. split; [| done]. simpl. unfold Chrome.edit_event_title. by repeat case_match.
  - injection Hh as <-. done.
  - revert Hh. repeat case_match; intros; simplify_eq/=; by split.
Qed.

(** Only [startGame] hides the start button, and only when its guard on
    the roster size passes. *)
Lemma handle_start_hidden e s s' :
  handle e s = Some s' →
  startHidden s' = match e with
                   | EvStartGame => negb (length (participants (game s)) <? 2) || startHidden s
                   | _ => startHidden s
                   end.
Proof.
  destruct e; simpl; unfold_handlers; intros H; repeat (case_match; simpl in *); simplify_eq/=;
    try done; by destruct (startHidden s).
Qed.

Lemma pstep_controls_sync sup w h d p p' :
  pstep sup w h d p p' → controls_sync p → controls_sync p'.
Proof.
  intros [pe q q' Hen Hh] [Ht Hc].
  destruct pe as [e now| | | |top|i]; simpl in Hh.
  - revert Hh. destruct (handle e (pg_ui q)) as [u'|] eqn:Hu; [| intros [=]].
    assert (controls_sync (mkPage u' (textarea_after e (pg_text q))
              (chrome_after e (pg_ui q) (textarea_after e (pg_text q)) (pg_chrome q)) (pg_audio q) [] [])) as Hok.
    { unfold controls_sync. simpl. rewrite (handle_start_hidden _ _ _ Hu).
      destruct e; simpl; try done. simpl in Hen. rewrite andb_true_r in Hen. apply negb_true_iff in Hen.
      rewrite Hen in Ht |- *.
      unfold Chrome.start_game_chrome. destruct (_ <? 2); simpl; [done | by split]. }
    destruct (is_spin_end e); intros [= <-]; exact Hok.
  - injection Hh as <-. split; [| by apply (Chrome.controls_ok_op _ Chrome.OpToggleControls)].
    simpl. unfold Chrome.toggle_controls. by case_match.
  - injection Hh as <-. split; [done | by apply (Chrome.controls_ok_op _ Chrome.OpToggleFullscreen)].
  - injection Hh as <-. split; [| by apply (Chrome.controls_ok_op _ (Chrome.OpEditTitle answer))].
    simpl. unfold Chrome.edit_event_title. by repeat case_match.
  - injection Hh as <-. split; [done | by apply (Chrome.controls_ok_op _ (Chrome.OpScroll top))].
  - revert Hh. repeat case_match; intros; simplify_eq/=; by split.
Qed.

(** ** Theorems *)

(** [C16] The controls panel follows the game on the page: on every
    page reached from HTML in which the panel's toggle button is hidden,
    whatever the controller and chrome events, the toggle button is shown
    exactly when the start button has been hidden, because [startGame]'s
    panel update (lines 953-961) sits behind the same roster-size guard as
    its start of the game; and exactly one of the panel and its show
    button is visible. *)
Theorem start_shows_controls sup w h d c0 p :
  Chrome.toggleControlsHidden c0 = true → Chrome.controls_ok c0 →
  rtc (pstep sup w h d) (page_init c0) p →
  Chrome.toggleControlsHidden (pg_chrome p) = negb (startHidden (pg_ui p)) ∧
  Chrome.controls_ok (pg_chrome p).
Proof.
  intros Ht Hc Hr. cut (controls_sync p); [done |]. remember (page_init c0) as p0 eqn:E.
  assert (controls_sync p0) as H0 by (subst; split; [exact Ht | exact Hc]). clear E.
  induction Hr as [|x y z Hxy _ IH]; [done |]. apply IH. by eapply pstep_controls_sync.
Qed.

(** [C17] Composition of the spin with its effects: when the browser
    supports Web Audio, every page run schedules exactly one 22-note
    fanfare and launches one confetti burst per assignment of the log,
    because [startSpin] has created the audio context before any spin can
    end. *)
Theorem spin_effects w h d c0 p :
  rtc (pstep true w h d) (page_init c0) p →
  length (pg_sounds p) = 22 * length (giftAssignments (game (pg_ui p))) ∧
  length (pg_confetti p) = length (giftAssignments (game (pg_ui p))).
Proof.
  intros Hr. cut (effects_ok p); [by intros (_ & _ & ? & ?) |].
  remember (page_init c0) as p0 eqn:E.
  assert (effects_ok p0) as H0 by (subst; split_and!; [done | by right | done | done]). clear E.
  induction Hr as [|x y z Hxy _ IH]; [done |]. apply IH. by eapply pstep_effects_ok.
Qed.

(** [C18] The textarea, its gutter and the roster agree on every page:
    the gutter shows [split('\n').length] lines of the textarea's value
    and the participants are that value parsed, whatever the interleaving
    of controller and chrome events. *)
Theorem textarea_agrees sup w h d c0 p :
  rtc (pstep sup w h d) (page_init c0) p →
  Chrome.lineNumbers (pg_chrome p) = Chrome.gutter_html (Chrome.line_count (pg_text p)) ∧
  participants (game (pg_ui p)) = parse_roster (pg_text p).
Proof.
  intros Hr. cut (textarea_ok p); [done |]. remember (page_init c0) as p0 eqn:E.
  assert (textarea_ok p0) as H0 by (subst; done). clear E.
  induction Hr as [|x y z Hxy _ IH]; [done |]. apply IH. by eapply pstep_textarea_ok.
Qed.

(** ** Witnesses *)

Lemma demo_page_rtc :
  rtc (pstep true 800 600 Confetti.sample_draws) (page_init Chrome.sample_chrome) demo_page.
Proof.
  apply (page_run_rtc _ _ _ _ demo_page_events).
  assert (page_run true 800 600 Confetti.sample_draws demo_page_events (page_init Chrome.sample_chrome) =
          Some demo_page) as H by (vm_compute; reflexivity).
  exact H.
Qed.

Lemma start_shows_controls_witness :
  Chrome.toggleControlsHidden (pg_chrome demo_page) = negb (startHidden (pg_ui demo_page)) ∧
  Chrome.controls_ok (pg_chrome demo_page).
Proof.
  apply (start_shows_controls true 800 600 Confetti.sample_draws Chrome.sample_chrome);
    [reflexivity | reflexivity | exact demo_page_rtc].
Defined.

Lemma spin_effects_witness :
  rtc (pstep true 800 600 Confetti.sample_draws) (page_init Chrome.sample_chrome) demo_page ∧
  length (pg_sounds demo_page) = 22 * length (giftAssignments (game (pg_ui demo_page))) ∧
  length (pg_confetti demo_page) = length (giftAssignments (game (pg_ui demo_page))).
Proof. split; [exact demo_page_rtc | exact (spin_effects _ _ _ _ _ demo_page_rtc)]. Defined.

Lemma textarea_agrees_witness :
  rtc (pstep true 800 600 Confetti.sample_draws) (page_init Chrome.sample_chrome) demo_page ∧
  Chrome.lineNumbers (pg_chrome demo_page) = Chrome.gutter_html (Chrome.line_count (pg_text demo_page)) ∧
  participants (game (pg_ui demo_page)) = parse_roster (pg_text demo_page).
Proof. split; [exact demo_page_rtc | exact (textarea_agrees _ _ _ _ _ _ demo_page_rtc)]. Defined.

End Page.
