(* ===== verification/Display.v ===== *)
(** * The wheel on the screen: the page with its wheel canvas

    The page redraws the wheel canvas with [drawWheel] at fixed points:
    after loading (line 46), after every roster update (line 114), in a
    [setTimeout] 300 ms after [selectPlayer] (lines 234-236), in every
    animation frame and in the last one, before [handleSpinComplete] and
    so with the wheel the spin was made on (lines 487 and 499), in
    [closeModal] when the next player is known (line 713), and on every
    window [resize] (lines 1067-1069).  [wpage] adds to the [page] of
    [Page.v] the canvas context of [Canvas.v], the paints of the last
    [drawWheel] (each one starts by clearing the whole canvas, so they
    are what the canvas shows) and the number of pending redraw timers.
    The intermediate animation frames are collapsed into
    [EvAnimationEnd], as in [Page.v].

    The theorem: on every page reached, the canvas keeps the identity
    transform and an empty [save] stack, and whenever the spin button is
    enabled and no redraw is pending the canvas shows [drawWheel] of the
    current game at the current rotation, i.e. the slices
    [Drawing.draw_slices] of [Drawing.drawn_wheel]. *)

From Stdlib Require Import QArith.
From stdpp Require Import base list strings relations.
From S2P Require Import Prelude Engine Controller Run Canvas Drawing WheelCanvas Confetti Chrome Page.

Module Display.

Import Engine Controller Run Drawing Page.

Record wpage := mkWPage {
  wp_page : page;
  wp_canvas : Canvas.ctx;
  wp_paints : list Canvas.paint;
  wp_redraws : nat
}.

Inductive wevent :=
| WPage (pe : pevent)
| WRedrawTimer
| WResize.

(** [closeModal] reaches its [drawWheel] (lines 695-714): the game is
    not complete and a next player is set. *)
Definition close_redraws (s : ui) : bool :=
  match currentPlayer (game s) with
  | Some _ => negb (game_complete (game s))
  | None => false
  end.

(** The game state and rotation [drawWheel] paints after a controller
    event from [s] to [s']: the updated roster (line 114), the last
    animation frame (line 499, before [handleSpinComplete] changes the
    state, at the target rotation), and [closeModal] directly or from the
    space bar (line 713). *)
Definition wheel_draw_after (e : event) (s s' : ui) : option (state * Q) :=
  match e with
  | EvEdit _ | EvResetDefaults => Some (game s', rotation s')
  | EvAnimationEnd => Some (game s, targetRotation s)
  | EvCloseWinner => if close_redraws s then Some (game s', rotation s') else None
  | EvSpace _ _ => if winnerOpen s && close_redraws s then Some (game s', rotation s') else None
  | _ => None
  end.

(** The redraw timers an event schedules: [selectPlayer]'s
    [setTimeout(drawWheel, 300)] (lines 234-236). *)
Definition redraws_after (e : event) : nat :=
  match e with
  | EvSelect _ => 1
  | _ => 0
  end.

Section Display.

Context (supported : bool) (width height : Q) (draw : nat → Confetti.draws) (wheelW wheelH : Q).

(** [drawWheel()] on the wheel canvas. *)
Definition redraw (wp : wpage) (g : state) (rot : Q) : wpage :=
  let '(c', ps) := Canvas.exec_cmds (wp_canvas wp) (WheelCanvas.draw_wheel g wheelW wheelH rot) in
  mkWPage (wp_page wp) c' ps (wp_redraws wp).

Definition wpage_handle (we : wevent) (wp : wpage) : option wpage :=
  match we with
  | WPage pe =>
      match page_handle supported width height draw pe (wp_page wp) with
      | None => None
      | Some p' =>
          match pe with
          | PgUi e _ =>
              let wp1 := mkWPage p' (wp_canvas wp) (wp_paints wp) (redraws_after e + wp_redraws wp) in
              match wheel_draw_after e (pg_ui (wp_page wp)) (pg_ui p') with
              | Some (g, rot) => Some (redraw wp1 g rot)
              | None => Some wp1
              end
          | _ => Some (mkWPage p' (wp_canvas wp) (wp_paints wp) (wp_redraws wp))
          end
      end
  | WRedrawTimer =>
      match wp_redraws wp with
      | O => None
      | S n =>
          Some (redraw (mkWPage (wp_page wp) (wp_canvas wp) (wp_paints wp) n)
                  (game (pg_ui (wp_page wp))) (rotation (pg_ui (wp_page wp))))
      end
  | WResize => Some (redraw wp (game (pg_ui (wp_page wp))) (rotation (pg_ui (wp_page wp))))
  end.

Definition wpage_enabled (we : wevent) (wp : wpage) : bool :=
  match we with
  | WPage pe => page_enabled pe (wp_page wp)
  | _ => true
  end.

Inductive wstep : wpage → wpage → Prop :=
| wstep_event we wp wp' : wpage_enabled we wp = true → wpage_handle we wp = Some wp' → wstep wp wp'.

(** Lines 31-50: a fresh canvas, and the first [drawWheel] (line 46). *)
Definition wpage_init (c0 : Chrome.chrome) : wpage :=
  redraw (mkWPage (page_init c0) Canvas.initial_ctx [] 0) (game init) 0.

Fixpoint wpage_run (wes : list wevent) (wp : wpage) : option wpage :=
  match wes with
  | [] => Some wp
  | we :: wes' =>
      if wpage_enabled we wp then
        match wpage_handle we wp with Some wp' => wpage_run wes' wp' | None => None end
      else None
  end.

End Display.

(** What the screen shows, as the theorem states it. *)
Definition screen_ok (wheelW wheelH : Q) (wp : wpage) : Prop :=
  Canvas.transform (Canvas.cur (wp_canvas wp)) = [] ∧ Canvas.stack (wp_canvas wp) = [] ∧
  (spinDisabled (pg_ui (wp_page wp)) = false → wp_redraws wp = 0 →
     wp_paints wp = WheelCanvas.wheel_paints wheelW wheelH (rotation (pg_ui (wp_page wp)))
                      (drawn_wheel (game (pg_ui (wp_page wp))))).

(** A game on the page with a resize, the selection's redraw timer and a
    spin. *)
Definition demo_wevents : list wevent :=
  (WPage <$> ((λ e, PgUi e 0) <$> ready_events)) ++
  [WResize; WRedrawTimer; WPage (PgUi (EvSpinClick 0 (1#2)) 1); WPage (PgUi EvAnimationEnd 9);
   WPage (PgUi EvCloseWinner 10)].

Definition demo_wpage : wpage :=
  default (wpage_init 800 600 Chrome.sample_chrome)
    (wpage_run true 800 600 Confetti.sample_draws 800 600 demo_wevents
       (wpage_init 800 600 Chrome.sample_chrome)).

(** ** Lemmas *)

Lemma wpage_run_rtc sup w h d wW wH wes wp wp' :
  wpage_run sup w h d wW wH wes wp = Some wp' → rtc (wstep sup w h d wW wH) wp wp'.
Proof.
  revert wp. induction wes as [|we wes IH]; intros wp; simpl; [by intros [= ->] |].
  destruct (wpage_enabled we wp) eqn:He; [| done].
  destruct (wpage_handle sup w h d wW wH we wp) as [wp1|] eqn:Hh; [| done].
  intros Hr. eapply rtc_l; [by econstructor | by apply IH].
Qed.

(** [drawWheel] on a clean context shows the wheel and leaves it clean. *)
Lemma redraw_ok wW wH wp g rot :
  Canvas.transform (Canvas.cur (wp_canvas wp)) = [] → Canvas.stack (wp_canvas wp) = [] →
  let wp' := redraw wW wH wp g rot in
  Canvas.transform (Canvas.cur (wp_canvas wp')) = [] ∧ Canvas.stack (wp_canvas wp') = [] ∧
  wp_paints wp' = WheelCanvas.wheel_paints wW wH rot (drawn_wheel g) ∧
  wp_page wp' = wp_page wp ∧ wp_redraws wp' = wp_redraws wp.
Proof.
  intros Ht Hs. unfold redraw, WheelCanvas.draw_wheel.
  pose proof (WheelCanvas.draw_wheel_ok wW wH rot (drawn_wheel g) (wp_canvas wp) Ht) as Hok.
  destruct (Canvas.exec_cmds _ _) as [c' ps]. destruct Hok as (-> & ? & ?). simpl. split_and!; congruence.
Qed.

Lemma page_handle_ui sup w h d e now p p' :
  page_handle sup w h d (PgUi e now) p = Some p' → handle e (pg_ui p) = Some (pg_ui p').
Proof.
  simpl. destruct (handle e (pg_ui p)) as [u'|]; [| done].
  by case_match; intros [= <-].
Qed.

(** The page's own events leave the controller alone. *)
Lemma page_handle_chrome sup w h d pe p p' :
  page_handle sup w h d pe p = Some p' → (∀ e now, pe ≠ PgUi e now) → pg_ui p' = pg_ui p.
Proof.
  destruct pe as [e now| | | | |]; intros Hh Hpe; [by destruct (Hpe e now) |..]; revert Hh; simpl;
    repeat case_match; intros; simplify_eq/=; done.
Qed.

(** A spinning page has its spin button disabled. *)
Lemma spinning_disabled s : inv s → isSpinning s = true → spinDisabled s = true.
Proof.
  intros Hinv. destruct (inv_cases s Hinv) as (p & g & rot & tgt & res & -> & _). by destruct p.
Qed.

(** The last animation frame leaves the spin button as the spin found it. *)
Lemma animation_end_disabled s s' : animation_end s = Some s' → spinDisabled s' = spinDisabled s.
Proof. unfold animation_end. destruct (resolve_spin _ _) as [[g o]|]; by intros [= <-]. Qed.

(** A controller event that neither redraws the wheel nor schedules a
    redraw, and leaves the spin button enabled, changes neither the game
    nor the rotation, and found the button enabled. *)
Lemma handle_no_redraw e s s' :
  enabled e s = true → handle e s = Some s' → redraws_after e = 0 →
  wheel_draw_after e s s' = None → spinDisabled s' = false →
  spinDisabled s = false ∧ game s' = game s ∧ rotation s' = rotation s.
Proof.
  intros Hen Hh Hsel Hw Hd'. destruct e as [| | |i|name|u1 u2|u1 u2| | |]; simpl in *; try done.
  all: revert Hh Hw Hd'; unfold_handlers; unfold close_redraws.
  all: repeat case_match; intros; simplify_eq/=; try split_and!; try done.
  all: destruct (spinDisabled s); simpl in *; done.
Qed.

(** A redraw after an event paints the state it leads to, except the
    last animation frame's, which paints the spun wheel at its target. *)
Lemma wheel_draw_after_some e s s' g rot :
  wheel_draw_after e s s' = Some (g, rot) →
  (g = game s' ∧ rot = rotation s') ∨ (e = EvAnimationEnd ∧ g = game s ∧ rot = targetRotation s).
Proof. destruct e; simpl; repeat case_match; intros; simplify_eq; auto. Qed.

(** The invariant of the displayed page. *)
Lemma wstep_screen sup w h d wW wH wp wp' :
  wstep sup w h d wW wH wp wp' → reachable (pg_ui (wp_page wp)) → screen_ok wW wH wp →
  reachable (pg_ui (wp_page wp')) ∧ screen_ok wW wH wp'.
Proof.
  intros [we q q' Hen Hh] Hr (Ht & Hs & Hshow). unfold screen_ok.
  destruct we as [pe| |]; simpl in Hh, Hen.
  - destruct (page_handle sup w h d pe (wp_page q)) as [p'|] eqn:Hp; [| done].
    assert (reachable (pg_ui p')) as Hr'.
    { destruct (pstep_ui sup w h d (wp_page q) p' (pstep_event sup w h d pe _ _ Hen Hp)) as [Hd | ->];
        [unfold reachable in *; by eapply rtc_r | done]. }
    destruct pe as [e now| | | | |];
      [| injection Hh as <-; simpl; rewrite (page_handle_chrome _ _ _ _ _ _ _ Hp ltac:(by intros ??));
         split; [done | split_and!; [done | done | exact Hshow]]..].
    pose proof (page_handle_ui _ _ _ _ _ _ _ _ Hp) as Hu.
    simpl in Hen. apply andb_true_iff in Hen as [Hen _].
    destruct (wheel_draw_after e (pg_ui (wp_page q)) (pg_ui p')) as [[g rot]|] eqn:Hw;
      injection Hh as <-.
    + destruct (redraw_ok wW wH (mkWPage p' (wp_canvas q) (wp_paints q) (redraws_after e + wp_redraws q))
                  g rot Ht Hs) as (? & ? & -> & -> & ->).
      split; [done | split_and!; [done | done |]]. simpl. intros Hd _.
      destruct (wheel_draw_after_some _ _ _ _ _ Hw) as [[-> ->] | (-> & _ & _)]; [done |].
      pose proof (spinning_disabled _ (reachable_inv _ Hr) Hen).
      simpl in Hu. rewrite (animation_end_disabled _ _ Hu) in Hd. congruence.
    + split; [done | split_and!; [done | done |]]. simpl. intros Hd Hz.
      destruct (redraws_after e) eqn:Hra; [| simpl in Hz; lia].
      destruct (handle_no_redraw e _ _ Hen Hu Hra Hw Hd) as (Hd0 & -> & ->).
      apply Hshow; [done | lia].
  - destruct (wp_redraws q) as [|n] eqn:Hn; [done |]. injection Hh as <-.
    destruct (redraw_ok wW wH (mkWPage (wp_page q) (wp_canvas q) (wp_paints q) n)
                (game (pg_ui (wp_page q))) (rotation (pg_ui (wp_page q))) Ht Hs) as (? & ? & Hps & -> & ->).
    split; [done | split_and!; done].
  - injection Hh as <-.
    destruct (redraw_ok wW wH q (game (pg_ui (wp_page q))) (rotation (pg_ui (wp_page q))) Ht Hs)
      as (? & ? & Hps & -> & ->).
    split; [done | split_and!; done].
Qed.

(** ** Theorems *)

(** [C35] Composition of the page with its wheel canvas: on every page
    reached from [DOMContentLoaded], whatever the interleaving of
    controller events, chrome events, confetti frames, redraw timers and
    window resizes, the wheel canvas keeps the identity transform and an
    empty [save] stack, and whenever the spin button is enabled and no
    [selectPlayer] redraw is pending, the canvas shows [drawWheel] of the
    current game at the current rotation: the wheel a player is about to
    spin is the one on the screen. *)
Theorem screen_shows_wheel sup w h d wW wH c0 wp :
  rtc (wstep sup w h d wW wH) (wpage_init wW wH c0) wp →
  Canvas.transform (Canvas.cur (wp_canvas wp)) = [] ∧ Canvas.stack (wp_canvas wp) = [] ∧
  (spinDisabled (pg_ui (wp_page wp)) = false → wp_redraws wp = 0 →
     wp_paints wp = WheelCanvas.wheel_paints wW wH (rotation (pg_ui (wp_page wp)))
                      (drawn_wheel (game (pg_ui (wp_page wp))))).
Proof.
  intros Hr. cut (reachable (pg_ui (wp_page wp)) ∧ screen_ok wW wH wp); [by intros [_ Hs] |].
  remember (wpage_init wW wH c0) as wp0 eqn:E.
  assert (reachable (pg_ui (wp_page wp0)) ∧ screen_ok wW wH wp0) as H0.
  { subst. unfold wpage_init, screen_ok.
    destruct (redraw_ok wW wH (mkWPage (page_init c0) Canvas.initial_ctx [] 0) (game init) 0
                eq_refl eq_refl) as (? & ? & _ & -> & _).
    split; [apply rtc_refl | split_and!; [done | done | intros [=]]]. }
  clear E. induction Hr as [|x y z Hxy _ IH]; [done |]. apply IH.
  destruct H0 as [Hr0 Hs0]. by apply (wstep_screen sup w h d wW wH x y).
Qed.

(** ** Witnesses *)

Lemma demo_wpage_rtc :
  rtc (wstep true 800 600 Confetti.sample_draws 800 600) (wpage_init 800 600 Chrome.sample_chrome) demo_wpage.
Proof.
  apply (wpage_run_rtc _ _ _ _ _ _ demo_wevents).
  assert (wpage_run true 800 600 Confetti.sample_draws 800 600 demo_wevents
            (wpage_init 800 600 Chrome.sample_chrome) = Some demo_wpage) as H by (vm_compute; reflexivity).
  exact H.
Qed.

Lemma screen_shows_wheel_witness :
  rtc (wstep true 800 600 Confetti.sample_draws 800 600) (wpage_init 800 600 Chrome.sample_chrome) demo_wpage ∧
  Canvas.transform (Canvas.cur (wp_canvas demo_wpage)) = [] ∧ Canvas.stack (wp_canvas demo_wpage) = [] ∧
  (spinDisabled (pg_ui (wp_page demo_wpage)) = false → wp_redraws demo_wpage = 0 →
     wp_paints demo_wpage = WheelCanvas.wheel_paints 800 600 (rotation (pg_ui (wp_page demo_wpage)))
                      (drawn_wheel (game (pg_ui (wp_page demo_wpage))))).
Proof. split; [exact demo_wpage_rtc | exact (screen_shows_wheel _ _ _ _ _ _ _ _ demo_wpage_rtc)]. Defined.

End Display.
